(** * Kruskal's minimum spanning tree over an adjacency-list grid graph

    A shallow embedding of [graph/adjacency_list.py] and [MST/kruskals.py],
    followed by the properties of the graph operations, of the union-find
    helpers and of [kruskalMST] itself.

    Conventions of the embedding:
    - Python integers are [Z];
    - a [dict] is a [gmap], a [set] a [gset], a [list] a [list];
    - a method that mutates [self] returns the new state next to its result;
    - the recursion of [find] is bounded by a [fuel] argument; running out of
      fuel (like a missing dictionary key) yields [None];
    - graph objects live in a [Store], so that object identity and mutation
      are visible where a property speaks about them. *)

From stdpp Require Import gmap list relations sorting.
From Stdlib Require Import ZArith Lia.

Local Open Scope Z_scope.

(** ** Coordinate *)

(** Modelled from the spec: [graph/coordinate.py] is not among the sources.
    A coordinate is an immutable (row, col) pair compared by value. *)
Record Coordinate := mkCoordinate { getRow : Z; getCol : Z }.

#[global] Instance Coordinate_eq_dec : EqDecision Coordinate.
Proof. solve_decision. Defined.

#[global] Instance Coordinate_countable : Countable Coordinate.
Proof.
  refine (inj_countable' (λ c, (getRow c, getCol c))
                         (λ p, mkCoordinate p.1 p.2) _).
  by intros [].
Defined.

(** Modelled from the spec: [Coordinate.isAdjacent] is true iff the Manhattan
    distance between the two positions is exactly 1. *)
Definition isAdjacent (a b : Coordinate) : bool :=
  Z.abs (getRow a - getRow b) + Z.abs (getCol a - getCol b) =? 1.

(** ** AdjacencyListGraph *)

Record AdjacencyListGraph := mkGraph {
  rows : Z;
  cols : Z;
  size : Z;
  vertices : list Coordinate;
  adj_list : gmap Coordinate (list (Coordinate * Z))
}.

Definition set_adj_list (g : AdjacencyListGraph)
    (adj : gmap Coordinate (list (Coordinate * Z))) : AdjacencyListGraph :=
  {| rows := rows g; cols := cols g; size := size g;
     vertices := vertices g; adj_list := adj |}.

Definition __init__ (rows cols : Z) : AdjacencyListGraph :=
  {| rows := rows; cols := cols; size := rows * cols;
     vertices := []; adj_list := ∅ |}.

Definition addVertex (g : AdjacencyListGraph) (label : Coordinate)
    : AdjacencyListGraph :=
  match adj_list g !! label with
  | None =>
      {| rows := rows g; cols := cols g; size := size g;
         vertices := vertices g ++ [label];
         adj_list := <[label := []]> (adj_list g) |}
  | Some _ => g
  end.

Definition is_edge_to (vert2 : Coordinate) (e : Coordinate * Z) : bool :=
  bool_decide (e.1 = vert2).

Definition _get_edge (g : AdjacencyListGraph) (vert1 vert2 : Coordinate)
    : option (Coordinate * Z) :=
  match adj_list g !! vert1 with
  | None => None
  | Some l => List.find (is_edge_to vert2) l
  end.

(** The [enumerate] loop of [_update_edge_in_list]: overwrite the first entry
    towards [vert2]; [None] when the loop falls through. *)
Fixpoint update_first (vert2 : Coordinate) (weight : Z)
    (l : list (Coordinate * Z)) : option (list (Coordinate * Z)) :=
  match l with
  | [] => None
  | e :: t =>
      if is_edge_to vert2 e then Some ((e.1, weight) :: t)
      else cons e <$> update_first vert2 weight t
  end.

Definition _update_edge_in_list (g : AdjacencyListGraph)
    (vert1 vert2 : Coordinate) (weight : Z) : bool * AdjacencyListGraph :=
  match adj_list g !! vert1 with
  | None => (false, g)
  | Some l =>
      match update_first vert2 weight l with
      | Some l' => (true, set_adj_list g (<[vert1 := l']> (adj_list g)))
      | None => (false, g)
      end
  end.

(** The list comprehension of [_remove_edge_from_list]. *)
Definition without (v : Coordinate) (l : list (Coordinate * Z))
    : list (Coordinate * Z) :=
  List.filter (λ e, negb (is_edge_to v e)) l.

Definition _remove_edge_from_list (g : AdjacencyListGraph)
    (vert1 vert2 : Coordinate) : bool * AdjacencyListGraph :=
  match adj_list g !! vert1 with
  | None => (false, g)
  | Some l =>
      let l' := without vert2 l in
      (Nat.ltb (length l') (length l),
       set_adj_list g (<[vert1 := l']> (adj_list g)))
  end.

Definition addVertices (g : AdjacencyListGraph) (vertLabels : list Coordinate)
    : AdjacencyListGraph :=
  foldl addVertex g vertLabels.

(** [self.adj_list[vert1].append((vert2, weight))]. *)
Definition append_entry (vert1 vert2 : Coordinate) (weight : Z)
    (adj : gmap Coordinate (list (Coordinate * Z)))
    : gmap Coordinate (list (Coordinate * Z)) :=
  alter (λ l, l ++ [(vert2, weight)]) vert1 adj.

(** The two [append] calls that store an undirected edge. *)
Definition add_undirected (g : AdjacencyListGraph)
    (vert1 vert2 : Coordinate) (weight : Z) : AdjacencyListGraph :=
  set_adj_list g
    (append_entry vert2 vert1 weight
       (append_entry vert1 vert2 weight (adj_list g))).

Definition addEdge (g : AdjacencyListGraph) (vert1 vert2 : Coordinate)
    (weight : Z) : bool * AdjacencyListGraph :=
  if bool_decide (adj_list g !! vert1 = None ∨ adj_list g !! vert2 = None)
  then (false, g)
  else if negb (isAdjacent vert1 vert2) then (false, g)
  else if weight <=? 0 then (false, g)
  else if bool_decide (_get_edge g vert1 vert2 ≠ None) then (false, g)
  else (true, add_undirected g vert1 vert2 weight).

Definition updateWall (g : AdjacencyListGraph) (vert1 vert2 : Coordinate)
    (hasWall : bool) (weight : Z) : bool * AdjacencyListGraph :=
  if bool_decide (adj_list g !! vert1 = None ∨ adj_list g !! vert2 = None)
     || negb (isAdjacent vert1 vert2)
  then (false, g)
  else if hasWall then
    let g1 := (_remove_edge_from_list g vert1 vert2).2 in
    let g2 := (_remove_edge_from_list g1 vert2 vert1).2 in
    (true, g2)
  else if weight <=? 0 then (false, g)
  else if bool_decide (_get_edge g vert1 vert2 ≠ None) then
    let '(updated_1, g1) := _update_edge_in_list g vert1 vert2 weight in
    let '(updated_2, g2) := _update_edge_in_list g1 vert2 vert1 weight in
    (updated_1 && updated_2, g2)
  else (true, add_undirected g vert1 vert2 weight).

Definition removeEdge (g : AdjacencyListGraph) (vert1 vert2 : Coordinate)
    : bool * AdjacencyListGraph :=
  updateWall g vert1 vert2 true 1.

Definition hasVertex (g : AdjacencyListGraph) (label : Coordinate) : bool :=
  bool_decide (is_Some (adj_list g !! label)).

Definition hasEdge (g : AdjacencyListGraph) (vert1 vert2 : Coordinate) : bool :=
  match _get_edge g vert1 vert2 with
  | Some edge => 0 <? edge.2
  | None => false
  end.

Definition getWallStatus (g : AdjacencyListGraph) (vert1 vert2 : Coordinate)
    : bool :=
  if negb (isAdjacent vert1 vert2) then true
  else if bool_decide (adj_list g !! vert1 = None ∨ adj_list g !! vert2 = None)
  then true
  else bool_decide (_get_edge g vert1 vert2 = None).

Definition getWeight (g : AdjacencyListGraph) (vert1 vert2 : Coordinate) : Z :=
  match _get_edge g vert1 vert2 with
  | Some edge => if 0 <? edge.2 then edge.2 else 0
  | None => 0
  end.

Definition getVertices (g : AdjacencyListGraph) : list Coordinate :=
  vertices g.

Definition neighbours (g : AdjacencyListGraph) (label : Coordinate)
    : list Coordinate :=
  match adj_list g !! label with
  | None => []
  | Some l => (List.filter (λ e, 0 <? e.2) l).*1
  end.

(** ** Kruskal's algorithm *)

(** A collected edge is the tuple [(w, u, v)]. *)
Abbreviation Edge := (Z * Coordinate * Coordinate)%type.

Definition edge_weight (e : Edge) : Z := e.1.1.
Definition edge_src (e : Edge) : Coordinate := e.1.2.
Definition edge_dst (e : Edge) : Coordinate := e.2.

(** [find]: the recursion is bounded by [fuel]; [parent[coord]] on a missing
    key raises, which is [None] here. *)
Fixpoint find (fuel : nat) (coord : Coordinate)
    (parent : gmap Coordinate Coordinate)
    : option (Coordinate * gmap Coordinate Coordinate) :=
  match fuel with
  | O => None
  | S fuel' =>
      p ← parent !! coord;
      if bool_decide (p ≠ coord) then
        '(r, parent1) ← find fuel' p parent;
        let parent2 := <[coord := r]> parent1 in
        r' ← parent2 !! coord;
        Some (r', parent2)
      else
        r' ← parent !! coord;
        Some (r', parent)
  end.

Definition union (fuel : nat) (a b : Coordinate)
    (parent : gmap Coordinate Coordinate)
    : option (bool * gmap Coordinate Coordinate) :=
  '(root_a, parent1) ← find fuel a parent;
  '(root_b, parent2) ← find fuel b parent1;
  if bool_decide (root_a ≠ root_b)
  then Some (true, <[root_b := root_a]> parent2)
  else Some (false, parent2).

(** The body of the inner collection loop, for one neighbour [v] of [u]:
    the state is [(all_edges, processed_edges)]. *)
Definition collect_step (g : AdjacencyListGraph) (u : Coordinate)
    (st : list Edge * gset (gset Coordinate)) (v : Coordinate)
    : list Edge * gset (gset Coordinate) :=
  let edge_key : gset Coordinate := {[u; v]} in
  if bool_decide (edge_key ∈ st.2) then st
  else
    let w := getWeight g u v in
    if 0 <? w then (st.1 ++ [(w, u, v)], {[edge_key]} ∪ st.2) else st.

Definition collect_edges (g : AdjacencyListGraph) (vs : list Coordinate)
    : list Edge :=
  (foldl (λ st u, foldl (collect_step g u) st (neighbours g u)) ([], ∅) vs).1.

(** [all_edges.sort(key=lambda x: x[0])]: Python's sort is stable, so its
    result is the stable insertion sort by weight. *)
Fixpoint insert_by_weight (e : Edge) (l : list Edge) : list Edge :=
  match l with
  | [] => [e]
  | h :: t =>
      if edge_weight e <=? edge_weight h then e :: h :: t
      else h :: insert_by_weight e t
  end.

Definition sort_by_weight (l : list Edge) : list Edge :=
  foldr insert_by_weight [] l.

(** [{v: v for v in vertices}]. *)
Definition init_parent (vs : list Coordinate) : gmap Coordinate Coordinate :=
  foldl (λ m v, <[v := v]> m) ∅ vs.

(** Graph objects are held in a store; a reference is an index into it. *)
Abbreviation Store := (list AdjacencyListGraph).

Definition alloc (g : AdjacencyListGraph) (σ : Store) : nat * Store :=
  (length σ, σ ++ [g]).

(** Run a mutating method on the object behind a reference. *)
Definition store_update (ref : nat)
    (f : AdjacencyListGraph → AdjacencyListGraph) (σ : Store) : option Store :=
  g ← σ !! ref;
  Some (<[ref := f g]> σ).

(** The final loop: [if union(u, v, parent): mst.addEdge(u, v, w)]. *)
Fixpoint kruskal_loop (fuel : nat) (mst : nat) (all_edges : list Edge)
    (parent : gmap Coordinate Coordinate) (σ : Store) : option Store :=
  match all_edges with
  | [] => Some σ
  | (w, u, v) :: rest =>
      '(joined, parent') ← union fuel u v parent;
      σ' ← (if joined : bool
             then store_update mst (λ m, (addEdge m u v w).2) σ
             else Some σ);
      kruskal_loop fuel mst rest parent' σ'
  end.

(** [kruskalMST graph]: [graph] is a reference to the input object; the
    result is the reference of the returned object and the final store.
    Every method call goes through the store. [getVertices] hands out the
    vertex list of the input itself; the function only reads it, so the value
    read once stands for it. *)
Definition kruskalMST (fuel : nat) (graph : nat) (σ : Store)
    : option (nat * Store) :=
  g ← σ !! graph;
  if bool_decide (getVertices g = []) then
    Some (alloc (__init__ (rows g) (cols g)) σ)
  else
    let '(mst, σ1) := alloc (__init__ (rows g) (cols g)) σ in
    g1 ← σ1 !! graph;
    let vs := getVertices g1 in
    σ2 ← store_update mst (λ m, addVertices m vs) σ1;
    g2 ← σ2 !! graph;
    let all_edges := sort_by_weight (collect_edges g2 vs) in
    let parent := init_parent vs in
    σ3 ← kruskal_loop fuel mst all_edges parent σ2;
    Some (mst, σ3).

(** ** Test fixtures *)

Definition c00 := mkCoordinate 0 0.
Definition c01 := mkCoordinate 0 1.
Definition c10 := mkCoordinate 1 0.
Definition c11 := mkCoordinate 1 1.

(** The 2x2 graph with edges (0,0)-(0,1)=1, (0,0)-(1,0)=4, (0,1)-(1,1)=2,
    (1,0)-(1,1)=1, built through the public operations. *)
Definition square_graph : AdjacencyListGraph :=
  let g := addVertices (__init__ 2 2) [c00; c01; c10; c11] in
  let g := (addEdge g c00 c01 1).2 in
  let g := (addEdge g c00 c10 4).2 in
  let g := (addEdge g c01 c11 2).2 in
  (addEdge g c10 c11 1).2.

(** The spanning tree of [square_graph] of weight 4: edges (0,0)-(0,1)=1,
    (1,0)-(1,1)=1 and (0,1)-(1,1)=2. *)
Definition square_mst : AdjacencyListGraph :=
  let g := addVertices (__init__ 2 2) [c00; c01; c10; c11] in
  let g := (addEdge g c00 c01 1).2 in
  let g := (addEdge g c10 c11 1).2 in
  (addEdge g c01 c11 2).2.

(** A parent mapping that is a three-element chain (0,0) -> (0,1) -> (1,1),
    and what one [find] from its bottom leaves. *)
Definition chain_parent : gmap Coordinate Coordinate :=
  <[c00 := c01]> (<[c01 := c11]> (<[c11 := c11]> ∅)).

Definition chain_compressed : gmap Coordinate Coordinate :=
  <[c00 := c11]> (<[c01 := c11]> (<[c11 := c11]> ∅)).

(** ** Specification vocabulary: graphs *)

(** The well-formed graphs: the vertex list has no duplicates and agrees
    with the keys of the adjacency dictionary, every stored entry has a
    positive weight, joins adjacent cells and is mirrored at the other
    endpoint, and a vertex stores at most one entry per neighbour.  Every
    state reached through the public operations is of this kind
    ([wf_reachable] below). *)
Record wf_graph (g : AdjacencyListGraph) : Prop := {
  wf_nodup : NoDup (vertices g);
  wf_dom : ∀ u, u ∈ vertices g ↔ is_Some (adj_list g !! u);
  wf_entry : ∀ u l v w,
    adj_list g !! u = Some l → (v, w) ∈ l →
    0 < w ∧ isAdjacent u v = true ∧
    ∃ l', adj_list g !! v = Some l' ∧ (u, w) ∈ l';
  wf_keys : ∀ u l, adj_list g !! u = Some l → NoDup l.*1
}.

(** The public mutating operations, and the states they reach from an empty
    graph. *)
Inductive Operation :=
  | OpAddVertex (label : Coordinate)
  | OpAddVertices (vertLabels : list Coordinate)
  | OpAddEdge (vert1 vert2 : Coordinate) (weight : Z)
  | OpUpdateWall (vert1 vert2 : Coordinate) (hasWall : bool) (weight : Z)
  | OpRemoveEdge (vert1 vert2 : Coordinate).

Definition apply_op (g : AdjacencyListGraph) (o : Operation)
    : AdjacencyListGraph :=
  match o with
  | OpAddVertex label => addVertex g label
  | OpAddVertices vertLabels => addVertices g vertLabels
  | OpAddEdge vert1 vert2 weight => (addEdge g vert1 vert2 weight).2
  | OpUpdateWall vert1 vert2 hasWall weight =>
      (updateWall g vert1 vert2 hasWall weight).2
  | OpRemoveEdge vert1 vert2 => (removeEdge g vert1 vert2).2
  end.

Definition reachable (g : AdjacencyListGraph) : Prop :=
  ∃ rows cols ops, g = foldl apply_op (__init__ rows cols) ops.

(** Connectivity along traversable edges. *)
Definition adjacent_in (g : AdjacencyListGraph) : relation Coordinate :=
  λ u v, hasEdge g u v = true.

Definition connected (g : AdjacencyListGraph) : relation Coordinate :=
  rtc (adjacent_in g).

(** [reps] holds exactly one element of every class of [R] among [vs]. *)
Record reps_of (R : relation Coordinate) (vs reps : list Coordinate)
    : Prop := {
  reps_nodup : NoDup reps;
  reps_among : ∀ r, r ∈ reps → r ∈ vs;
  reps_cover : ∀ v, v ∈ vs → ∃ r, r ∈ reps ∧ R v r;
  reps_apart : ∀ r1 r2, r1 ∈ reps → r2 ∈ reps → R r1 r2 → r1 = r2
}.

(** [reps] holds exactly one vertex of every connected component. *)
Definition component_reps (g : AdjacencyListGraph) (reps : list Coordinate)
    : Prop :=
  reps_of (connected g) (vertices g) reps.

Definition num_components (g : AdjacencyListGraph) (c : nat) : Prop :=
  ∃ reps, component_reps g reps ∧ length reps = c.

(** Every undirected edge once: listed at its lexicographically smaller
    endpoint, through the public queries. *)
Definition coord_ltb (a b : Coordinate) : bool :=
  (getRow a <? getRow b) || ((getRow a =? getRow b) && (getCol a <? getCol b)).

Definition edges_from (g : AdjacencyListGraph) (u : Coordinate) : list Edge :=
  (λ v, (getWeight g u v, u, v)) <$> List.filter (coord_ltb u) (neighbours g u).

Definition edges (g : AdjacencyListGraph) : list Edge :=
  vertices g ≫= edges_from g.

Definition edge_count (g : AdjacencyListGraph) : nat := length (edges g).

Definition weight_sum (l : list Edge) : Z :=
  foldr (λ e s, edge_weight e + s) 0 l.

Definition total_weight (g : AdjacencyListGraph) : Z := weight_sum (edges g).

(** Spanning forests of [g]: subgraphs on the same vertices that keep the
    connectivity of [g] and have no cycle (removing any edge separates its
    endpoints). *)
Definition subgraph (f g : AdjacencyListGraph) : Prop :=
  ∀ u v, hasEdge f u v = true →
         hasEdge g u v = true ∧ getWeight f u v = getWeight g u v.

Definition acyclic (f : AdjacencyListGraph) : Prop :=
  ∀ u v, hasEdge f u v = true → ¬ connected (removeEdge f u v).2 u v.

Record spanning_forest (g f : AdjacencyListGraph) : Prop := {
  sf_wf : wf_graph f;
  sf_vertices : ∀ u, u ∈ vertices f ↔ u ∈ vertices g;
  sf_subgraph : subgraph f g;
  sf_spans : ∀ u v, connected g u v → connected f u v;
  sf_acyclic : acyclic f
}.

(** ** Specification vocabulary: union-find *)

(** [reaches_root parent x r n]: following the parent pointers from [x]
    reaches the self-parented [r] after [n] steps. *)
Inductive reaches_root (parent : gmap Coordinate Coordinate)
    : Coordinate → Coordinate → nat → Prop :=
  | reaches_here x :
      parent !! x = Some x → reaches_root parent x x 0
  | reaches_step x p r n :
      parent !! x = Some p → p ≠ x → reaches_root parent p r n →
      reaches_root parent x r (S n).

(** The naive walk to the root: [find] without the path compression. *)
Fixpoint naive_find (fuel : nat) (coord : Coordinate)
    (parent : gmap Coordinate Coordinate) : option Coordinate :=
  match fuel with
  | O => None
  | S fuel' =>
      p ← parent !! coord;
      if bool_decide (p ≠ coord) then naive_find fuel' p parent else Some p
  end.

(** Every parent chain ends in a self-parented root. *)
Definition chains_terminate (parent : gmap Coordinate Coordinate) : Prop :=
  ∀ x, is_Some (parent !! x) → ∃ fuel r, naive_find fuel x parent = Some r.

(** [x] and [y] are in the same set. *)
Definition same_set (parent : gmap Coordinate Coordinate)
    (x y : Coordinate) : Prop :=
  ∃ r n m, reaches_root parent x r n ∧ reaches_root parent y r m.

(** A sequence of [union] calls, the results ignored. *)
Fixpoint union_all (fuel : nat) (ops : list (Coordinate * Coordinate))
    (parent : gmap Coordinate Coordinate)
    : option (gmap Coordinate Coordinate) :=
  match ops with
  | [] => Some parent
  | (a, b) :: rest =>
      '(_, parent') ← union fuel a b parent;
      union_all fuel rest parent'
  end.

(** ** Auxiliary notions used by the proofs *)

(** [entry g u v w]: the adjacency list of [u] holds the pair [(v, w)]. *)
Definition entry (g : AdjacencyListGraph) (u v : Coordinate) (w : Z) : Prop :=
  ∃ l, adj_list g !! u = Some l ∧ (v, w) ∈ l.

(** [compresses parent parent']: [parent'] has the same keys as [parent],
    and each of its pointers is either the old one or leads straight to the
    old root. This is what path compression does to a mapping. *)
Definition compresses (parent parent' : gmap Coordinate Coordinate) : Prop :=
  (∀ z, is_Some (parent' !! z) ↔ is_Some (parent !! z)) ∧
  ∀ z p, parent' !! z = Some p →
         parent !! z = Some p ∨ ∃ n, reaches_root parent z p n.

(** Every key reaches its root within [bound] steps. *)
Definition depth_bounded (parent : gmap Coordinate Coordinate) (bound : nat)
    : Prop :=
  ∀ x, is_Some (parent !! x) → ∃ r n, reaches_root parent x r n ∧ (n ≤ bound)%nat.

(** Union-find without path compression: the reference [find] is the naive
    walk, and [union] attaches the root of [b] under the root of [a]. *)
Definition naive_union (fuel : nat) (a b : Coordinate)
    (parent : gmap Coordinate Coordinate)
    : option (gmap Coordinate Coordinate) :=
  root_a ← naive_find fuel a parent;
  root_b ← naive_find fuel b parent;
  if bool_decide (root_a ≠ root_b)
  then Some (<[root_b := root_a]> parent) else Some parent.

Fixpoint naive_union_all (fuel : nat) (ops : list (Coordinate * Coordinate))
    (parent : gmap Coordinate Coordinate)
    : option (gmap Coordinate Coordinate) :=
  match ops with
  | [] => Some parent
  | (a, b) :: rest =>
      parent' ← naive_union fuel a b parent;
      naive_union_all fuel rest parent'
  end.

(** [same_roots P Q]: the two forests have the same keys and every key has
    the same root in both. *)
Definition same_roots (P Q : gmap Coordinate Coordinate) : Prop :=
  (∀ z, is_Some (P !! z) ↔ is_Some (Q !! z)) ∧
  ∀ y r k, reaches_root P y r k → ∃ k', reaches_root Q y r k'.

(** Connectivity generated by a list of collected edges. *)
Definition linked (L : list Edge) : relation Coordinate :=
  λ u v, ∃ w, (w, u, v) ∈ L.

Definition econn (L : list Edge) : relation Coordinate := rtsc (linked L).

(** The self-parented keys among [vs]. *)
Definition uf_roots (parent : gmap Coordinate Coordinate)
    (vs : list Coordinate) : list Coordinate :=
  filter (λ x, parent !! x = Some x) vs.

(** The final loop of [kruskalMST] without the graph: the edges for which
    [union] answers true, and the final mapping. *)
Fixpoint uf_run (fuel : nat) (all_edges : list Edge)
    (parent : gmap Coordinate Coordinate)
    : option (list Edge * gmap Coordinate Coordinate) :=
  match all_edges with
  | [] => Some ([], parent)
  | (w, u, v) :: rest =>
      '(joined, parent') ← union fuel u v parent;
      '(K, parent'') ← uf_run fuel rest parent';
      Some (if joined : bool then (w, u, v) :: K else K, parent'')
  end.

(** [mst.addEdge(u, v, w)] for each edge of a list. *)
Definition add_edges (m : AdjacencyListGraph) (K : list Edge)
    : AdjacencyListGraph :=
  foldl (λ m e, (addEdge m (edge_src e) (edge_dst e) (edge_weight e)).2) m K.

(** An edge with its smaller endpoint first. *)
Definition normalize (e : Edge) : Edge :=
  if coord_ltb (edge_src e) (edge_dst e) then e
  else (edge_weight e, edge_dst e, edge_src e).

(** The edges of [L] with weight at least [t]. *)
Definition at_least (t : Z) (L : list Edge) : list Edge :=
  List.filter (λ e, t <=? edge_weight e) L.

Definition below (t : Z) (L : list Edge) : list Edge :=
  List.filter (λ e, edge_weight e <? t) L.

(** Edges accepted one after the other, each joining two vertices that the
    earlier ones leave apart. *)
Inductive independent : list Edge → Prop :=
  | independent_nil : independent []
  | independent_snoc K w u v :
      independent K → ¬ econn K u v → independent (K ++ [(w, u, v)]).

(** The loop invariant of the union-find run over the vertices [vs]: [done]
    are the edges processed so far, [acc] the accepted ones. *)
Record uf_inv (vs : list Coordinate) (done acc : list Edge)
    (P : gmap Coordinate Coordinate) : Prop := {
  ui_keys : ∀ z, is_Some (P !! z) ↔ z ∈ vs;
  ui_depth : depth_bounded P (length acc);
  ui_sets : ∀ x y, x ∈ vs → y ∈ vs → same_set P x y ↔ econn done x y;
  ui_count : (length (uf_roots P vs) + length acc = length vs)%nat;
  ui_acc : ∀ x y, econn done x y → econn acc x y;
  ui_sub : ∀ e, e ∈ acc → e ∈ done;
  ui_indep : independent acc
}.

(** [L] lists every stored edge of [g], in one orientation or the other. *)
Definition edge_list_of (g : AdjacencyListGraph) (L : list Edge) : Prop :=
  ∀ u v w, entry g u v w ↔ (w, u, v) ∈ L ∨ (w, v, u) ∈ L.

(** The invariant of the collection loop of [kruskalMST]. *)
Definition collect_inv (g : AdjacencyListGraph)
    (st : list Edge * gset (gset Coordinate)) : Prop :=
  (∀ w a b, (w, a, b) ∈ st.1 → entry g a b w) ∧
  (∀ key, key ∈ st.2 → ∃ w a b, (w, a, b) ∈ st.1 ∧ key = {[a; b]}).

Definition collect_le (st st' : list Edge * gset (gset Coordinate)) : Prop :=
  (∀ e, e ∈ st.1 → e ∈ st'.1) ∧ st.2 ⊆ st'.2.

Definition weight_le (e1 e2 : Edge) : Prop := edge_weight e1 ≤ edge_weight e2.

(** The invariant of the result graph while the accepted edges [acc] are
    added to it. *)
Record mst_inv (vs : list Coordinate) (acc : list Edge)
    (m : AdjacencyListGraph) : Prop := {
  mi_wf : wf_graph m;
  mi_vertices : vertices m = vs;
  mi_edges : edge_list_of m acc;
  mi_perm : edges m ≡ₚ normalize <$> acc
}.

(** The number of edges of weight at least [k], summed over the levels
    [1 .. W]: the total weight of [L] when no weight exceeds [W]. *)
Definition level_sum (W : nat) (L : list Edge) : nat :=
  sum_list_with (λ k, length (at_least (Z.of_nat k) L)) (seq 1 W).

(** The edges of [K] that do not join [u] and [v]. *)
Definition not_between (u v : Coordinate) (e : Edge) : bool :=
  negb (bool_decide ((edge_src e = u ∧ edge_dst e = v) ∨
                     (edge_src e = v ∧ edge_dst e = u))).

(** ** Further notions *)

(** The dictionary key of a collected edge: [frozenset([u, v])]. *)
Definition edge_key (e : Edge) : gset Coordinate :=
  {[edge_src e; edge_dst e]}.

(** No unordered pair is collected twice, and every collected pair is
    recorded in [processed_edges]. *)
Definition collect_once (st : list Edge * gset (gset Coordinate)) : Prop :=
  NoDup (edge_key <$> st.1) ∧ ∀ e, e ∈ st.1 → edge_key e ∈ st.2.

(** Two adjacent cells without an edge, and with one of weight 3. *)
Definition two_cells : AdjacencyListGraph :=
  addVertices (__init__ 1 2) [c00; c01].

Definition two_cells_joined : AdjacencyListGraph :=
  (addEdge two_cells c00 c01 3).2.

(** * Properties of the adjacency-list graph *)

Section coordinate_facts.
Implicit Types a b : Coordinate.

Lemma isAdjacent_sym a b : isAdjacent a b = isAdjacent b a.
Proof.
  unfold isAdjacent. f_equal.
  rewrite <- (Z.abs_opp (getRow a - getRow b)).
  rewrite <- (Z.abs_opp (getCol a - getCol b)).
  f_equal; f_equal; lia.
Qed.

Lemma isAdjacent_ne a b : isAdjacent a b = true → a ≠ b.
Proof.
  unfold isAdjacent. intros H ->. rewrite !Z.sub_diag in H. discriminate.
Qed.

Lemma coord_ltb_irrefl a : coord_ltb a a = false.
Proof.
  unfold coord_ltb. rewrite !Z.ltb_irrefl, andb_false_r. done.
Qed.

Lemma coord_ltb_total a b : a ≠ b → coord_ltb a b = negb (coord_ltb b a).
Proof.
  destruct a as [r1 c1], b as [r2 c2]. unfold coord_ltb. simpl. intros Hne.
  destruct (Z.ltb_spec r1 r2), (Z.ltb_spec r2 r1),
    (Z.eqb_spec r1 r2), (Z.eqb_spec r2 r1),
    (Z.ltb_spec c1 c2), (Z.ltb_spec c2 c1); simpl; try done; try lia.
  exfalso. apply Hne. f_equal; lia.
Qed.
End coordinate_facts.

(** ** Adjacency entries *)

Section entries.
Implicit Types l : list (Coordinate * Z).
Implicit Types u v : Coordinate.

Lemma find_edge_Some l v e :
  List.find (is_edge_to v) l = Some e → e ∈ l ∧ e.1 = v.
Proof.
  intros H. apply find_some in H as [Hin He].
  split; [by apply list_elem_of_In|].
  unfold is_edge_to in He. by apply bool_decide_eq_true in He.
Qed.

Lemma find_edge_None l v :
  List.find (is_edge_to v) l = None ↔ v ∉ l.*1.
Proof.
  induction l as [|e l IH]; simpl.
  - split; [intros _; apply not_elem_of_nil | done].
  - unfold is_edge_to at 1. case_bool_decide as He.
    + split; [done|]. intros Hn. exfalso. apply Hn. rewrite He. left.
    + rewrite IH. rewrite not_elem_of_cons. intuition congruence.
Qed.

Lemma find_edge_nodup l v w :
  NoDup l.*1 → (v, w) ∈ l → List.find (is_edge_to v) l = Some (v, w).
Proof.
  induction l as [|e l IH]; simpl; intros Hnd Hin.
  - by apply elem_of_nil in Hin.
  - apply NoDup_cons in Hnd as [Hne Hnd].
    apply elem_of_cons in Hin as [<-|Hin].
    + unfold is_edge_to. simpl. by rewrite bool_decide_eq_true_2.
    + unfold is_edge_to at 1. case_bool_decide as He; [|by apply IH].
      exfalso. apply Hne. rewrite He.
      apply (list_elem_of_fmap_2 fst) in Hin. done.
Qed.
End entries.

(** ** The queries in terms of stored entries *)

Section queries.
Context (g : AdjacencyListGraph) (Hwf : wf_graph g).
Implicit Types u v : Coordinate.

Lemma entry_sym u v w : entry g u v w → entry g v u w.
Proof.
  intros (l & Hl & Hin). destruct (wf_entry g Hwf u l v w Hl Hin) as (_ & _ & H).
  exact H.
Qed.

Lemma entry_pos u v w : entry g u v w → 0 < w.
Proof.
  intros (l & Hl & Hin). by destruct (wf_entry g Hwf u l v w Hl Hin).
Qed.

Lemma entry_adjacent u v w : entry g u v w → isAdjacent u v = true.
Proof.
  intros (l & Hl & Hin). by destruct (wf_entry g Hwf u l v w Hl Hin) as (_ & ? & _).
Qed.

Lemma entry_vertex_l u v w : entry g u v w → u ∈ vertices g.
Proof. intros (l & Hl & _). apply (wf_dom g Hwf). by exists l. Qed.

Lemma entry_vertex_r u v w : entry g u v w → v ∈ vertices g.
Proof. intros H. eapply entry_vertex_l, entry_sym, H. Qed.

Lemma entry_functional u v w w' : entry g u v w → entry g u v w' → w = w'.
Proof.
  intros (l & Hl & Hin) (l' & Hl' & Hin'). simplify_eq.
  pose proof (wf_keys g Hwf u l Hl) as Hnd.
  pose proof (find_edge_nodup l v w Hnd Hin) as E1.
  pose proof (find_edge_nodup l v w' Hnd Hin') as E2.
  congruence.
Qed.

Lemma get_edge_entry u v w : entry g u v w → _get_edge g u v = Some (v, w).
Proof.
  intros (l & Hl & Hin). unfold _get_edge. rewrite Hl.
  apply find_edge_nodup; [by eapply wf_keys|done].
Qed.

Lemma hasEdge_entry u v : hasEdge g u v = true ↔ ∃ w, entry g u v w.
Proof.
  unfold hasEdge. split.
  - destruct (_get_edge g u v) as [e|] eqn:He; [|done]. intros _.
    unfold _get_edge in He. destruct (adj_list g !! u) as [l|] eqn:Hl; [|done].
    apply find_edge_Some in He as [Hin <-]. exists e.2, l. by destruct e.
  - intros [w Hw]. rewrite (get_edge_entry _ _ _ Hw). simpl.
    apply Z.ltb_lt. by eapply entry_pos.
Qed.

Lemma getWeight_entry u v w : entry g u v w → getWeight g u v = w.
Proof.
  intros Hw. unfold getWeight. rewrite (get_edge_entry _ _ _ Hw). simpl.
  apply entry_pos, Z.ltb_lt in Hw. by rewrite Hw.
Qed.

Lemma hasEdge_getWeight_entry u v :
  hasEdge g u v = true → entry g u v (getWeight g u v).
Proof.
  intros [w Hw]%hasEdge_entry. by rewrite (getWeight_entry _ _ _ Hw).
Qed.

Lemma hasEdge_sym u v : hasEdge g u v = hasEdge g v u.
Proof.
  apply eq_true_iff_eq. rewrite !hasEdge_entry.
  split; intros [w Hw]; exists w; by apply entry_sym.
Qed.

Lemma getWeight_sym u v : getWeight g u v = getWeight g v u.
Proof.
  destruct (hasEdge g u v) eqn:He.
  - apply hasEdge_entry in He as [w Hw].
    rewrite (getWeight_entry _ _ _ Hw).
    by rewrite (getWeight_entry _ _ _ (entry_sym _ _ _ Hw)).
  - assert (hasEdge g v u = false) as He' by (by rewrite hasEdge_sym).
    unfold hasEdge, getWeight in *.
    destruct (_get_edge g u v) as [e|], (_get_edge g v u) as [e'|];
      try rewrite He; try rewrite He'; done.
Qed.

Lemma neighbours_entry u v : v ∈ neighbours g u ↔ ∃ w, entry g u v w.
Proof.
  unfold neighbours. split.
  - destruct (adj_list g !! u) as [l|] eqn:Hl; [|by intros ?%elem_of_nil].
    intros ([v' w] & -> & Hin%list_elem_of_In%filter_In)%list_elem_of_fmap.
    destruct Hin as [Hin _]. exists w, l. split; [done|].
    by apply list_elem_of_In.
  - intros (w & l & Hl & Hin). rewrite Hl.
    apply list_elem_of_fmap. exists (v, w). split; [done|].
    apply list_elem_of_In, filter_In. split; [by apply list_elem_of_In|].
    simpl. apply Z.ltb_lt. eapply entry_pos. by exists l.
Qed.

Lemma neighbours_hasEdge u v : v ∈ neighbours g u ↔ hasEdge g u v = true.
Proof. by rewrite neighbours_entry, hasEdge_entry. Qed.

Lemma hasEdge_vertices u v :
  hasEdge g u v = true → u ∈ vertices g ∧ v ∈ vertices g.
Proof.
  intros [w Hw]%hasEdge_entry.
  split; [by eapply entry_vertex_l | by eapply entry_vertex_r].
Qed.

Lemma hasEdge_ne u v : hasEdge g u v = true → u ≠ v.
Proof.
  intros [w Hw]%hasEdge_entry. by eapply isAdjacent_ne, entry_adjacent.
Qed.

End queries.

(** ** The operations preserve the representation invariant *)

Lemma wf_init r c : wf_graph (__init__ r c).
Proof.
  split; simpl.
  - constructor.
  - intros u. rewrite lookup_empty. split; [by intros ?%elem_of_nil|].
    by intros [? ?].
  - intros u l v w Hl. by rewrite lookup_empty in Hl.
  - intros u l Hl. by rewrite lookup_empty in Hl.
Qed.

Lemma wf_addVertex g label : wf_graph g → wf_graph (addVertex g label).
Proof.
  intros Hwf. unfold addVertex.
  destruct (adj_list g !! label) as [l0|] eqn:Hlabel; [done|].
  assert (label ∉ vertices g) as Hfresh.
  { intros [? ?]%(wf_dom g Hwf). congruence. }
  split; simpl.
  - apply NoDup_app. split; [apply Hwf|]. split; [|apply NoDup_singleton].
    intros x Hx ->%list_elem_of_singleton. done.
  - intros u. rewrite elem_of_app, list_elem_of_singleton, lookup_insert_is_Some.
    rewrite (wf_dom g Hwf).
    destruct (decide (label = u)); intuition congruence.
  - intros u l v w Hl Hin. apply lookup_insert_Some in Hl as [[<- <-]|[Hne Hl]].
    + by apply elem_of_nil in Hin.
    + destruct (wf_entry g Hwf u l v w Hl Hin) as (Hw & Hadj & l' & Hl' & Hin').
      split; [done|]. split; [done|]. exists l'. split; [|done].
      rewrite lookup_insert_ne; [done|]. congruence.
  - intros u l Hl. apply lookup_insert_Some in Hl as [[<- <-]|[Hne Hl]].
    + constructor.
    + by eapply wf_keys.
Qed.

Lemma wf_addVertices g vertLabels :
  wf_graph g → wf_graph (addVertices g vertLabels).
Proof.
  unfold addVertices. revert g.
  induction vertLabels as [|x xs IH]; intros g Hwf; simpl; [done|].
  by apply IH, wf_addVertex.
Qed.

(** Replacing the adjacency lists of two distinct existing vertices [u] and
    [v]: the invariant survives when only the entries between [u] and [v]
    change and they stay mirrored. *)
Lemma wf_modify2 g u v lu lv lu' lv' adj' :
  wf_graph g → isAdjacent u v = true →
  adj_list g !! u = Some lu → adj_list g !! v = Some lv →
  (∀ x, adj' !! x = if decide (x = u) then Some lu'
                    else if decide (x = v) then Some lv' else adj_list g !! x) →
  (∀ y w, y ≠ v → (y, w) ∈ lu' ↔ (y, w) ∈ lu) →
  (∀ y w, y ≠ u → (y, w) ∈ lv' ↔ (y, w) ∈ lv) →
  (∀ w, (v, w) ∈ lu' ↔ (u, w) ∈ lv') →
  (∀ w, (v, w) ∈ lu' → 0 < w) →
  NoDup lu'.*1 → NoDup lv'.*1 →
  wf_graph (set_adj_list g adj').
Proof.
  intros Hwf Hadj Hu Hv Hadj' Hlu Hlv Hmirror Hpos Hndu Hndv.
  pose proof (isAdjacent_ne _ _ Hadj) as Hne.
  split; simpl.
  - apply Hwf.
  - intros x. rewrite (wf_dom g Hwf), Hadj'.
    destruct (decide (x = u)) as [->|]; [rewrite Hu; split; eauto|].
    destruct (decide (x = v)) as [->|]; [rewrite Hv; split; eauto|]. done.
  - intros x l y w Hl Hin. rewrite Hadj' in Hl.
    destruct (decide (x = u)) as [->|Hxu]; [|destruct (decide (x = v)) as [->|Hxv]].
    + injection Hl as <-. destruct (decide (y = v)) as [->|Hyv].
      * split; [by apply Hpos|]. split; [done|]. exists lv'.
        rewrite Hadj'. rewrite decide_False by done. rewrite decide_True by done.
        split; [done|]. by apply Hmirror.
      * apply Hlu in Hin; [|done].
        destruct (wf_entry g Hwf u lu y w Hu Hin) as (Hw & Ha & l' & Hl' & Hin').
        split; [done|]. split; [done|].
        assert (y ≠ u) as Hyu by (intros ->; by apply isAdjacent_ne in Ha).
        exists l'. rewrite Hadj', !decide_False by done. done.
    + injection Hl as <-. destruct (decide (y = u)) as [->|Hyu].
      * apply Hmirror in Hin. split; [by apply Hpos|].
        split; [by rewrite isAdjacent_sym|]. exists lu'.
        rewrite Hadj', decide_True by done. done.
      * apply Hlv in Hin; [|done].
        destruct (wf_entry g Hwf v lv y w Hv Hin) as (Hw & Ha & l' & Hl' & Hin').
        split; [done|]. split; [done|].
        assert (y ≠ v) as Hyv by (intros ->; by apply isAdjacent_ne in Ha).
        exists l'. rewrite Hadj', !decide_False by done. done.
    + destruct (wf_entry g Hwf x l y w Hl Hin) as (Hw & Ha & l' & Hl' & Hin').
      split; [done|]. split; [done|]. rewrite Hadj'.
      destruct (decide (y = u)) as [->|Hyu]; [|destruct (decide (y = v)) as [->|Hyv]].
      * exists lu'. split; [done|]. simplify_eq. by apply Hlu.
      * exists lv'. split; [done|]. simplify_eq. by apply Hlv.
      * by exists l'.
  - intros x l Hl. rewrite Hadj' in Hl.
    repeat case_decide; simplify_eq; try done. by eapply wf_keys.
Qed.

(** *** Adding an undirected edge *)

Lemma add_undirected_lookup g u v w lu lv x :
  u ≠ v → adj_list g !! u = Some lu → adj_list g !! v = Some lv →
  adj_list (add_undirected g u v w) !! x =
    if decide (x = u) then Some (lu ++ [(v, w)])
    else if decide (x = v) then Some (lv ++ [(u, w)]) else adj_list g !! x.
Proof.
  intros Hne Hu Hv. unfold add_undirected, append_entry. simpl.
  destruct (decide (x = u)) as [->|Hxu].
  - rewrite lookup_alter_ne by done. by rewrite lookup_alter_eq, Hu.
  - destruct (decide (x = v)) as [->|Hxv].
    + rewrite lookup_alter_eq, lookup_alter_ne by done. by rewrite Hv.
    + by rewrite !lookup_alter_ne by done.
Qed.

Lemma get_edge_None_keys g u v lu :
  adj_list g !! u = Some lu → _get_edge g u v = None → v ∉ lu.*1.
Proof. unfold _get_edge. intros ->. apply find_edge_None. Qed.

Lemma wf_add_undirected g u v w :
  wf_graph g → is_Some (adj_list g !! u) → is_Some (adj_list g !! v) →
  isAdjacent u v = true → 0 < w → _get_edge g u v = None →
  wf_graph (add_undirected g u v w).
Proof.
  intros Hwf [lu Hu] [lv Hv] Hadj Hw Hnone.
  pose proof (isAdjacent_ne _ _ Hadj) as Hne.
  pose proof (get_edge_None_keys g u v lu Hu Hnone) as Hvlu.
  assert (u ∉ lv.*1) as Hulv.
  { intros ([u' w'] & -> & Hin)%list_elem_of_fmap. simpl in *.
    destruct (wf_entry g Hwf v lv u' w' Hv Hin) as (_ & _ & l' & Hl' & Hin').
    simplify_eq. apply Hvlu. by apply (list_elem_of_fmap_2 fst) in Hin'. }
  assert (∀ w', (v, w') ∉ lu) as Hvlu'.
  { intros w' Hin. apply Hvlu. by apply (list_elem_of_fmap_2 fst) in Hin. }
  assert (∀ w', (u, w') ∉ lv) as Hulv'.
  { intros w' Hin. apply Hulv. by apply (list_elem_of_fmap_2 fst) in Hin. }
  apply (wf_modify2 g u v lu lv (lu ++ [(v, w)]) (lv ++ [(u, w)])); try done.
  - intros x. by apply add_undirected_lookup.
  - intros y w' Hy. rewrite elem_of_app, list_elem_of_singleton.
    split; [intros [?|?]; [done|congruence] | tauto].
  - intros y w' Hy. rewrite elem_of_app, list_elem_of_singleton.
    split; [intros [?|?]; [done|congruence] | tauto].
  - intros w'. rewrite !elem_of_app, !list_elem_of_singleton.
    split; (intros [Hin|Heq]; [by (apply Hvlu' in Hin || apply Hulv' in Hin)|]);
      right; congruence.
  - intros w'. rewrite elem_of_app, list_elem_of_singleton.
    intros [Hin|Heq]; [by apply Hvlu' in Hin | congruence].
  - rewrite fmap_app. apply NoDup_app. split; [by eapply wf_keys|].
    split; [|apply NoDup_singleton].
    intros x Hx ->%list_elem_of_singleton. done.
  - rewrite fmap_app. apply NoDup_app. split; [by eapply wf_keys|].
    split; [|apply NoDup_singleton].
    intros x Hx ->%list_elem_of_singleton. done.
Qed.

Lemma addEdge_unfold g u v w :
  addEdge g u v w =
    if hasVertex g u && hasVertex g v && isAdjacent u v && (0 <? w)
       && bool_decide (_get_edge g u v = None)
    then (true, add_undirected g u v w) else (false, g).
Proof.
  unfold addEdge, hasVertex. rewrite Z.leb_antisym.
  destruct (adj_list g !! u) as [lu|], (adj_list g !! v) as [lv|],
    (isAdjacent u v), (0 <? w);
    repeat case_bool_decide; simpl; try done; exfalso;
    repeat match goal with
    | H : _ ∨ _ |- _ => destruct H
    | H : ¬ is_Some (Some _) |- _ => apply H; eauto
    | H : ¬ (_ ∨ _) |- _ => apply H; eauto
    | H : ¬ (_ ≠ _) |- _ => apply H; congruence
    | H : is_Some None |- _ => destruct H
    end; congruence.
Qed.

Lemma wf_addEdge g u v w : wf_graph g → wf_graph (addEdge g u v w).2.
Proof.
  intros Hwf. rewrite addEdge_unfold.
  destruct (hasVertex g u) eqn:Hu; [|done].
  destruct (hasVertex g v) eqn:Hv; [|done].
  destruct (isAdjacent u v) eqn:Ha; [|done].
  destruct (0 <? w) eqn:Hw; [|done].
  case_bool_decide as He; [|done]. simpl.
  apply bool_decide_eq_true in Hu, Hv. apply Z.ltb_lt in Hw.
  by apply wf_add_undirected.
Qed.

(** *** Removing an edge (adding a wall) *)

Lemma elem_of_List_filter {A} (f : A → bool) (l : list A) x :
  x ∈ List.filter f l ↔ x ∈ l ∧ f x = true.
Proof. by rewrite !list_elem_of_In, filter_In. Qed.

Lemma NoDup_filter_keys (f : Coordinate * Z → bool) (l : list (Coordinate * Z)) :
  NoDup l.*1 → NoDup (List.filter f l).*1.
Proof.
  induction l as [|e l IH]; simpl; [done|].
  intros [Hne Hnd]%NoDup_cons. destruct (f e); simpl; [|by apply IH].
  apply NoDup_cons. split; [|by apply IH].
  intros (e' & He' & [Hin _]%elem_of_List_filter)%list_elem_of_fmap.
  apply Hne. rewrite He'. by apply (list_elem_of_fmap_2 fst) in Hin.
Qed.

Lemma elem_of_without v l y w :
  (y, w) ∈ without v l ↔ (y, w) ∈ l ∧ y ≠ v.
Proof.
  unfold without. rewrite elem_of_List_filter. unfold is_edge_to. simpl.
  rewrite negb_true_iff, bool_decide_eq_false. done.
Qed.

Lemma remove_both_eq g u v lu lv :
  u ≠ v → adj_list g !! u = Some lu → adj_list g !! v = Some lv →
  (_remove_edge_from_list (_remove_edge_from_list g u v).2 v u).2 =
    set_adj_list g (<[v := without u lv]> (<[u := without v lu]> (adj_list g))).
Proof.
  intros Hne Hu Hv. unfold _remove_edge_from_list at 2. rewrite Hu. simpl.
  unfold _remove_edge_from_list. simpl.
  rewrite lookup_insert_ne by done. rewrite Hv. done.
Qed.

Lemma wf_remove_both g u v :
  wf_graph g → is_Some (adj_list g !! u) → is_Some (adj_list g !! v) →
  isAdjacent u v = true →
  wf_graph (_remove_edge_from_list (_remove_edge_from_list g u v).2 v u).2.
Proof.
  intros Hwf [lu Hu] [lv Hv] Hadj.
  pose proof (isAdjacent_ne _ _ Hadj) as Hne.
  rewrite (remove_both_eq g u v lu lv) by done.
  apply (wf_modify2 g u v lu lv (without v lu) (without u lv)); try done.
  - intros x. rewrite lookup_insert. case_decide as Hxv.
    + subst x. rewrite decide_False by congruence. by rewrite decide_True.
    + rewrite lookup_insert. case_decide as Hxu.
      * subst x. by rewrite decide_True.
      * by rewrite !decide_False by congruence.
  - intros y w Hy. rewrite elem_of_without. tauto.
  - intros y w Hy. rewrite elem_of_without. tauto.
  - intros w. rewrite !elem_of_without. tauto.
  - intros w. rewrite elem_of_without. tauto.
  - apply NoDup_filter_keys. by eapply wf_keys.
  - apply NoDup_filter_keys. by eapply wf_keys.
Qed.

(** *** Updating the weight of an edge *)

Lemma update_first_None v w l : update_first v w l = None ↔ v ∉ l.*1.
Proof.
  induction l as [|e l IH]; simpl.
  - split; [intros _; apply not_elem_of_nil | done].
  - unfold is_edge_to at 1. case_bool_decide as He.
    + split; [done|]. intros Hn. exfalso. apply Hn. rewrite He. left.
    + rewrite fmap_None, IH, not_elem_of_cons. intuition congruence.
Qed.

Lemma update_first_keys v w l l' : update_first v w l = Some l' → l'.*1 = l.*1.
Proof.
  revert l'. induction l as [|e l IH]; intros l'; simpl; [done|].
  unfold is_edge_to at 1. case_bool_decide as He.
  - by intros [= <-].
  - intros (l0 & Hl0 & ->)%fmap_Some. simpl. f_equal. by apply IH.
Qed.

Lemma update_first_elem v w l l' y z :
  NoDup l.*1 → update_first v w l = Some l' →
  (y, z) ∈ l' ↔ ((y, z) ∈ l ∧ y ≠ v) ∨ (y = v ∧ z = w).
Proof.
  revert l'. induction l as [|e l IH]; intros l'; simpl; [done|].
  intros [Hne Hnd]%NoDup_cons.
  unfold is_edge_to at 1. case_bool_decide as He.
  - intros [= <-]. rewrite !elem_of_cons. destruct e as [e1 e2]. simpl in *.
    subst e1. split.
    + intros [[= -> ->]|Hin]; [by right|]. left. split; [by right|].
      intros ->. apply Hne. by apply (list_elem_of_fmap_2 fst) in Hin.
    + intros [[[[= -> ->]|Hin] Hy]|[-> ->]]; [done|by right|by left].
  - intros (l0 & Hl0 & ->)%fmap_Some. rewrite !elem_of_cons.
    rewrite (IH l0 Hnd Hl0). destruct e as [e1 e2]. simpl in *.
    split.
    + intros [[= -> ->]|[[Hin Hy]|[-> ->]]]; [left; split; [by left|done]| |by right].
      left. split; [by right|done].
    + intros [[[[= -> ->]|Hin] Hy]|[-> ->]]; [by left| |by right; right].
      right. by left.
Qed.

Lemma update_both_eq g u v w lu lv lu' lv' :
  u ≠ v → adj_list g !! u = Some lu → adj_list g !! v = Some lv →
  update_first v w lu = Some lu' → update_first u w lv = Some lv' →
  (let '(updated_1, g1) := _update_edge_in_list g u v w in
   let '(updated_2, g2) := _update_edge_in_list g1 v u w in
   (updated_1 && updated_2, g2)) =
  (true, set_adj_list g (<[v := lv']> (<[u := lu']> (adj_list g)))).
Proof.
  intros Hne Hu Hv Hlu Hlv. unfold _update_edge_in_list at 1. rewrite Hu, Hlu.
  unfold _update_edge_in_list. simpl.
  rewrite lookup_insert_ne by done. rewrite Hv, Hlv. done.
Qed.

Lemma wf_update_both g u v w lu lv lu' lv' :
  wf_graph g → isAdjacent u v = true → 0 < w →
  adj_list g !! u = Some lu → adj_list g !! v = Some lv →
  update_first v w lu = Some lu' → update_first u w lv = Some lv' →
  wf_graph (set_adj_list g (<[v := lv']> (<[u := lu']> (adj_list g)))).
Proof.
  intros Hwf Hadj Hw Hu Hv Hlu Hlv.
  pose proof (isAdjacent_ne _ _ Hadj) as Hne.
  pose proof (wf_keys g Hwf u lu Hu) as Hndu.
  pose proof (wf_keys g Hwf v lv Hv) as Hndv.
  apply (wf_modify2 g u v lu lv lu' lv'); try done.
  - intros x. rewrite lookup_insert. case_decide as Hxv.
    + subst x. rewrite decide_False by congruence. by rewrite decide_True.
    + rewrite lookup_insert. case_decide as Hxu.
      * subst x. by rewrite decide_True.
      * by rewrite !decide_False by congruence.
  - intros y z Hy. rewrite (update_first_elem v w lu lu') by done. tauto.
  - intros y z Hy. rewrite (update_first_elem u w lv lv') by done. tauto.
  - intros z. rewrite (update_first_elem v w lu lu') by done.
    rewrite (update_first_elem u w lv lv') by done. tauto.
  - intros z. rewrite (update_first_elem v w lu lu') by done.
    intros [[_ ?]|[_ ->]]; done.
  - by rewrite (update_first_keys _ _ _ _ Hlu).
  - by rewrite (update_first_keys _ _ _ _ Hlv).
Qed.

(** *** Wall updates and reachable states *)

Lemma updateWall_guard g u v :
  bool_decide (adj_list g !! u = None ∨ adj_list g !! v = None)
    || negb (isAdjacent u v) = false →
  is_Some (adj_list g !! u) ∧ is_Some (adj_list g !! v) ∧
  isAdjacent u v = true.
Proof.
  intros [Hd Ha]%orb_false_elim. apply negb_false_iff in Ha.
  apply bool_decide_eq_false in Hd.
  destruct (adj_list g !! u), (adj_list g !! v); eauto; exfalso; apply Hd; eauto.
Qed.

Lemma wf_updateWall g u v hasWall w :
  wf_graph g → wf_graph (updateWall g u v hasWall w).2.
Proof.
  intros Hwf. unfold updateWall.
  destruct (bool_decide _ || negb _) eqn:Hguard; [done|].
  apply updateWall_guard in Hguard as (Hu & Hv & Hadj).
  destruct hasWall; [by apply wf_remove_both|].
  destruct (Z.leb_spec w 0) as [|Hw]; [done|].
  case_bool_decide as He; [|by apply wf_add_undirected].
  destruct Hu as [lu Hu], Hv as [lv Hv].
  pose proof (isAdjacent_ne _ _ Hadj) as Hne.
  destruct (_get_edge g u v) as [e|] eqn:Hget; [|done].
  unfold _get_edge in Hget. rewrite Hu in Hget.
  apply find_edge_Some in Hget as [Hin Hev]. destruct e as [v' z]. simpl in *.
  subst v'.
  destruct (wf_entry g Hwf u lu v z Hu Hin) as (_ & _ & lv0 & Hlv0 & Hin').
  simplify_eq.
  destruct (update_first v w lu) as [lu'|] eqn:Hlu.
  2:{ apply update_first_None in Hlu. exfalso. apply Hlu.
      by apply (list_elem_of_fmap_2 fst) in Hin. }
  destruct (update_first u w lv) as [lv'|] eqn:Hlv.
  2:{ apply update_first_None in Hlv. exfalso. apply Hlv.
      by apply (list_elem_of_fmap_2 fst) in Hin'. }
  rewrite (update_both_eq g u v w lu lv lu' lv') by done. simpl.
  by eapply wf_update_both.
Qed.

Lemma wf_apply_op g o : wf_graph g → wf_graph (apply_op g o).
Proof.
  intros Hwf. destruct o; simpl.
  - by apply wf_addVertex.
  - by apply wf_addVertices.
  - by apply wf_addEdge.
  - by apply wf_updateWall.
  - by apply wf_updateWall.
Qed.

Lemma wf_reachable g : reachable g → wf_graph g.
Proof.
  intros (r & c & ops & ->). generalize (wf_init r c).
  generalize (__init__ r c). induction ops as [|o ops IH]; intros g Hwf; simpl.
  - done.
  - by apply IH, wf_apply_op.
Qed.

(** ** Claims about the graph operations *)

(** C4. [addEdge u v w] succeeds exactly when both endpoints are vertices,
    they are adjacent, [w > 0] and no entry from [u] to [v] is stored; then it
    returns true and appends [(v, w)] to the list of [u] and [(u, w)] to the
    list of [v], touching nothing else; otherwise it returns false and the
    state is the one it was given.  In a well-formed graph "no entry from [u]
    to [v]" says the same as [hasEdge] being false in both directions. *)
Theorem addEdge_gate_and_effect (g : AdjacencyListGraph) (u v : Coordinate)
    (w : Z) :
  let ok := hasVertex g u && hasVertex g v && isAdjacent u v && (0 <? w)
            && bool_decide (_get_edge g u v = None) in
  addEdge g u v w = (ok, (addEdge g u v w).2) ∧
  (wf_graph g →
     bool_decide (_get_edge g u v = None) = negb (hasEdge g u v || hasEdge g v u)) ∧
  (ok = false → (addEdge g u v w).2 = g) ∧
  (ok = true →
     ∃ lu lv g',
       (addEdge g u v w).2 = g' ∧ g' ≠ g ∧
       adj_list g !! u = Some lu ∧ adj_list g !! v = Some lv ∧
       adj_list g' !! u = Some (lu ++ [(v, w)]) ∧
       adj_list g' !! v = Some (lv ++ [(u, w)]) ∧
       (∀ x, x ≠ u → x ≠ v → adj_list g' !! x = adj_list g !! x) ∧
       vertices g' = vertices g ∧ rows g' = rows g ∧ cols g' = cols g).
Proof.
  intros ok. rewrite addEdge_unfold. fold ok.
  split; [by destruct ok|]. split.
  { intros Hwf. rewrite <- (hasEdge_sym g Hwf u v), orb_diag.
    destruct (hasEdge g u v) eqn:He; simpl.
    - apply hasEdge_entry in He as [z Hz]; [|done].
      rewrite (get_edge_entry g Hwf u v z Hz). by apply bool_decide_eq_false_2.
    - apply bool_decide_eq_true_2. unfold hasEdge in He.
      destruct (_get_edge g u v) as [e|] eqn:Hget; [exfalso|done].
      unfold _get_edge in Hget.
      destruct (adj_list g !! u) as [l|] eqn:Hl; [|done].
      apply find_edge_Some in Hget as [Hin _]. destruct e as [y z].
      pose proof (wf_entry g Hwf u l y z Hl Hin) as [Hz _].
      simpl in He. apply Z.ltb_ge in He. lia. }
  split; [by intros ->|].
  intros Hok. rewrite Hok. simpl. subst ok.
  repeat (apply andb_prop in Hok as [Hok ?]).
  apply bool_decide_eq_true in Hok as [lu Hu].
  match goal with H : hasVertex g v = true |- _ =>
    apply bool_decide_eq_true in H as [lv Hv] end.
  match goal with H : isAdjacent u v = true |- _ =>
    pose proof (isAdjacent_ne _ _ H) as Hne end.
  exists lu, lv, (add_undirected g u v w).
  pose proof (λ x, add_undirected_lookup g u v w lu lv x Hne Hu Hv) as Hlk.
  assert (adj_list (add_undirected g u v w) !! u = Some (lu ++ [(v, w)])) as Hu'.
  { by rewrite Hlk, decide_True. }
  split; [done|]. split.
  { intros Heq. rewrite Heq, Hu in Hu'. injection Hu' as Hu'.
    apply (f_equal length) in Hu'. rewrite length_app in Hu'. simpl in Hu'. lia. }
  split; [done|]. split; [done|]. split; [done|]. split.
  { rewrite Hlk, decide_False by congruence. by rewrite decide_True. }
  split; [|done].
  intros x Hxu Hxv. by rewrite Hlk, !decide_False.
Qed.

(** C6. In every state reached from an empty graph through [addVertex],
    [addVertices], [addEdge], [updateWall] and [removeEdge], [hasEdge] and
    [getWeight] are symmetric in their two arguments. *)
Theorem reachable_symmetric (g : AdjacencyListGraph) :
  reachable g →
  ∀ u v, hasEdge g u v = hasEdge g v u ∧ getWeight g u v = getWeight g v u.
Proof.
  intros Hwf%wf_reachable u v.
  split; [by apply hasEdge_sym | by apply getWeight_sym].
Qed.

Lemma without_idemp v l : without v (without v l) = without v l.
Proof.
  unfold without. induction l as [|e l IH]; simpl; [done|].
  destruct (negb (is_edge_to v e)) eqn:He; simpl; [|done].
  by rewrite He, IH.
Qed.

(** C7. For existing adjacent [u] and [v], [updateWall u v true] returns true
    whatever is stored between them, and a second call returns true again and
    leaves the state reached by the first. *)
Theorem updateWall_true_idempotent (g : AdjacencyListGraph)
    (u v : Coordinate) (w w' : Z) :
  hasVertex g u = true → hasVertex g v = true → isAdjacent u v = true →
  ∃ g1, updateWall g u v true w = (true, g1) ∧
        updateWall g1 u v true w' = (true, g1).
Proof.
  intros [lu Hu]%bool_decide_eq_true [lv Hv]%bool_decide_eq_true Hadj.
  pose proof (isAdjacent_ne _ _ Hadj) as Hne.
  set (g1 := set_adj_list g
               (<[v := without u lv]> (<[u := without v lu]> (adj_list g)))).
  assert (adj_list g1 !! u = Some (without v lu)) as Hu1.
  { simpl. rewrite lookup_insert_ne by done. by rewrite lookup_insert_eq. }
  assert (adj_list g1 !! v = Some (without u lv)) as Hv1.
  { simpl. by rewrite lookup_insert_eq. }
  assert (∀ h lu0 lv0, adj_list h !! u = Some lu0 → adj_list h !! v = Some lv0 →
            ∀ z, updateWall h u v true z =
              (true, set_adj_list h (<[v := without u lv0]>
                                      (<[u := without v lu0]> (adj_list h)))))
    as Hcall.
  { intros h lu0 lv0 Hhu Hhv z. unfold updateWall.
    rewrite bool_decide_eq_false_2, Hadj; simpl.
    - by rewrite (remove_both_eq h u v lu0 lv0).
    - rewrite Hhu, Hhv. by intros [?|?]. }
  exists g1. split; [by apply Hcall|].
  rewrite (Hcall g1 _ _ Hu1 Hv1). f_equal.
  rewrite !without_idemp. unfold g1, set_adj_list. simpl. f_equal.
  apply map_eq. intros x. rewrite !lookup_insert.
  repeat case_decide; done.
Qed.

Lemma square_graph_reachable : reachable square_graph.
Proof.
  exists 2, 2,
    [OpAddVertices [c00; c01; c10; c11]; OpAddEdge c00 c01 1;
     OpAddEdge c00 c10 4; OpAddEdge c01 c11 2; OpAddEdge c10 c11 1].
  vm_compute. reflexivity.
Qed.

Lemma reachable_symmetric_witness :
  reachable square_graph ∧
  ∀ u v, hasEdge square_graph u v = hasEdge square_graph v u ∧
         getWeight square_graph u v = getWeight square_graph v u.
Proof.
  split; [exact square_graph_reachable|].
  apply (reachable_symmetric square_graph). exact square_graph_reachable.
Defined.

Lemma updateWall_true_idempotent_witness :
  hasVertex square_graph c10 = true ∧ hasVertex square_graph c11 = true ∧
  isAdjacent c10 c11 = true ∧
  ∃ g1, updateWall square_graph c10 c11 true 1 = (true, g1) ∧
        updateWall g1 c10 c11 true 1 = (true, g1).
Proof.
  split; [vm_compute; reflexivity|]. split; [vm_compute; reflexivity|].
  split; [vm_compute; reflexivity|].
  apply (updateWall_true_idempotent square_graph c10 c11 1 1);
    vm_compute; reflexivity.
Defined.

(** * Properties of the union-find helpers *)

Section union_find.
Implicit Types P : gmap Coordinate Coordinate.
Implicit Types x y z r a b : Coordinate.
Implicit Types n m k fuel : nat.

Lemma reaches_root_is_root P x r n : reaches_root P x r n → P !! r = Some r.
Proof. induction 1; done. Qed.

Lemma reaches_root_key P x r n : reaches_root P x r n → is_Some (P !! x).
Proof. destruct 1; eauto. Qed.

Lemma reaches_root_functional P x r n r' n' :
  reaches_root P x r n → reaches_root P x r' n' → r = r' ∧ n = n'.
Proof.
  intros H. revert r' n'. induction H as [x Hx|x p r n Hx Hne H IH];
    intros r' n' H'; destruct H' as [x Hx'|x p' r' n' Hx' Hne' H']; simplify_eq.
  - done.
  - by destruct (IH _ _ H') as [-> ->].
Qed.

Lemma reaches_root_of_root P r x n :
  P !! r = Some r → reaches_root P r x n → x = r ∧ n = 0%nat.
Proof.
  intros Hr H. eapply reaches_root_functional; [exact H|]. by constructor.
Qed.

(** The naive walk computes [reaches_root]. *)
Lemma naive_find_reaches fuel x P r :
  naive_find fuel x P = Some r ↔ ∃ n, (n < fuel)%nat ∧ reaches_root P x r n.
Proof.
  revert x. induction fuel as [|fuel IH]; intros x; simpl.
  - split; [done|]. intros (n & ? & _). lia.
  - destruct (P !! x) as [p|] eqn:Hx; simpl.
    2:{ split; [done|]. intros (n & _ & [? ?]%reaches_root_key). congruence. }
    case_bool_decide as Hp.
    + rewrite IH. split.
      * intros (n & Hn & H). exists (S n). split; [lia|]. by econstructor.
      * intros (n & Hn & H). destruct H as [x Hx'|x p' r n Hx' Hne H];
          simplify_eq. exists n. split; [lia|done].
    + assert (p = x) as -> by (by destruct (decide (p = x)); [|exfalso; auto]).
      split.
      * intros [= <-]. exists 0%nat. split; [lia|]. by constructor.
      * intros (n & _ & H). f_equal. symmetry.
        by apply (reaches_root_of_root P x r n).
Qed.

Lemma chains_terminate_reaches P x :
  chains_terminate P → is_Some (P !! x) → ∃ r n, reaches_root P x r n.
Proof.
  intros HP Hx. destruct (HP x Hx) as (fuel & r & H).
  apply naive_find_reaches in H as (n & _ & H). eauto.
Qed.

Lemma depth_bounded_terminate P B : depth_bounded P B → chains_terminate P.
Proof.
  intros HB x Hx. destruct (HB x Hx) as (r & n & H & _).
  exists (S n), r. apply naive_find_reaches. exists n. split; [lia|done].
Qed.

Lemma depth_bounded_mono P B B' :
  (B ≤ B')%nat → depth_bounded P B → depth_bounded P B'.
Proof.
  intros HBB HB x Hx. destruct (HB x Hx) as (r & n & H & Hn).
  exists r, n. split; [done|lia].
Qed.

Lemma chains_terminate_bounded P : chains_terminate P → ∃ B, depth_bounded P B.
Proof.
  intros HP.
  assert (∀ l : list Coordinate, (∀ x, x ∈ l → is_Some (P !! x)) →
            ∃ B, ∀ x, x ∈ l → ∃ r n, reaches_root P x r n ∧ (n ≤ B)%nat) as Hl.
  { induction l as [|y l IH]; intros Hkeys.
    - exists 0%nat. by intros x ?%elem_of_nil.
    - destruct IH as [B HB]; [intros x Hx; apply Hkeys; by right|].
      destruct (chains_terminate_reaches P y HP) as (r & n & Hy);
        [apply Hkeys; by left|].
      exists (B `max` n)%nat. intros x [->|Hx]%elem_of_cons.
      + exists r, n. split; [done|lia].
      + destruct (HB x Hx) as (r' & n' & H' & Hn'). exists r', n'.
        split; [done|lia]. }
  destruct (Hl (elements (dom P))) as [B HB].
  { intros x Hx%elem_of_elements. by apply elem_of_dom. }
  exists B. intros x Hx. apply HB, elem_of_elements. by apply elem_of_dom.
Qed.

(** ** Path compression *)

Lemma compresses_refl P : compresses P P.
Proof. split; [done|]. intros z p Hz. by left. Qed.

Lemma compresses_root P P' r :
  compresses P P' → P !! r = Some r → P' !! r = Some r.
Proof.
  intros [Hkeys Hptr] Hr.
  destruct (proj2 (Hkeys r)) as [p Hp]; [eauto|]. rewrite Hp. f_equal.
  destruct (Hptr r p Hp) as [?|[n H]]; [congruence|].
  by destruct (reaches_root_of_root P r p n Hr H).
Qed.

Lemma compresses_reaches P P' y r n :
  compresses P P' → reaches_root P y r n →
  ∃ n', (n' ≤ n)%nat ∧ reaches_root P' y r n'.
Proof.
  intros HPP H. induction H as [y Hy|y p r n Hy Hne H IH].
  - exists 0%nat. split; [done|]. constructor. by eapply compresses_root.
  - destruct IH as (n' & Hn' & IH).
    destruct HPP as [Hkeys Hptr].
    destruct (proj2 (Hkeys y)) as [p' Hp']; [eauto|].
    destruct (Hptr y p' Hp') as [Hsame|[k Hk]].
    + simplify_eq. exists (S n'). split; [lia|]. by econstructor.
    + destruct (reaches_root_functional P y p' k r (S n) Hk) as [-> ->];
        [by econstructor|].
      pose proof (reaches_root_is_root _ _ _ _ H) as Hr.
      exists 1%nat. split; [lia|]. econstructor; [done| |].
      * intros ->. congruence.
      * constructor. by apply (compresses_root P); [split|].
Qed.

Lemma compresses_reaches_inv P P' y r n' :
  compresses P P' → reaches_root P' y r n' → ∃ n, reaches_root P y r n.
Proof.
  intros HPP H. induction H as [y Hy|y p r n' Hy Hne H IH].
  - destruct HPP as [Hkeys Hptr].
    destruct (Hptr y y Hy) as [Hsame|[k Hk]]; [|by eauto].
    exists 0%nat. by constructor.
  - destruct IH as [n IH]. destruct HPP as [Hkeys Hptr].
    destruct (Hptr y p Hy) as [Hsame|[k Hk]].
    + exists (S n). by econstructor.
    + pose proof (reaches_root_is_root _ _ _ _ Hk) as Hp.
      destruct (reaches_root_of_root P p r n Hp IH) as [-> _]. eauto.
Qed.

Lemma compresses_trans P1 P2 P3 :
  compresses P1 P2 → compresses P2 P3 → compresses P1 P3.
Proof.
  intros H12 H23. split.
  - intros z. rewrite (proj1 H23 z). apply (proj1 H12).
  - intros z p Hz. destruct (proj2 H23 z p Hz) as [Hsame|[n Hn]].
    + by apply (proj2 H12).
    + right. by eapply compresses_reaches_inv.
Qed.

Lemma compresses_insert P P1 x r n :
  compresses P P1 → reaches_root P x r n → compresses P (<[x := r]> P1).
Proof.
  intros [Hkeys Hptr] Hx. split.
  - intros z. rewrite lookup_insert_is_Some, Hkeys.
    destruct (decide (x = z)) as [<-|]; [|tauto].
    pose proof (reaches_root_key _ _ _ _ Hx). tauto.
  - intros z p [[<- <-]|[Hne Hz]]%lookup_insert_Some; [by eauto|].
    by apply Hptr.
Qed.

Lemma compresses_same_set P P' y z :
  compresses P P' → same_set P' y z ↔ same_set P y z.
Proof.
  intros HPP. unfold same_set. split.
  - intros (r & n & m & Hy & Hz).
    destruct (compresses_reaches_inv P P' y r n HPP Hy) as [n0 ?].
    destruct (compresses_reaches_inv P P' z r m HPP Hz) as [m0 ?]. eauto.
  - intros (r & n & m & Hy & Hz).
    destruct (compresses_reaches P P' y r n HPP Hy) as (n0 & _ & ?).
    destruct (compresses_reaches P P' z r m HPP Hz) as (m0 & _ & ?). eauto.
Qed.

Lemma compresses_depth_bounded P P' B :
  compresses P P' → depth_bounded P B → depth_bounded P' B.
Proof.
  intros HPP HB x Hx. apply (proj1 HPP) in Hx.
  destruct (HB x Hx) as (r & n & H & Hn).
  destruct (compresses_reaches P P' x r n HPP H) as (n' & Hn' & H').
  exists r, n'. split; [done|lia].
Qed.

(** ** [find] *)

Lemma find_spec P x r n fuel :
  reaches_root P x r n → (n < fuel)%nat →
  ∃ P', find fuel x P = Some (r, P') ∧ compresses P P'.
Proof.
  intros H. revert fuel. induction H as [x Hx|x p r n Hx Hne H IH];
    intros fuel Hfuel; (destruct fuel as [|fuel]; [lia|]); simpl.
  - rewrite Hx. simpl. rewrite bool_decide_eq_false_2 by (by intros ?).
    simpl. exists P. split; [done|apply compresses_refl].
  - rewrite Hx. simpl. rewrite bool_decide_eq_true_2 by done.
    destruct (IH fuel) as (P1 & -> & HP1); [lia|]. simpl.
    rewrite lookup_insert_eq. simpl. eexists. split; [done|].
    eapply compresses_insert; [done|]. by econstructor.
Qed.

Lemma find_inv fuel x P r P' :
  find fuel x P = Some (r, P') →
  (∃ n, (n < fuel)%nat ∧ reaches_root P x r n) ∧ compresses P P'.
Proof.
  revert x r P'. induction fuel as [|fuel IH]; intros x r P'; simpl; [done|].
  destruct (P !! x) as [p|] eqn:Hx; simpl; [|done].
  case_bool_decide as Hp.
  - destruct (find fuel p P) as [[r1 P1]|] eqn:Hfind; simpl; [|done].
    rewrite lookup_insert_eq. simpl. intros [= <- <-].
    destruct (IH _ _ _ Hfind) as [(n & Hn & H) HP1].
    assert (reaches_root P x r1 (S n)) as Hx' by (by econstructor).
    split; [exists (S n); split; [lia|done]|].
    by eapply compresses_insert.
  - assert (p = x) as -> by (by destruct (decide (p = x)); [|exfalso; auto]).
    simpl. intros [= <- <-]. split; [|apply compresses_refl].
    exists 0%nat. split; [lia|]. by constructor.
Qed.

(** ** [union] *)

Lemma same_set_roots P x y rx ry n m :
  reaches_root P x rx n → reaches_root P y ry m → same_set P x y ↔ rx = ry.
Proof.
  intros Hx Hy. split.
  - intros (r & n' & m' & Hx' & Hy').
    destruct (reaches_root_functional P x rx n r n' Hx Hx') as [-> _].
    by destruct (reaches_root_functional P y ry m r m' Hy Hy') as [-> _].
  - intros ->. by exists ry, n, m.
Qed.

(** Hanging the root [rb] under the root [ra]. *)
Lemma attach_reaches P ra rb y r n :
  P !! ra = Some ra → P !! rb = Some rb → ra ≠ rb →
  reaches_root P y r n →
  reaches_root (<[rb := ra]> P) y
    (if decide (r = rb) then ra else r) (if decide (r = rb) then S n else n).
Proof.
  intros Hra Hrb Hne H. induction H as [y Hy|y p r n Hy Hp H IH].
  - case_decide as Hyr.
    + subst y. econstructor; [apply lookup_insert_eq|done|].
      constructor. by rewrite lookup_insert_ne.
    + constructor. by rewrite lookup_insert_ne.
  - assert (y ≠ rb) as Hyb by (intros ->; congruence).
    assert (<[rb := ra]> P !! y = Some p) as Hy' by (by rewrite lookup_insert_ne).
    case_decide; by econstructor.
Qed.

Lemma attach_same_set P ra rb a b n m x y :
  P !! ra = Some ra → P !! rb = Some rb → ra ≠ rb →
  reaches_root P a ra n → reaches_root P b rb m →
  (∃ r k, reaches_root P x r k) → (∃ r k, reaches_root P y r k) →
  same_set (<[rb := ra]> P) x y ↔
    same_set P x y ∨ (same_set P x a ∧ same_set P b y)
                   ∨ (same_set P x b ∧ same_set P a y).
Proof.
  intros Hra Hrb Hne Ha Hb (rx & kx & Hx) (ry & ky & Hy).
  pose proof (attach_reaches P ra rb x rx kx Hra Hrb Hne Hx) as Hx'.
  pose proof (attach_reaches P ra rb y ry ky Hra Hrb Hne Hy) as Hy'.
  rewrite (same_set_roots _ x y _ _ _ _ Hx' Hy').
  rewrite (same_set_roots _ x y _ _ _ _ Hx Hy).
  rewrite (same_set_roots _ x a _ _ _ _ Hx Ha).
  rewrite (same_set_roots _ x b _ _ _ _ Hx Hb).
  rewrite (same_set_roots _ b y _ _ _ _ Hb Hy).
  rewrite (same_set_roots _ a y _ _ _ _ Ha Hy).
  repeat case_decide; subst; intuition congruence.
Qed.

Lemma attach_depth_bounded P ra rb B :
  P !! ra = Some ra → P !! rb = Some rb → ra ≠ rb →
  depth_bounded P B → depth_bounded (<[rb := ra]> P) (S B).
Proof.
  intros Hra Hrb Hne HB x Hx.
  assert (is_Some (P !! x)) as Hx0.
  { apply lookup_insert_is_Some in Hx as [<-|[_ ?]]; eauto. }
  destruct (HB x Hx0) as (r & n & H & Hn).
  pose proof (attach_reaches P ra rb x r n Hra Hrb Hne H) as H'.
  eexists _, _. split; [exact H'|]. case_decide; lia.
Qed.

(** What one [union] does, in terms of the sets before the call. *)
Lemma union_spec P a b B fuel :
  depth_bounded P B → (B < fuel)%nat →
  is_Some (P !! a) → is_Some (P !! b) →
  ∃ ra rb P2,
    (∃ n, reaches_root P a ra n) ∧ (∃ m, reaches_root P b rb m) ∧
    compresses P P2 ∧
    union fuel a b P =
      Some (bool_decide (ra ≠ rb),
            if bool_decide (ra ≠ rb) then <[rb := ra]> P2 else P2).
Proof.
  intros HB Hfuel Ha Hb.
  destruct (HB a Ha) as (ra & n & Hra & Hn).
  destruct (HB b Hb) as (rb & m & Hrb & Hm).
  destruct (find_spec P a ra n fuel Hra) as (P1 & Hf1 & HP1); [lia|].
  destruct (compresses_reaches P P1 b rb m HP1 Hrb) as (m' & Hm' & Hrb1).
  destruct (find_spec P1 b rb m' fuel Hrb1) as (P2 & Hf2 & HP2); [lia|].
  exists ra, rb, P2. split; [eauto|]. split; [eauto|].
  split; [by eapply compresses_trans|].
  unfold union. rewrite Hf1. simpl. rewrite Hf2. simpl.
  by case_bool_decide.
Qed.

End union_find.

(** ** Claims about [find] and [union] *)

(** C3, as the code has it. With [ra] and [rb] the roots of [a] and [b]:
    both [find] calls return them and leave a mapping [P2] that differs from
    the given one by path compression only (same keys, each pointer either
    the old one or the old root of its vertex, so every vertex stays in its
    set); when [ra = rb], [union] returns false with [P2]; when they differ,
    it returns true with [rb], a root of [P2], re-parented to [ra]. *)
Theorem union_effect (P : gmap Coordinate Coordinate) (a b ra rb : Coordinate)
    (n m fuel : nat) :
  reaches_root P a ra n → reaches_root P b rb m →
  (n < fuel)%nat → (m < fuel)%nat →
  ∃ P1 P2,
    find fuel a P = Some (ra, P1) ∧ find fuel b P1 = Some (rb, P2) ∧
    compresses P P2 ∧
    (∀ y z, same_set P2 y z ↔ same_set P y z) ∧
    (ra = rb → union fuel a b P = Some (false, P2)) ∧
    (ra ≠ rb →
       union fuel a b P = Some (true, <[rb := ra]> P2) ∧
       P2 !! rb = Some rb ∧ P2 !! ra = Some ra).
Proof.
  intros Hra Hrb Hn Hm.
  destruct (find_spec P a ra n fuel Hra Hn) as (P1 & Hf1 & HP1).
  destruct (compresses_reaches P P1 b rb m HP1 Hrb) as (m' & Hm' & Hrb1).
  destruct (find_spec P1 b rb m' fuel Hrb1) as (P2 & Hf2 & HP2); [lia|].
  pose proof (compresses_trans _ _ _ HP1 HP2) as HP.
  exists P1, P2. split; [done|]. split; [done|]. split; [done|].
  split; [intros y z; by apply compresses_same_set|].
  unfold union. rewrite Hf1. simpl. rewrite Hf2. simpl. split.
  - intros ->. by rewrite bool_decide_eq_false_2 by (by intros ?).
  - intros Hne. rewrite bool_decide_eq_true_2 by done. split; [done|].
    split; (eapply compresses_root; [exact HP|]);
      by eapply reaches_root_is_root.
Qed.

Lemma union_effect_witness :
  reaches_root chain_parent c00 c11 2 ∧ reaches_root chain_parent c11 c11 0 ∧
  ∃ P1 P2,
    find 3 c00 chain_parent = Some (c11, P1) ∧ find 3 c11 P1 = Some (c11, P2) ∧
    compresses chain_parent P2 ∧
    (∀ y z, same_set P2 y z ↔ same_set chain_parent y z) ∧
    (c11 = c11 → union 3 c00 c11 chain_parent = Some (false, P2)) ∧
    (c11 ≠ c11 →
       union 3 c00 c11 chain_parent = Some (true, <[c11 := c11]> P2) ∧
       P2 !! c11 = Some c11 ∧ P2 !! c11 = Some c11).
Proof.
  assert (reaches_root chain_parent c11 c11 0) as H0.
  { constructor. vm_compute. reflexivity. }
  assert (reaches_root chain_parent c00 c11 2) as H2.
  { apply (reaches_step _ c00 c01); [vm_compute; reflexivity|done|].
    apply (reaches_step _ c01 c11); [vm_compute; reflexivity|done|]. exact H0. }
  split; [exact H2|]. split; [exact H0|].
  apply (union_effect chain_parent c00 c11 c11 c11 2 0 3 H2 H0); lia.
Defined.

(** C3, as stated, fails: on the chain (0,0) -> (0,1) -> (1,1) the roots of
    (0,0) and (1,1) are equal, [union] returns false, and the mapping it
    leaves is not the one it was given: (0,0) now points to (1,1). *)
Lemma union_equal_roots_mutates :
  ∃ P1 P2,
    find 3 c00 chain_parent = Some (c11, P1) ∧ find 3 c11 P1 = Some (c11, P2) ∧
    union 3 c00 c11 chain_parent = Some (false, chain_compressed) ∧
    chain_compressed ≠ chain_parent ∧
    chain_parent !! c00 = Some c01 ∧ chain_compressed !! c00 = Some c11.
Proof.
  exists chain_compressed, chain_compressed.
  split; [vm_compute; reflexivity|]. split; [vm_compute; reflexivity|].
  split; [vm_compute; reflexivity|].
  assert (chain_parent !! c00 = Some c01) as H1 by (vm_compute; reflexivity).
  assert (chain_compressed !! c00 = Some c11) as H2 by (vm_compute; reflexivity).
  split; [|done]. intros Heq. rewrite Heq, H1 in H2. discriminate.
Qed.

(** C10. A call [find x] on a vertex whose chain ends in a root returns that
    root, and afterwards two vertices are in the same set exactly when they
    were before the call. *)
Theorem find_preserves_partition (P : gmap Coordinate Coordinate)
    (x r : Coordinate) (n fuel : nat) :
  reaches_root P x r n → (n < fuel)%nat →
  ∃ P', find fuel x P = Some (r, P') ∧
        ∀ y z, same_set P' y z ↔ same_set P y z.
Proof.
  intros Hx Hn. destruct (find_spec P x r n fuel Hx Hn) as (P' & Hf & HP).
  exists P'. split; [done|]. intros y z. by apply compresses_same_set.
Qed.

Lemma find_preserves_partition_witness :
  reaches_root chain_parent c00 c11 2 ∧ (2 < 3)%nat ∧
  ∃ P', find 3 c00 chain_parent = Some (c11, P') ∧
        ∀ y z, same_set P' y z ↔ same_set chain_parent y z.
Proof.
  assert (reaches_root chain_parent c00 c11 2) as H2.
  { apply (reaches_step _ c00 c01); [vm_compute; reflexivity|done|].
    apply (reaches_step _ c01 c11); [vm_compute; reflexivity|done|].
    constructor. vm_compute. reflexivity. }
  split; [exact H2|]. split; [lia|].
  apply (find_preserves_partition chain_parent c00 c11 2 3 H2). lia.
Defined.

(** ** Compressed against uncompressed union-find *)

Section naive.
Implicit Types P Q : gmap Coordinate Coordinate.

Lemma naive_union_spec Q a b ra rb n m fuel :
  reaches_root Q a ra n → reaches_root Q b rb m →
  (n < fuel)%nat → (m < fuel)%nat →
  naive_union fuel a b Q =
    Some (if bool_decide (ra ≠ rb) then <[rb := ra]> Q else Q).
Proof.
  intros Ha Hb Hn Hm. unfold naive_union.
  rewrite (proj2 (naive_find_reaches fuel a Q ra)) by eauto. simpl.
  rewrite (proj2 (naive_find_reaches fuel b Q rb)) by eauto. simpl.
  by case_bool_decide.
Qed.

Lemma same_roots_refl P : same_roots P P.
Proof. split; [done|]. eauto. Qed.

(** One step of both implementations keeps the roots equal. *)
Lemma union_step_same_roots P Q a b B fuel :
  depth_bounded P B → depth_bounded Q B → same_roots P Q → (B < fuel)%nat →
  is_Some (P !! a) → is_Some (P !! b) →
  ∃ ok P' Q',
    union fuel a b P = Some (ok, P') ∧ naive_union fuel a b Q = Some Q' ∧
    depth_bounded P' (S B) ∧ depth_bounded Q' (S B) ∧ same_roots P' Q' ∧
    (∀ z, is_Some (P' !! z) ↔ is_Some (P !! z)).
Proof.
  intros HPB HQB [Hkeys Hroots] Hfuel Ha Hb.
  destruct (union_spec P a b B fuel HPB Hfuel Ha Hb)
    as (ra & rb & P2 & [n Hra] & [m Hrb] & HP2 & Hunion).
  destruct (Hroots _ _ _ Hra) as [n' Hra'].
  destruct (Hroots _ _ _ Hrb) as [m' Hrb'].
  destruct (HQB a) as (ra0 & n0 & Hra0 & Hn0); [by apply Hkeys|].
  destruct (HQB b) as (rb0 & m0 & Hrb0 & Hm0); [by apply Hkeys|].
  destruct (reaches_root_functional Q a ra n' ra0 n0 Hra' Hra0) as [<- ->].
  destruct (reaches_root_functional Q b rb m' rb0 m0 Hrb' Hrb0) as [<- ->].
  rewrite Hunion.
  rewrite (naive_union_spec Q a b ra rb n0 m0 fuel) by (done || lia).
  pose proof (reaches_root_is_root _ _ _ _ Hra) as HraP.
  pose proof (reaches_root_is_root _ _ _ _ Hrb) as HrbP.
  pose proof (compresses_root _ _ _ HP2 HraP) as Hra2.
  pose proof (compresses_root _ _ _ HP2 HrbP) as Hrb2.
  pose proof (reaches_root_is_root _ _ _ _ Hra') as HraQ.
  pose proof (reaches_root_is_root _ _ _ _ Hrb') as HrbQ.
  pose proof (compresses_depth_bounded _ _ _ HP2 HPB) as HP2B.
  eexists _, _, _. split; [done|]. split; [done|].
  case_bool_decide as Hne.
  - split; [by apply attach_depth_bounded|].
    split; [by apply attach_depth_bounded|]. split; [split|].
    + intros z. rewrite !lookup_insert_is_Some, (proj1 HP2 z), Hkeys.
      destruct (decide (rb = z)) as [<-|]; [|tauto].
      assert (is_Some (P2 !! rb)) by eauto. tauto.
    + intros y r k Hy.
      assert (is_Some (P !! y)) as HyP.
      { apply reaches_root_key, lookup_insert_is_Some in Hy as [<-|[_ Hy]];
          [eauto|by apply (proj1 HP2)]. }
      destruct (HPB y HyP) as (r0 & k0 & Hy0 & _).
      destruct (compresses_reaches _ _ _ _ _ HP2 Hy0) as (k2 & _ & Hy2).
      pose proof (attach_reaches P2 ra rb y r0 k2 Hra2 Hrb2 Hne Hy2) as Hy3.
      destruct (reaches_root_functional _ _ _ _ _ _ Hy Hy3) as [-> _].
      destruct (Hroots _ _ _ Hy0) as [kq Hyq].
      eexists. by apply (attach_reaches Q ra rb y r0 kq).
    + intros z. rewrite lookup_insert_is_Some, (proj1 HP2 z).
      destruct (decide (rb = z)) as [<-|]; [|tauto].
      assert (is_Some (P !! rb)) by eauto. tauto.
  - split; [by eapply depth_bounded_mono; [|exact HP2B]; lia|].
    split; [by eapply depth_bounded_mono; [|exact HQB]; lia|].
    split; [split|apply HP2].
    + intros z. by rewrite (proj1 HP2 z).
    + intros y r k [k0 Hy]%(compresses_reaches_inv P). by eapply Hroots. done.
Qed.

Lemma union_all_same_roots ops P Q B fuel :
  depth_bounded P B → depth_bounded Q B → same_roots P Q →
  (B + length ops < fuel)%nat →
  (∀ a b, (a, b) ∈ ops → is_Some (P !! a) ∧ is_Some (P !! b)) →
  ∃ P' Q',
    union_all fuel ops P = Some P' ∧ naive_union_all fuel ops Q = Some Q' ∧
    depth_bounded P' (B + length ops) ∧ depth_bounded Q' (B + length ops) ∧
    same_roots P' Q' ∧ (∀ z, is_Some (P' !! z) ↔ is_Some (P !! z)).
Proof.
  revert P Q B. induction ops as [|[a b] ops IH]; intros P Q B HPB HQB HPQ Hfuel Hops;
    simpl in *.
  - exists P, Q. rewrite Nat.add_0_r. done.
  - destruct (Hops a b) as [Ha Hb]; [by left|].
    destruct (union_step_same_roots P Q a b B fuel HPB HQB HPQ)
      as (ok & P1 & Q1 & -> & -> & HP1 & HQ1 & HPQ1 & Hkeys1); [lia|done|done|].
    simpl.
    destruct (IH P1 Q1 (S B) HP1 HQ1 HPQ1) as (P' & Q' & -> & -> & ? & ? & ? & Hk);
      [lia| |].
    { intros a' b' Hin. rewrite !Hkeys1. apply Hops. by right. }
    exists P', Q'. replace (B + S (length ops))%nat with (S B + length ops)%nat by lia.
    do 5 (split; [done|]). intros z. by rewrite Hk, Hkeys1.
Qed.

End naive.

(** C8. On a mapping whose chains all end in a root, any sequence of [union]
    calls between its keys runs through, and then [find] returns for every
    vertex the root that the naive walk finds, both in the mapping at hand
    and in the one that the same unions build without any compression. *)
Theorem find_agrees_with_naive_walk (P : gmap Coordinate Coordinate)
    (ops : list (Coordinate * Coordinate)) :
  chains_terminate P →
  (∀ a b, (a, b) ∈ ops → is_Some (P !! a) ∧ is_Some (P !! b)) →
  ∃ N, ∀ fuel, (N ≤ fuel)%nat →
    ∃ P' Q',
      union_all fuel ops P = Some P' ∧ naive_union_all fuel ops P = Some Q' ∧
      ∀ x, is_Some (P !! x) →
        ∃ r P'', find fuel x P' = Some (r, P'') ∧
                 naive_find fuel x P' = Some r ∧
                 naive_find fuel x Q' = Some r.
Proof.
  intros [B HB]%chains_terminate_bounded Hops.
  exists (S (B + length ops)). intros fuel Hfuel.
  destruct (union_all_same_roots ops P P B fuel HB HB (same_roots_refl P))
    as (P' & Q' & HP' & HQ' & HPB & HQB & [_ Hroots] & Hkeys); [lia|done|].
  exists P', Q'. split; [done|]. split; [done|].
  intros x Hx%Hkeys. destruct (HPB x Hx) as (r & n & Hr & Hn).
  destruct (find_spec P' x r n fuel Hr) as (P'' & Hfind & _); [lia|].
  exists r, P''. split; [done|].
  split; apply naive_find_reaches.
  - exists n. split; [lia|done].
  - destruct (Hroots _ _ _ Hr) as [k Hk].
    destruct (HQB x) as (r' & k' & Hk' & Hle).
    { eapply reaches_root_key, Hk. }
    destruct (reaches_root_functional _ _ _ _ _ _ Hk Hk') as [<- <-].
    exists k. split; [lia|done].
Qed.

Lemma find_agrees_with_naive_walk_witness :
  chains_terminate chain_parent ∧
  (∀ a b, (a, b) ∈ [(c00, c11)] →
      is_Some (chain_parent !! a) ∧ is_Some (chain_parent !! b)) ∧
  ∃ N, ∀ fuel, (N ≤ fuel)%nat →
    ∃ P' Q',
      union_all fuel [(c00, c11)] chain_parent = Some P' ∧
      naive_union_all fuel [(c00, c11)] chain_parent = Some Q' ∧
      ∀ x, is_Some (chain_parent !! x) →
        ∃ r P'', find fuel x P' = Some (r, P'') ∧
                 naive_find fuel x P' = Some r ∧
                 naive_find fuel x Q' = Some r.
Proof.
  assert (chains_terminate chain_parent) as Hct.
  { intros x [p Hp]. exists 3%nat, c11.
    unfold chain_parent in Hp.
    apply lookup_insert_Some in Hp as [[<- <-]|[_ Hp]]; [vm_compute; reflexivity|].
    apply lookup_insert_Some in Hp as [[<- <-]|[_ Hp]]; [vm_compute; reflexivity|].
    apply lookup_insert_Some in Hp as [[<- <-]|[_ Hp]]; [vm_compute; reflexivity|].
    by rewrite lookup_empty in Hp. }
  assert (∀ a b, (a, b) ∈ [(c00, c11)] →
            is_Some (chain_parent !! a) ∧ is_Some (chain_parent !! b)) as Hops.
  { intros a b [= -> ->]%list_elem_of_singleton.
    split; [exists c01|exists c11]; vm_compute; reflexivity. }
  split; [exact Hct|]. split; [exact Hops|].
  exact (find_agrees_with_naive_walk chain_parent [(c00, c11)] Hct Hops).
Defined.

(** * Connectivity, representatives and counting *)

Section connectivity.
Implicit Types L K : list Edge.
Implicit Types x y u v : Coordinate.

Lemma econn_refl L x : econn L x x.
Proof. apply rtc_refl. Qed.

Lemma econn_sym L x y : econn L x y → econn L y x.
Proof. unfold econn. intros H. by symmetry. Qed.

Lemma econn_trans L x y z : econn L x y → econn L y z → econn L x z.
Proof. unfold econn. intros H1 H2. by etrans. Qed.

Lemma econn_edge L w u v : (w, u, v) ∈ L → econn L u v.
Proof. intros Hin. apply rtc_once. left. by exists w. Qed.

Lemma econn_subrel L L' x y :
  (∀ a b, linked L a b → econn L' a b) → econn L x y → econn L' x y.
Proof.
  intros Hsub H. induction H as [x|x x' y Hstep _ IH]; [apply econn_refl|].
  eapply econn_trans; [|exact IH].
  destruct Hstep as [Hl|Hl]; [by apply Hsub|by apply econn_sym, Hsub].
Qed.

Lemma econn_mono L L' x y :
  (∀ e, e ∈ L → e ∈ L') → econn L x y → econn L' x y.
Proof.
  intros Hsub. apply econn_subrel. intros a b [w Hw].
  eapply econn_edge, Hsub, Hw.
Qed.

Lemma econn_snoc L w u v x y :
  econn (L ++ [(w, u, v)]) x y ↔
    econn L x y ∨ (econn L x u ∧ econn L v y) ∨ (econn L x v ∧ econn L u y).
Proof.
  split.
  - intros H. induction H as [x|x x' y Hstep _ IH]; [left; apply econn_refl|].
    assert (econn L x x' ∨ (x = u ∧ x' = v) ∨ (x = v ∧ x' = u)) as Hcase.
    { destruct Hstep as [[w' Hin]|[w' Hin]];
        apply elem_of_app in Hin as [Hin|Hin%list_elem_of_singleton].
      - left. by eapply econn_edge.
      - right. left. by simplify_eq.
      - left. by eapply econn_sym, econn_edge.
      - right. right. by simplify_eq. }
    destruct Hcase as [Hxx|[[-> ->]|[-> ->]]].
    + destruct IH as [IH|[[IH1 IH2]|[IH1 IH2]]].
      * left. by eapply econn_trans.
      * right. left. split; [by eapply econn_trans|done].
      * right. right. split; [by eapply econn_trans|done].
    + destruct IH as [IH|[[IH1 IH2]|[IH1 IH2]]].
      * right. left. split; [apply econn_refl|done].
      * left. eapply econn_trans; [apply econn_sym, IH1|done].
      * left. done.
    + destruct IH as [IH|[[IH1 IH2]|[IH1 IH2]]].
      * right. right. split; [apply econn_refl|done].
      * left. done.
      * left. eapply econn_trans; [apply econn_sym, IH1|done].
  - assert (∀ a b, econn L a b → econn (L ++ [(w, u, v)]) a b) as Hup.
    { intros a b. apply econn_mono. intros e He. apply elem_of_app. by left. }
    assert (econn (L ++ [(w, u, v)]) u v) as Huv.
    { apply (econn_edge _ w). apply elem_of_app. right. by left. }
    intros [H|[[H1 H2]|[H1 H2]]].
    + by apply Hup.
    + eapply econn_trans; [apply Hup, H1|]. eapply econn_trans; [exact Huv|].
      by apply Hup.
    + eapply econn_trans; [apply Hup, H1|].
      eapply econn_trans; [apply econn_sym, Huv|]. by apply Hup.
Qed.

Lemma econn_nil x y : econn [] x y → x = y.
Proof.
  intros H. induction H as [x|x x' y Hstep _ IH]; [done|].
  destruct Hstep as [[w Hin]|[w Hin]]; by apply elem_of_nil in Hin.
Qed.

Lemma econn_among L (vs : list Coordinate) x y :
  (∀ w u v, (w, u, v) ∈ L → u ∈ vs ∧ v ∈ vs) →
  econn L x y → x ∈ vs → y ∈ vs.
Proof.
  intros Hends H. induction H as [x|x x' y Hstep _ IH]; [done|].
  intros Hx. apply IH.
  destruct Hstep as [[w Hin]|[w Hin]]; by destruct (Hends _ _ _ Hin).
Qed.

End connectivity.

(** ** Systems of representatives *)

Section representatives.
Context {A B : Type}.

(** An injective relation from a duplicate-free list into another list. *)
Lemma injection_length (T : A → B → Prop) (l2 : list A) (l1 : list B) :
  NoDup l2 →
  (∀ x, x ∈ l2 → ∃ y, y ∈ l1 ∧ T x y) →
  (∀ x x' y, x ∈ l2 → x' ∈ l2 → T x y → T x' y → x = x') →
  (length l2 ≤ length l1)%nat.
Proof.
  revert l1. induction l2 as [|x l2 IH]; intros l1 Hnd Hex Hinj; simpl; [lia|].
  apply NoDup_cons in Hnd as [Hx Hnd].
  destruct (Hex x) as (y & Hy & Hxy); [by left|].
  apply elem_of_Permutation in Hy as [l1' Hl1].
  rewrite Hl1. simpl. apply le_n_S, IH; [done| |].
  - intros x' Hx'. destruct (Hex x') as (y' & Hy' & Hxy'); [by right|].
    exists y'. split; [|done]. rewrite Hl1 in Hy'.
    apply elem_of_cons in Hy' as [->|?]; [|done].
    exfalso. apply Hx. rewrite (Hinj x x' y); [done|by left|by right|done|done].
  - intros x1 x2 y' H1 H2. apply Hinj; by right.
Qed.

End representatives.

Lemma reps_of_length_le (R1 R2 : relation Coordinate) vs l1 l2 :
  Symmetric R1 → Transitive R1 →
  (∀ x y, x ∈ vs → y ∈ vs → R1 x y → R2 x y) →
  reps_of R1 vs l1 → reps_of R2 vs l2 → (length l2 ≤ length l1)%nat.
Proof.
  intros Hsym Htrans Hsub H1 H2.
  apply (injection_length (λ r2 r1, R1 r2 r1)).
  - apply H2.
  - intros x Hx. apply (reps_cover _ _ _ H1), (reps_among _ _ _ H2), Hx.
  - intros x x' y Hx Hx' Hxy Hx'y.
    apply (reps_apart _ _ _ H2); [done|done|].
    apply Hsub; [by eapply reps_among|by eapply reps_among|].
    etrans; [exact Hxy|]. by symmetry.
Qed.

Lemma reps_of_length_eq (R1 R2 : relation Coordinate) vs l1 l2 :
  Symmetric R1 → Transitive R1 → Symmetric R2 → Transitive R2 →
  (∀ x y, x ∈ vs → y ∈ vs → R1 x y ↔ R2 x y) →
  reps_of R1 vs l1 → reps_of R2 vs l2 → length l1 = length l2.
Proof.
  intros ? ? ? ? Heq H1 H2. apply Nat.le_antisymm.
  - eapply (reps_of_length_le R2 R1); [..|exact H2|exact H1]; try done.
    intros x y Hx Hy. by apply Heq.
  - eapply (reps_of_length_le R1 R2); [..|exact H1|exact H2]; try done.
    intros x y Hx Hy. by apply Heq.
Qed.

#[local] Instance econn_symmetric L : Symmetric (econn L).
Proof. intros x y. apply econn_sym. Qed.

#[local] Instance econn_transitive L : Transitive (econn L).
Proof. intros x y z. apply econn_trans. Qed.

(** * The union-find run *)

Section run.
Implicit Types P : gmap Coordinate Coordinate.
Implicit Types vs : list Coordinate.
Implicit Types L K done acc : list Edge.

Lemma init_parent_lookup_gen vs (m : gmap Coordinate Coordinate) z :
  foldl (λ m v, <[v := v]> m) m vs !! z =
    if decide (z ∈ vs) then Some z else m !! z.
Proof.
  revert m. induction vs as [|x vs IH]; intros m; simpl.
  - done.
  - rewrite IH. destruct (decide (z ∈ vs)) as [Hin|Hin].
    + rewrite decide_True; [done|by right].
    + rewrite lookup_insert. destruct (decide (x = z)) as [->|Hne].
      * rewrite decide_True; [done|by left].
      * rewrite decide_False; [done|]. rewrite not_elem_of_cons. split; [done|done].
Qed.

Lemma init_parent_lookup vs z :
  init_parent vs !! z = if decide (z ∈ vs) then Some z else None.
Proof. unfold init_parent. by rewrite init_parent_lookup_gen, lookup_empty. Qed.

Lemma uf_roots_ext P P' vs :
  (∀ z, z ∈ vs → (P' !! z = Some z ↔ P !! z = Some z)) →
  uf_roots P' vs = uf_roots P vs.
Proof.
  unfold uf_roots. induction vs as [|x vs IH]; intros Hext; [done|].
  assert (filter (λ x, P' !! x = Some x) vs = filter (λ x, P !! x = Some x) vs)
    as IH' by (apply IH; intros z Hz; apply Hext; by right).
  destruct (decide (P !! x = Some x)) as [Hx|Hx].
  - rewrite !filter_cons_True; [by f_equal|done|]. apply Hext; [by left|done].
  - rewrite !filter_cons_False; [done|done|]. intros ?. apply Hx, Hext; [by left|done].
Qed.

Lemma uf_roots_attach P ra rb vs :
  NoDup vs → rb ∈ vs → P !! rb = Some rb → ra ≠ rb →
  S (length (uf_roots (<[rb := ra]> P) vs)) = length (uf_roots P vs).
Proof.
  intros Hnd Hin Hrb Hne. induction vs as [|x vs IH]; [by apply elem_of_nil in Hin|].
  apply NoDup_cons in Hnd as [Hx Hnd]. unfold uf_roots in *.
  destruct (decide (x = rb)) as [->|Hxb].
  - rewrite filter_cons_False, filter_cons_True; [|done|].
    2:{ rewrite lookup_insert_eq. congruence. }
    simpl. f_equal. f_equal. apply uf_roots_ext. intros z Hz.
    rewrite lookup_insert_ne; [done|]. intros ->. done.
  - apply elem_of_cons in Hin as [->|Hin]; [done|].
    destruct (decide (P !! x = Some x)) as [Hx'|Hx'].
    + rewrite !filter_cons_True; [|done|by rewrite lookup_insert_ne].
      simpl. f_equal. by apply IH.
    + rewrite !filter_cons_False; [|done|by rewrite lookup_insert_ne].
      by apply IH.
Qed.

Lemma compresses_root_iff P P' z :
  compresses P P' → P' !! z = Some z ↔ P !! z = Some z.
Proof.
  intros HPP. split; [|by apply compresses_root].
  intros Hz. destruct (proj2 HPP z z Hz) as [?|[n Hn]]; [done|].
  by eapply reaches_root_is_root.
Qed.

Lemma uf_inv_init vs : NoDup vs → uf_inv vs [] [] (init_parent vs).
Proof.
  intros Hnd.
  assert (∀ x, x ∈ vs → reaches_root (init_parent vs) x x 0) as Hroot.
  { intros x Hx. constructor. by rewrite init_parent_lookup, decide_True. }
  split.
  - intros z. rewrite init_parent_lookup. case_decide; [by split; eauto|].
    split; [by intros [? ?]|done].
  - intros x Hx. rewrite init_parent_lookup in Hx.
    case_decide as Hin; [|by destruct Hx]. exists x, 0%nat. split; [by apply Hroot|done].
  - intros x y Hx Hy.
    rewrite (same_set_roots _ x y x y 0 0) by (by apply Hroot).
    split; [intros ->; apply econn_refl | apply econn_nil].
  - simpl. rewrite Nat.add_0_r. f_equal. unfold uf_roots.
    induction vs as [|x vs IH]; [done|].
    apply NoDup_cons in Hnd as [Hx Hnd].
    rewrite filter_cons_True.
    2:{ rewrite init_parent_lookup, decide_True; [done|by left]. }
    f_equal. rewrite <- IH at 2; [|done|].
    + apply (uf_roots_ext (init_parent vs) (init_parent (x :: vs))).
      intros z Hz. rewrite !init_parent_lookup.
      rewrite !decide_True; [done|..]; (done || by right).
    + intros z Hz. constructor. by rewrite init_parent_lookup, decide_True.
  - done.
  - done.
  - constructor.
Qed.

Lemma uf_inv_root_exists vs done acc P x :
  uf_inv vs done acc P → x ∈ vs →
  ∃ r n, reaches_root P x r n ∧ r ∈ vs ∧ r ∈ uf_roots P vs.
Proof.
  intros Hinv Hx.
  destruct (ui_depth _ _ _ _ Hinv x) as (r & n & Hr & _);
    [by apply (ui_keys _ _ _ _ Hinv)|].
  pose proof (reaches_root_is_root _ _ _ _ Hr) as Hroot.
  assert (r ∈ vs) as Hrvs by (apply (ui_keys _ _ _ _ Hinv); eauto).
  exists r, n. split; [done|]. split; [done|].
  unfold uf_roots. by apply list_elem_of_filter.
Qed.

Lemma uf_inv_acc_lt vs done acc P x :
  uf_inv vs done acc P → x ∈ vs → (length acc < length vs)%nat.
Proof.
  intros Hinv Hx. destruct (uf_inv_root_exists _ _ _ _ x Hinv Hx) as (r & n & _ & _ & Hr).
  pose proof (ui_count _ _ _ _ Hinv) as Hc.
  destruct (uf_roots P vs); [by apply elem_of_nil in Hr|]. simpl in Hc. lia.
Qed.

Lemma uf_inv_step vs done acc P fuel w u v :
  NoDup vs → (length vs ≤ fuel)%nat → u ∈ vs → v ∈ vs →
  uf_inv vs done acc P →
  ∃ ok P', union fuel u v P = Some (ok, P') ∧
    uf_inv vs (done ++ [(w, u, v)]) (if ok : bool then acc ++ [(w, u, v)] else acc) P'.
Proof.
  intros Hnd Hfuel Hu Hv Hinv.
  pose proof (uf_inv_acc_lt _ _ _ _ u Hinv Hu) as Hlt.
  destruct Hinv as [Hkeys Hdepth Hsets Hcount Hacc Hsub Hindep].
  destruct (union_spec P u v (length acc) fuel Hdepth)
    as (ra & rb & P2 & [n Hra] & [m Hrb] & HP2 & Hunion);
    [lia|by apply Hkeys|by apply Hkeys|].
  rewrite Hunion. eexists _, _. split; [done|].
  pose proof (reaches_root_is_root _ _ _ _ Hra) as HraP.
  pose proof (reaches_root_is_root _ _ _ _ Hrb) as HrbP.
  pose proof (compresses_root _ _ _ HP2 HraP) as Hra2.
  pose proof (compresses_root _ _ _ HP2 HrbP) as Hrb2.
  pose proof (compresses_depth_bounded _ _ _ HP2 Hdepth) as Hdepth2.
  assert (econn done u v ↔ ra = rb) as Huv.
  { rewrite <- (Hsets u v Hu Hv). by eapply same_set_roots. }
  assert (uf_roots P2 vs = uf_roots P vs) as Hroots2.
  { apply uf_roots_ext. intros z _. by apply compresses_root_iff. }
  assert (∀ x, x ∈ vs → ∃ r k, reaches_root P2 x r k) as Htotal2.
  { intros x Hx. destruct (Hdepth2 x) as (r & k & Hr & _); [|by eauto].
    by apply (proj1 HP2), Hkeys. }
  case_bool_decide as Hne.
  - destruct (compresses_reaches _ _ _ _ _ HP2 Hra) as (n2 & _ & Hra').
    destruct (compresses_reaches _ _ _ _ _ HP2 Hrb) as (m2 & _ & Hrb').
    split.
    + intros z. rewrite lookup_insert_is_Some, (proj1 HP2 z), <- Hkeys.
      destruct (decide (rb = z)) as [<-|]; [|tauto].
      assert (is_Some (P !! rb)) by eauto. tauto.
    + rewrite length_app. simpl. rewrite Nat.add_1_r.
      by apply attach_depth_bounded.
    + intros x y Hx Hy.
      rewrite (attach_same_set P2 ra rb u v n2 m2 x y) by eauto.
      rewrite !(compresses_same_set P P2) by done.
      rewrite !Hsets by done. by rewrite econn_snoc.
    + rewrite length_app. simpl.
      assert (rb ∈ vs) as Hrbvs by (apply Hkeys; eauto).
      pose proof (uf_roots_attach P2 ra rb vs Hnd Hrbvs Hrb2 Hne) as Hatt.
      rewrite Hroots2 in Hatt. lia.
    + intros x y. rewrite !econn_snoc.
      intros [H|[[H1 H2]|[H1 H2]]]; auto.
    + intros e [He|He]%elem_of_app; apply elem_of_app; [left; by apply Hsub|by right].
    + constructor; [done|]. intros Hc. apply Hne, Huv.
      eapply econn_mono; [exact Hsub|done].
  - assert (ra = rb) as <- by (by destruct (decide (ra = rb)); [|exfalso; auto]).
    assert (econn done u v) as Hconn by (by apply Huv).
    assert (∀ x y, econn (done ++ [(w, u, v)]) x y ↔ econn done x y) as Hsame.
    { intros x y. rewrite econn_snoc. split; [|by left].
      intros [H|[[H1 H2]|[H1 H2]]]; [done| |].
      - eapply econn_trans; [exact H1|]. by eapply econn_trans.
      - eapply econn_trans; [exact H1|].
        eapply econn_trans; [apply econn_sym, Hconn|done]. }
    split.
    + intros z. by rewrite (proj1 HP2 z).
    + done.
    + intros x y Hx Hy. rewrite (compresses_same_set P P2) by done.
      by rewrite Hsets, Hsame.
    + by rewrite Hroots2.
    + intros x y Hxy%Hsame. by apply Hacc.
    + intros e He. apply elem_of_app. left. by apply Hsub.
    + done.
Qed.

Lemma uf_run_inv vs L done acc P fuel :
  NoDup vs → (length vs ≤ fuel)%nat →
  (∀ w u v, (w, u, v) ∈ L → u ∈ vs ∧ v ∈ vs) →
  uf_inv vs done acc P →
  ∃ K P', uf_run fuel L P = Some (K, P') ∧
          uf_inv vs (done ++ L) (acc ++ K) P' ∧ K `sublist_of` L.
Proof.
  intros Hnd Hfuel. revert done acc P.
  induction L as [|[[w u] v] L IH]; intros done acc P Hends Hinv; simpl.
  - exists [], P. by rewrite !app_nil_r.
  - destruct (Hends w u v) as [Hu Hv]; [by left|].
    destruct (uf_inv_step vs done acc P fuel w u v Hnd Hfuel Hu Hv Hinv)
      as (ok & P1 & -> & Hinv1). simpl.
    destruct (IH _ _ P1 (λ w' u' v' Hin, Hends w' u' v' (list_elem_of_further _ _ _ Hin)) Hinv1)
      as (K & P' & -> & Hinv' & Hsub).
    simpl. eexists _, P'. split; [done|].
    rewrite <- app_assoc in Hinv'. simpl in Hinv'.
    destruct ok.
    + rewrite <- app_assoc in Hinv'. simpl in Hinv'.
      split; [done|]. by apply sublist_skip.
    + split; [done|]. by apply sublist_cons.
Qed.

(** The run from the initial mapping. *)
Lemma uf_run_total vs L fuel :
  NoDup vs → (length vs ≤ fuel)%nat →
  (∀ w u v, (w, u, v) ∈ L → u ∈ vs ∧ v ∈ vs) →
  ∃ K P', uf_run fuel L (init_parent vs) = Some (K, P') ∧
          uf_inv vs L K P' ∧ K `sublist_of` L.
Proof.
  intros Hnd Hfuel Hends.
  destruct (uf_run_inv vs L [] [] (init_parent vs) fuel Hnd Hfuel Hends)
    as (K & P' & Hrun & Hinv & Hsub); [by apply uf_inv_init|].
  by exists K, P'.
Qed.

Lemma uf_run_app fuel L1 L2 P :
  uf_run fuel (L1 ++ L2) P =
    '(K1, P1) ← uf_run fuel L1 P;
    '(K2, P2) ← uf_run fuel L2 P1;
    Some (K1 ++ K2, P2).
Proof.
  revert P. induction L1 as [|[[w u] v] L1 IH]; intros P; simpl.
  - destruct (uf_run fuel L2 P) as [[K2 P2]|]; done.
  - destruct (union fuel u v P) as [[ok P']|]; simpl; [|done].
    rewrite IH. destruct (uf_run fuel L1 P') as [[K1 P1]|]; simpl; [|done].
    destruct (uf_run fuel L2 P1) as [[K2 P2]|]; simpl; [|done].
    by destruct ok.
Qed.

(** The roots of the final mapping are representatives of the components. *)
Lemma uf_inv_reps vs done acc P :
  NoDup vs → uf_inv vs done acc P → reps_of (econn done) vs (uf_roots P vs).
Proof.
  intros Hnd Hinv. split.
  - unfold uf_roots. by apply NoDup_filter.
  - intros r [_ ?]%list_elem_of_filter. done.
  - intros x Hx.
    destruct (uf_inv_root_exists _ _ _ _ x Hinv Hx) as (r & n & Hr & Hrvs & Hroots).
    exists r. split; [done|]. apply (ui_sets _ _ _ _ Hinv); [done|done|].
    exists r, n, 0%nat. split; [done|]. constructor.
    by eapply reaches_root_is_root.
  - intros r1 r2 [Hr1 Hv1]%list_elem_of_filter [Hr2 Hv2]%list_elem_of_filter Hconn.
    apply (ui_sets _ _ _ _ Hinv) in Hconn; [|done|done].
    eapply (same_set_roots P r1 r2 r1 r2 0 0); [by constructor|by constructor|done].
Qed.

End run.

(** * The edge collection and the sort *)

Section collection.
Context (g : AdjacencyListGraph) (Hwf : wf_graph g).
Implicit Types st : list Edge * gset (gset Coordinate).
Implicit Types u v : Coordinate.

Lemma collect_le_refl st : collect_le st st.
Proof. split; [done|done]. Qed.

Lemma collect_le_trans st1 st2 st3 :
  collect_le st1 st2 → collect_le st2 st3 → collect_le st1 st3.
Proof.
  intros [H1 H2] [H3 H4]. split; [by intros e ?%H1%H3|]. by etrans.
Qed.

Lemma collect_step_le u st v : collect_le st (collect_step g u st v).
Proof.
  unfold collect_step. case_bool_decide; [apply collect_le_refl|].
  destruct (0 <? getWeight g u v); [|apply collect_le_refl].
  split; simpl.
  - intros e He. apply elem_of_app. by left.
  - apply union_subseteq_r.
Qed.

Lemma collect_step_inv u st v :
  v ∈ neighbours g u → collect_inv g st → collect_inv g (collect_step g u st v).
Proof.
  intros Hv [Hedges Hkeys]. unfold collect_step.
  case_bool_decide as Hkey; [by split|].
  destruct (0 <? getWeight g u v); [|by split].
  apply (neighbours_hasEdge g Hwf) in Hv.
  pose proof (hasEdge_getWeight_entry g Hwf u v Hv) as Hentry.
  split; simpl.
  - intros w a b [Hin|Hin%list_elem_of_singleton]%elem_of_app;
      [by apply Hedges|]. by simplify_eq.
  - intros key [->%elem_of_singleton|Hin]%elem_of_union.
    + exists (getWeight g u v), u, v. split; [|done].
      apply elem_of_app. right. by left.
    + destruct (Hkeys key Hin) as (w & a & b & Hab & ->).
      exists w, a, b. split; [|done]. apply elem_of_app. by left.
Qed.

Lemma collect_step_covers u st v :
  v ∈ neighbours g u → {[u; v]} ∈ (collect_step g u st v).2.
Proof.
  intros Hv. unfold collect_step. case_bool_decide as Hkey; [done|].
  apply (neighbours_hasEdge g Hwf) in Hv.
  pose proof (hasEdge_getWeight_entry g Hwf u v Hv) as Hentry.
  apply (entry_pos g Hwf), Z.ltb_lt in Hentry. rewrite Hentry. simpl.
  apply elem_of_union. left. by apply elem_of_singleton.
Qed.

Lemma collect_inner u (l : list Coordinate) st :
  (∀ v, v ∈ l → v ∈ neighbours g u) → collect_inv g st →
  collect_inv g (foldl (collect_step g u) st l) ∧
  collect_le st (foldl (collect_step g u) st l) ∧
  ∀ v, v ∈ l → {[u; v]} ∈ (foldl (collect_step g u) st l).2.
Proof.
  revert st. induction l as [|x l IH]; intros st Hl Hinv; simpl.
  - split; [done|]. split; [apply collect_le_refl|]. by intros v ?%elem_of_nil.
  - destruct (IH (collect_step g u st x)) as (Hinv' & Hle & Hcov).
    { intros v Hv. apply Hl. by right. }
    { apply collect_step_inv; [apply Hl; by left|done]. }
    split; [done|]. split.
    { eapply collect_le_trans; [apply collect_step_le|done]. }
    intros v [->|Hv]%elem_of_cons; [|by apply Hcov].
    apply (proj2 Hle). apply collect_step_covers. apply Hl. by left.
Qed.

Lemma collect_outer (vs : list Coordinate) st :
  collect_inv g st →
  let st' := foldl (λ st u, foldl (collect_step g u) st (neighbours g u)) st vs in
  collect_inv g st' ∧ collect_le st st' ∧
  ∀ u v, u ∈ vs → v ∈ neighbours g u → {[u; v]} ∈ st'.2.
Proof.
  revert st. induction vs as [|x vs IH]; intros st Hinv; simpl.
  - split; [done|]. split; [apply collect_le_refl|]. by intros u v ?%elem_of_nil.
  - destruct (collect_inner x (neighbours g x) st) as (Hinv1 & Hle1 & Hcov1);
      [done|done|].
    destruct (IH _ Hinv1) as (Hinv' & Hle & Hcov).
    split; [done|]. split; [by eapply collect_le_trans|].
    intros u v [->|Hu]%elem_of_cons Hv; [|by apply Hcov].
    apply (proj2 Hle). by apply Hcov1.
Qed.

Lemma pair_set_eq (a b u v : Coordinate) :
  ({[a; b]} : gset Coordinate) = {[u; v]} → (a = u ∧ b = v) ∨ (a = v ∧ b = u).
Proof.
  intros Heq.
  assert (∀ x, (x = a ∨ x = b) ↔ (x = u ∨ x = v)) as H.
  { intros x.
    assert (x ∈ ({[a; b]} : gset Coordinate) ↔ x ∈ ({[u; v]} : gset Coordinate))
      as Hx by (by rewrite Heq).
    by rewrite !elem_of_union, !elem_of_singleton in Hx. }
  pose proof (proj1 (H a) (or_introl eq_refl)) as Ha.
  pose proof (proj1 (H b) (or_intror eq_refl)) as Hb.
  pose proof (proj2 (H u) (or_introl eq_refl)) as Hu.
  pose proof (proj2 (H v) (or_intror eq_refl)) as Hv.
  intuition congruence.
Qed.

Lemma collect_edges_spec : edge_list_of g (collect_edges g (vertices g)).
Proof.
  destruct (collect_outer (vertices g) ([], ∅)) as ([Hedges Hkeys] & _ & Hcov).
  { split; simpl; [by intros ? ? ? ?%elem_of_nil|].
    intros key Hin. by apply not_elem_of_empty in Hin. }
  intros u v w. unfold collect_edges. split.
  - intros Hentry.
    assert ({[u; v]} ∈ (foldl (λ st u, foldl (collect_step g u) st (neighbours g u))
                          ([], ∅) (vertices g)).2) as Hkey.
    { apply Hcov; [by eapply entry_vertex_l|].
      apply neighbours_entry; [done|by exists w]. }
    destruct (Hkeys _ Hkey) as (w' & a & b & Hab & Heq).
    pose proof (Hedges _ _ _ Hab) as Hentry'.
    symmetry in Heq. apply pair_set_eq in Heq as [[-> ->]|[-> ->]].
    + left. by rewrite (entry_functional g Hwf u v w w').
    + right. apply (entry_sym g Hwf) in Hentry'.
      by rewrite (entry_functional g Hwf u v w w').
  - intros [Hin|Hin]; [by apply Hedges|]. by apply (entry_sym g Hwf), Hedges.
Qed.

End collection.

Section sorting.
Implicit Types L : list Edge.

Lemma insert_by_weight_perm e L : insert_by_weight e L ≡ₚ e :: L.
Proof.
  induction L as [|h L IH]; simpl; [done|].
  destruct (edge_weight e <=? edge_weight h); [done|].
  rewrite IH. apply Permutation_swap.
Qed.

Lemma sort_by_weight_perm L : sort_by_weight L ≡ₚ L.
Proof.
  induction L as [|e L IH]; simpl; [done|].
  by rewrite insert_by_weight_perm, IH.
Qed.

Lemma insert_by_weight_sorted e L :
  StronglySorted weight_le L → StronglySorted weight_le (insert_by_weight e L).
Proof.
  induction 1 as [|h L Hs IH Hall]; simpl.
  - constructor; [constructor|constructor].
  - destruct (Z.leb_spec (edge_weight e) (edge_weight h)) as [Hle|Hgt].
    + constructor; [by constructor|]. constructor; [done|].
      eapply Forall_impl; [exact Hall|]. unfold weight_le. simpl. intros; lia.
    + constructor; [done|]. rewrite insert_by_weight_perm.
      constructor; [|done]. unfold weight_le. lia.
Qed.

Lemma sort_by_weight_sorted L : StronglySorted weight_le (sort_by_weight L).
Proof.
  induction L as [|e L IH]; simpl; [constructor|].
  by apply insert_by_weight_sorted.
Qed.

Lemma below_at_least_all t L :
  Forall (λ e, t ≤ edge_weight e) L → below t L = [] ∧ at_least t L = L.
Proof.
  unfold below, at_least. induction 1 as [|e L He _ [IH1 IH2]]; simpl; [done|].
  destruct (Z.ltb_spec (edge_weight e) t); [lia|].
  destruct (Z.leb_spec t (edge_weight e)); [|lia].
  by rewrite IH1, IH2.
Qed.

Lemma sorted_split t L :
  StronglySorted weight_le L → L = below t L ++ at_least t L.
Proof.
  induction 1 as [|e L Hs IH Hall]; [done|].
  destruct (Z.ltb_spec (edge_weight e) t) as [Hlt|Hge].
  - unfold below, at_least in *. simpl.
    apply Z.ltb_lt in Hlt as Hlt'. rewrite Hlt'.
    destruct (Z.leb_spec t (edge_weight e)); [lia|]. simpl. by f_equal.
  - destruct (below_at_least_all t (e :: L)) as [-> ->]; [|done].
    constructor; [done|]. eapply Forall_impl; [exact Hall|].
    unfold weight_le. simpl. intros; lia.
Qed.

End sorting.

(** * The edges of a graph *)

Section graph_edges.
Context (g : AdjacencyListGraph) (Hwf : wf_graph g).
Implicit Types u v x y : Coordinate.
Implicit Types L : list Edge.

Lemma edges_from_wf x l :
  adj_list g !! x = Some l →
  edges_from g x =
    (λ e, (e.2, x, e.1)) <$> List.filter (λ e, coord_ltb x e.1) l.
Proof.
  intros Hl. unfold edges_from, neighbours. rewrite Hl.
  assert (∀ l0, (∀ e, e ∈ l0 → e ∈ l) →
    (λ v, (getWeight g x v, x, v)) <$>
      List.filter (coord_ltb x) (List.filter (λ e, 0 <? e.2) l0).*1 =
    (λ e, (e.2, x, e.1)) <$> List.filter (λ e, coord_ltb x e.1) l0) as Hgen.
  { induction l0 as [|[y w] l0 IH]; intros Hsub; [done|].
    assert (entry g x y w) as Hentry.
    { exists l. split; [done|]. apply Hsub. by left. }
    pose proof (entry_pos g Hwf _ _ _ Hentry) as Hpos.
    apply Z.ltb_lt in Hpos.
    assert (∀ e, e ∈ l0 → e ∈ l) as Hsub' by (intros e He; apply Hsub; by right).
    specialize (IH Hsub'). simpl. rewrite Hpos. simpl.
    destruct (coord_ltb x y); simpl; [|exact IH].
    rewrite (getWeight_entry g Hwf _ _ _ Hentry). f_equal. exact IH. }
  by apply Hgen.
Qed.

Lemma edges_from_elem x w u v :
  (w, u, v) ∈ edges_from g x ↔
    x = u ∧ entry g u v w ∧ coord_ltb u v = true.
Proof.
  unfold edges_from. rewrite list_elem_of_fmap. split.
  - intros (y & [= -> -> ->] & [Hy Hlt]%elem_of_List_filter).
    split; [done|]. split; [|done].
    apply (neighbours_hasEdge g Hwf) in Hy.
    by apply hasEdge_getWeight_entry.
  - intros (-> & Hentry & Hlt). exists v.
    rewrite (getWeight_entry g Hwf _ _ _ Hentry). split; [done|].
    apply elem_of_List_filter. split; [|done].
    apply neighbours_entry; [done|by exists w].
Qed.

Lemma edges_elem w u v :
  (w, u, v) ∈ edges g ↔ entry g u v w ∧ coord_ltb u v = true.
Proof.
  unfold edges. rewrite list_elem_of_bind. split.
  - intros (x & (-> & ? & ?)%edges_from_elem & _). done.
  - intros [Hentry Hlt]. exists u. split; [by apply edges_from_elem|].
    by eapply entry_vertex_l.
Qed.

Lemma edge_list_of_edges : edge_list_of g (edges g).
Proof.
  intros u v w. rewrite !edges_elem. split.
  - intros Hentry.
    pose proof (isAdjacent_ne _ _ (entry_adjacent g Hwf _ _ _ Hentry)) as Hne.
    pose proof (coord_ltb_total u v Hne) as Htot.
    destruct (coord_ltb u v) eqn:Huv; [by left|].
    right. split; [by apply entry_sym|].
    destruct (coord_ltb v u); done.
  - intros [[? _]|[? _]]; [done|by apply entry_sym].
Qed.

Lemma connected_econn L x y :
  edge_list_of g L → connected g x y ↔ econn L x y.
Proof.
  intros HL. split.
  - intros H. induction H as [x|x x' y Hstep _ IH]; [apply econn_refl|].
    eapply econn_trans; [|exact IH].
    apply (hasEdge_entry g Hwf) in Hstep as [w Hw].
    apply HL in Hw as [Hw|Hw]; [by eapply econn_edge|].
    by eapply econn_sym, econn_edge.
  - intros H. induction H as [x|x x' y Hstep _ IH]; [apply rtc_refl|].
    eapply rtc_l; [|exact IH]. apply (hasEdge_entry g Hwf).
    destruct Hstep as [[w Hw]|[w Hw]]; exists w; apply HL; [by left|by right].
Qed.

Lemma connected_sym x y : connected g x y → connected g y x.
Proof.
  intros H. apply (connected_econn (edges g)); [apply edge_list_of_edges|].
  apply econn_sym. by apply (connected_econn (edges g)); [apply edge_list_of_edges|].
Qed.

Lemma edge_list_of_ends L w u v :
  edge_list_of g L → (w, u, v) ∈ L →
  u ∈ vertices g ∧ v ∈ vertices g ∧ isAdjacent u v = true ∧ 0 < w.
Proof.
  intros HL Hin. assert (entry g u v w) as Hentry by (apply HL; by left).
  split; [by eapply entry_vertex_l|]. split; [by eapply entry_vertex_r|].
  split; [by eapply entry_adjacent|by eapply entry_pos].
Qed.

End graph_edges.

Lemma edge_list_of_perm g (L L' : list Edge) :
  L ≡ₚ L' → edge_list_of g L → edge_list_of g L'.
Proof. intros HP HL u v w. rewrite <- !HP. apply HL. Qed.

(** * Building the result graph *)

Lemma bind_update_perm {X Y} (f f' : X → list Y) (l : list X) x extra :
  NoDup l → x ∈ l →
  (∀ y, y ∈ l → y ≠ x → f' y = f y) → f' x = f x ++ extra →
  l ≫= f' ≡ₚ (l ≫= f) ++ extra.
Proof.
  intros Hnd Hin Hother Hx. induction l as [|a l IH]; [by apply elem_of_nil in Hin|].
  apply NoDup_cons in Hnd as [Ha Hnd]. rewrite !bind_cons.
  apply elem_of_cons in Hin as [<-|Hin].
  - rewrite Hx. rewrite (Forall_bind_ext f' f l).
    + rewrite <- !(assoc_L (++)). f_equiv. apply Permutation_app_comm.
    + apply Forall_forall. intros y Hy. apply Hother; [by right|].
      intros ->. done.
  - rewrite Hother; [|by left|by intros ->].
    rewrite IH; [by rewrite (assoc_L (++))|done|done|].
    intros y Hy. apply Hother. by right.
Qed.

Section result_graph.
Implicit Types m : AdjacencyListGraph.
Implicit Types u v : Coordinate.
Implicit Types K acc : list Edge.

Lemma addVertices_spec m vs :
  NoDup vs → (∀ v, v ∈ vs → adj_list m !! v = None) →
  vertices (addVertices m vs) = vertices m ++ vs ∧
  (∀ z, adj_list (addVertices m vs) !! z =
          if decide (z ∈ vs) then Some [] else adj_list m !! z) ∧
  rows (addVertices m vs) = rows m ∧ cols (addVertices m vs) = cols m.
Proof.
  unfold addVertices. revert m.
  induction vs as [|x vs IH]; intros m Hnd Hfresh; simpl.
  - rewrite app_nil_r. done.
  - apply NoDup_cons in Hnd as [Hx Hnd].
    assert (adj_list m !! x = None) as Hxm by (apply Hfresh; by left).
    destruct (IH (addVertex m x) Hnd) as (Hv & Hadj & Hr & Hc).
    { intros v Hv. unfold addVertex. rewrite Hxm. simpl.
      rewrite lookup_insert_ne; [apply Hfresh; by right|]. by intros ->. }
    unfold addVertex in *. rewrite Hxm in *. simpl in *.
    split; [by rewrite Hv, <- app_assoc|]. split; [|done].
    intros z. rewrite Hadj. destruct (decide (z ∈ vs)) as [Hz|Hz].
    + rewrite decide_True; [done|by right].
    + rewrite lookup_insert. destruct (decide (x = z)) as [->|Hne].
      * rewrite decide_True; [done|by left].
      * rewrite decide_False; [done|]. rewrite not_elem_of_cons. done.
Qed.

Lemma mst_inv_init r c vs :
  NoDup vs → mst_inv vs [] (addVertices (__init__ r c) vs).
Proof.
  intros Hnd.
  destruct (addVertices_spec (__init__ r c) vs Hnd) as (Hv & Hadj & _).
  { intros v _. apply lookup_empty. }
  assert (wf_graph (addVertices (__init__ r c) vs)) as Hwf
    by apply wf_addVertices, wf_init.
  assert (∀ u v w, ¬ entry (addVertices (__init__ r c) vs) u v w) as Hno.
  { intros u v w (l & Hl & Hin). rewrite Hadj in Hl. simpl in Hl.
    rewrite lookup_empty in Hl. case_decide; [|done]. simplify_eq.
    by apply elem_of_nil in Hin. }
  split; [done|done| |].
  - intros u v w. split; [by intros ?%Hno|].
    by intros [?%elem_of_nil|?%elem_of_nil].
  - simpl. apply Permutation_nil_r.
    destruct (edges _) as [|[[w u] v] l] eqn:He; [done|].
    assert ((w, u, v) ∈ edges (addVertices (__init__ r c) vs)) as Hin
      by (rewrite He; by left).
    apply edges_elem in Hin as [Hentry _]; [|done]. by apply Hno in Hentry.
Qed.

Lemma entry_add_undirected m u v w lu lv x y z :
  u ≠ v → adj_list m !! u = Some lu → adj_list m !! v = Some lv →
  entry (add_undirected m u v w) x y z ↔
    entry m x y z ∨ (x = u ∧ y = v ∧ z = w) ∨ (x = v ∧ y = u ∧ z = w).
Proof.
  intros Hne Hu Hv. unfold entry.
  setoid_rewrite (add_undirected_lookup m u v w lu lv x Hne Hu Hv).
  destruct (decide (x = u)) as [->|Hxu]; [|destruct (decide (x = v)) as [->|Hxv]].
  - split.
    + intros (l & [= <-] & [Hin|[= -> ->]%list_elem_of_singleton]%elem_of_app);
        [left; by exists lu|by right; left].
    + intros [(l & Hl & Hin)|[(_ & -> & ->)|(-> & _)]]; [| |done].
      * assert (l = lu) as -> by congruence.
        exists (lu ++ [(v, w)]). split; [done|].
        apply elem_of_app. by left.
      * exists (lu ++ [(v, w)]). split; [done|]. apply elem_of_app. right. by left.
  - split.
    + intros (l & [= <-] & [Hin|[= -> ->]%list_elem_of_singleton]%elem_of_app);
        [left; by exists lv|by right; right].
    + intros [(l & Hl & Hin)|[(-> & _)|(_ & -> & ->)]]; [|done|].
      * assert (l = lv) as -> by congruence.
        exists (lv ++ [(u, w)]). split; [done|].
        apply elem_of_app. by left.
      * exists (lv ++ [(u, w)]). split; [done|]. apply elem_of_app. right. by left.
  - split; [by left|]. intros [?|[(-> & _)|(-> & _)]]; done.
Qed.

Lemma edges_add_undirected m u v w lu lv :
  wf_graph m → wf_graph (add_undirected m u v w) → u ≠ v →
  adj_list m !! u = Some lu → adj_list m !! v = Some lv →
  edges (add_undirected m u v w) ≡ₚ edges m ++ [normalize (w, u, v)].
Proof.
  intros Hwf Hwf' Hne Hu Hv.
  pose proof (λ x, add_undirected_lookup m u v w lu lv x Hne Hu Hv) as Hlk.
  set (m' := add_undirected m u v w) in *.
  set (eu := if coord_ltb u v then [(w, u, v)] else [] : list Edge).
  set (ev := if coord_ltb v u then [(w, v, u)] else [] : list Edge).
  assert (edges_from m' u = edges_from m u ++ eu) as Hfu.
  { rewrite (edges_from_wf m' Hwf' u (lu ++ [(v, w)]))
      by (by rewrite Hlk, decide_True).
    rewrite (edges_from_wf m Hwf u lu Hu).
    rewrite List.filter_app, fmap_app. f_equal. simpl. unfold eu.
    by destruct (coord_ltb u v). }
  assert (edges_from m' v = edges_from m v ++ ev) as Hfv.
  { rewrite (edges_from_wf m' Hwf' v (lv ++ [(u, w)])).
    2:{ rewrite Hlk, decide_False by done. by rewrite decide_True. }
    rewrite (edges_from_wf m Hwf v lv Hv).
    rewrite List.filter_app, fmap_app. f_equal. simpl. unfold ev.
    by destruct (coord_ltb v u). }
  assert (∀ x, x ≠ u → x ≠ v → edges_from m' x = edges_from m x) as Hfx.
  { intros x Hxu Hxv. unfold edges_from, neighbours, getWeight, _get_edge.
    by rewrite Hlk, !decide_False by done. }
  assert (u ∈ vertices m) as Huin by (apply (wf_dom m Hwf); eauto).
  assert (v ∈ vertices m) as Hvin by (apply (wf_dom m Hwf); eauto).
  set (f1 := λ x, if decide (x = u) then edges_from m' u else edges_from m x).
  unfold edges. change (vertices m') with (vertices m).
  rewrite (bind_update_perm f1 (edges_from m') (vertices m) v ev);
    [|apply Hwf|done| |].
  - rewrite (bind_update_perm (edges_from m) f1 (vertices m) u eu);
      [|apply Hwf|done| |].
    + rewrite <- (assoc_L (++)). f_equiv.
      unfold eu, ev, normalize, edge_src, edge_dst, edge_weight. simpl.
      rewrite (coord_ltb_total v u) by done.
      by destruct (coord_ltb u v).
    + intros y _ Hy. unfold f1. by rewrite decide_False.
    + unfold f1. by rewrite decide_True.
  - intros y _ Hy. unfold f1. case_decide as Hyu; [by subst|]. by apply Hfx.
  - unfold f1. rewrite decide_False by done. done.
Qed.

Lemma mst_inv_step vs acc m w u v :
  mst_inv vs acc m → u ∈ vs → v ∈ vs → isAdjacent u v = true → 0 < w →
  ¬ econn acc u v →
  mst_inv vs (acc ++ [(w, u, v)]) (addEdge m u v w).2.
Proof.
  intros [Hwf Hvs Hedges Hperm] Hu Hv Hadj Hw Hfresh.
  pose proof (isAdjacent_ne _ _ Hadj) as Hne.
  assert (is_Some (adj_list m !! u)) as [lu Hlu]
    by (apply (wf_dom m Hwf); by rewrite Hvs).
  assert (is_Some (adj_list m !! v)) as [lv Hlv]
    by (apply (wf_dom m Hwf); by rewrite Hvs).
  assert (_get_edge m u v = None) as Hnone.
  { destruct (_get_edge m u v) as [e|] eqn:He; [exfalso|done].
    unfold _get_edge in He. rewrite Hlu in He.
    apply find_edge_Some in He as [Hin <-]. apply Hfresh.
    assert (entry m u e.1 e.2) as Hentry by (exists lu; by destruct e).
    apply Hedges in Hentry as [?|?];
      [by eapply econn_edge|by eapply econn_sym, econn_edge]. }
  pose proof (wf_addEdge m u v w Hwf) as Hwf'.
  rewrite addEdge_unfold in *. unfold hasVertex in *.
  rewrite !bool_decide_eq_true_2 in * by eauto. rewrite Hadj in *.
  apply Z.ltb_lt in Hw as Hw'. rewrite Hw' in *. simpl in *.
  split; [done|done| |].
  - intros x y z. rewrite (entry_add_undirected m u v w lu lv) by done.
    rewrite (Hedges x y z), !elem_of_app, !list_elem_of_singleton.
    split.
    + intros [[?|?]|[(-> & -> & ->)|(-> & -> & ->)]]; auto.
    + intros [[?|[= -> -> ->]]|[?|[= -> -> ->]]]; auto.
  - rewrite (edges_add_undirected m u v w lu lv) by done.
    by rewrite fmap_app, Hperm.
Qed.

Lemma add_edges_snoc m K e :
  add_edges m (K ++ [e]) =
    (addEdge (add_edges m K) (edge_src e) (edge_dst e) (edge_weight e)).2.
Proof. unfold add_edges. by rewrite foldl_snoc. Qed.

Lemma add_edges_inv vs m K :
  independent K →
  (∀ w u v, (w, u, v) ∈ K →
     u ∈ vs ∧ v ∈ vs ∧ isAdjacent u v = true ∧ 0 < w) →
  mst_inv vs [] m → mst_inv vs K (add_edges m K).
Proof.
  intros Hind Hends Hinit. induction Hind as [|K w u v Hind IH Hfresh]; [done|].
  rewrite add_edges_snoc. simpl.
  destruct (Hends w u v) as (Hu & Hv & Hadj & Hw).
  { apply elem_of_app. right. by left. }
  apply mst_inv_step; try done. apply IH.
  intros w' u' v' Hin. apply Hends. apply elem_of_app. by left.
Qed.

End result_graph.

(** * [kruskalMST] on the store *)

Section store.
Implicit Types σ : Store.
Implicit Types m g : AdjacencyListGraph.

Lemma store_snoc_lookup σ g : (σ ++ [g]) !! length σ = Some g.
Proof. by apply list_lookup_middle. Qed.

Lemma store_snoc_insert σ g g' : <[length σ := g']> (σ ++ [g]) = σ ++ [g'].
Proof.
  rewrite insert_app_r_alt by done. by rewrite Nat.sub_diag.
Qed.

Lemma addEdge_shape m u v w :
  rows (addEdge m u v w).2 = rows m ∧ cols (addEdge m u v w).2 = cols m.
Proof. rewrite addEdge_unfold. by destruct (_ && _). Qed.

Lemma addVertices_shape m vs :
  rows (addVertices m vs) = rows m ∧ cols (addVertices m vs) = cols m.
Proof.
  unfold addVertices. revert m. induction vs as [|x vs IH]; intros m; [done|].
  simpl. destruct (IH (addVertex m x)) as [-> ->].
  unfold addVertex. by destruct (adj_list m !! x).
Qed.

Lemma add_edges_shape m K :
  rows (add_edges m K) = rows m ∧ cols (add_edges m K) = cols m.
Proof.
  unfold add_edges. revert m. induction K as [|e K IH]; intros m; [done|].
  simpl. destruct (IH (addEdge m (edge_src e) (edge_dst e) (edge_weight e)).2)
    as [-> ->]. apply addEdge_shape.
Qed.

(** The final loop writes only to the result object. *)
Lemma kruskal_loop_run fuel mst E P σ m K P' :
  σ !! mst = Some m → uf_run fuel E P = Some (K, P') →
  kruskal_loop fuel mst E P σ = Some (<[mst := add_edges m K]> σ).
Proof.
  revert P σ m K. induction E as [|[[w u] v] E IH]; intros P σ m K Hm; simpl.
  - intros [= <- <-]. simpl. by rewrite list_insert_id.
  - destruct (union fuel u v P) as [[ok P1]|]; simpl; [|done].
    destruct (uf_run fuel E P1) as [[K1 P2]|] eqn:Hrun; simpl; [|done].
    intros [= <- <-]. pose proof (lookup_lt_Some _ _ _ Hm) as Hlt.
    destruct ok; simpl.
    + unfold store_update. rewrite Hm. simpl.
      rewrite (IH P1 _ (addEdge m u v w).2 K1);
        [|by apply list_lookup_insert_eq|done].
      by rewrite list_insert_insert_eq.
    + by apply IH.
Qed.

Lemma kruskal_loop_frame fuel mst E P σ σ' :
  kruskal_loop fuel mst E P σ = Some σ' →
  length σ' = length σ ∧
  (∀ r, r ≠ mst → σ' !! r = σ !! r) ∧
  (∀ m, σ !! mst = Some m →
        ∃ m', σ' !! mst = Some m' ∧ rows m' = rows m ∧ cols m' = cols m).
Proof.
  revert P σ. induction E as [|[[w u] v] E IH]; intros P σ; simpl.
  - intros [= <-]. split; [done|]. split; [done|]. intros m Hm. by exists m.
  - destruct (union fuel u v P) as [[ok P1]|]; simpl; [|done].
    destruct ok; simpl; [|by apply IH].
    unfold store_update. destruct (σ !! mst) as [m0|] eqn:Hm0; simpl; [|done].
    intros (Hlen & Hother & Hshape)%IH.
    rewrite length_insert in Hlen. split; [done|]. split.
    + intros r Hr. rewrite Hother by done. by rewrite list_lookup_insert_ne.
    + intros m [= <-]. pose proof (lookup_lt_Some _ _ _ Hm0) as Hlt.
      destruct (Hshape (addEdge m0 u v w).2) as (m' & Hm' & Hr & Hc);
        [by apply list_lookup_insert_eq|].
      exists m'. split; [done|].
      destruct (addEdge_shape m0 u v w) as [Hr0 Hc0]. split; congruence.
Qed.

(** The call on a well-formed graph, with all that the proofs below need:
    [E] is the sorted edge list, [K] the accepted edges, [m] the result. *)
Lemma kruskalMST_result fuel graph σ g :
  σ !! graph = Some g → wf_graph g → (length (vertices g) ≤ fuel)%nat →
  ∃ E K P' m,
    edge_list_of g E ∧ StronglySorted weight_le E ∧
    uf_run fuel E (init_parent (vertices g)) = Some (K, P') ∧
    uf_inv (vertices g) E K P' ∧ K `sublist_of` E ∧
    kruskalMST fuel graph σ = Some (length σ, σ ++ [m]) ∧
    mst_inv (vertices g) K m ∧ rows m = rows g ∧ cols m = cols g.
Proof.
  intros Hg Hwf Hfuel.
  set (E := sort_by_weight (collect_edges g (vertices g))).
  assert (edge_list_of g E) as HE.
  { eapply edge_list_of_perm; [symmetry; apply sort_by_weight_perm|].
    by apply collect_edges_spec. }
  destruct (uf_run_total (vertices g) E fuel) as (K & P' & Hrun & Hinv & Hsub);
    [apply Hwf|done| |].
  { intros w u v Hin.
    destruct (edge_list_of_ends g Hwf E w u v HE Hin) as (? & ? & _). done. }
  set (m0 := addVertices (__init__ (rows g) (cols g)) (vertices g)).
  assert (mst_inv (vertices g) [] m0) as Hm0 by (apply mst_inv_init, Hwf).
  assert (mst_inv (vertices g) K (add_edges m0 K)) as HmK.
  { apply add_edges_inv; [by eapply ui_indep| |done].
    intros w u v Hin. apply (edge_list_of_ends g Hwf E w u v HE).
    eapply ui_sub; [exact Hinv|done]. }
  exists E, K, P', (add_edges m0 K).
  split; [done|]. split; [apply sort_by_weight_sorted|].
  do 3 (split; [done|]). split; [|split; [done|]].
  - pose proof (lookup_lt_Some _ _ _ Hg) as Hlt.
    unfold kruskalMST. rewrite Hg. simpl. case_bool_decide as Hvs.
    + unfold getVertices in Hvs. unfold alloc. do 3 f_equal.
      assert (K = []) as ->.
      { subst E. rewrite Hvs in Hsub. simpl in Hsub.
        by apply sublist_nil_r in Hsub. }
      subst m0. by rewrite Hvs.
    + unfold alloc. rewrite lookup_app_l by done. rewrite Hg. simpl.
      unfold store_update at 1. rewrite store_snoc_lookup. simpl.
      rewrite store_snoc_insert. rewrite lookup_app_l by done.
      rewrite Hg. simpl. unfold getVertices. fold m0. fold E.
      rewrite (kruskal_loop_run fuel (length σ) E _ _ m0 K P');
        [|apply store_snoc_lookup|done].
      simpl. by rewrite store_snoc_insert.
  - destruct (add_edges_shape m0 K) as [-> ->].
    subst m0. by destruct (addVertices_shape (__init__ (rows g) (cols g)) (vertices g)).
Qed.

End store.

(** * Claims about [kruskalMST] *)

(** C9. On an input without vertices [kruskalMST] returns a new graph with
    the rows and cols of the input, no vertices and no edges. *)
Theorem kruskalMST_empty_graph (fuel graph : nat) (σ : Store)
    (g : AdjacencyListGraph) :
  σ !! graph = Some g → getVertices g = [] →
  ∃ mst σ' m,
    kruskalMST fuel graph σ = Some (mst, σ') ∧ σ' !! mst = Some m ∧
    rows m = rows g ∧ cols m = cols g ∧
    getVertices m = [] ∧ edge_count m = 0%nat ∧
    (∀ u v, hasEdge m u v = false) ∧ (∀ u, hasVertex m u = false).
Proof.
  intros Hg Hvs. exists (length σ), (σ ++ [__init__ (rows g) (cols g)]),
    (__init__ (rows g) (cols g)).
  split.
  - unfold kruskalMST. rewrite Hg. simpl. by rewrite bool_decide_eq_true_2.
  - split; [apply store_snoc_lookup|]. do 5 (split; [done|]).
    intros u. unfold hasVertex. simpl. rewrite lookup_empty.
    apply bool_decide_eq_false_2. by intros [? ?].
Qed.

Lemma kruskalMST_empty_graph_witness :
  [__init__ 3 4] !! 0%nat = Some (__init__ 3 4) ∧
  getVertices (__init__ 3 4) = [] ∧
  ∃ mst σ' m,
    kruskalMST 0 0 [__init__ 3 4] = Some (mst, σ') ∧ σ' !! mst = Some m ∧
    rows m = rows (__init__ 3 4) ∧ cols m = cols (__init__ 3 4) ∧
    getVertices m = [] ∧ edge_count m = 0%nat ∧
    (∀ u v, hasEdge m u v = false) ∧ (∀ u, hasVertex m u = false).
Proof.
  split; [reflexivity|]. split; [reflexivity|].
  apply (kruskalMST_empty_graph 0 0 [__init__ 3 4] (__init__ 3 4));
    reflexivity.
Defined.

(** C5. A call of [kruskalMST] that returns hands back a reference that was
    not in use before, leaves every object of the store, the input among
    them, as it was, and the new object has the rows and cols of the input;
    on a well-formed input the call does return once the fuel covers the
    number of vertices. *)
Theorem kruskalMST_frame (fuel graph : nat) (σ : Store)
    (g : AdjacencyListGraph) :
  σ !! graph = Some g →
  (wf_graph g → (length (vertices g) ≤ fuel)%nat →
     is_Some (kruskalMST fuel graph σ)) ∧
  ∀ mst σ', kruskalMST fuel graph σ = Some (mst, σ') →
    σ !! mst = None ∧ mst ≠ graph ∧
    (∀ r h, σ !! r = Some h → σ' !! r = Some h) ∧
    σ' !! graph = Some g ∧
    ∃ m, σ' !! mst = Some m ∧ rows m = rows g ∧ cols m = cols g.
Proof.
  intros Hg. split.
  { intros Hwf Hfuel.
    destruct (kruskalMST_result fuel graph σ g Hg Hwf Hfuel)
      as (E & K & P' & m & _ & _ & _ & _ & _ & -> & _). eauto. }
  pose proof (lookup_lt_Some _ _ _ Hg) as Hlt.
  assert (∀ mst (σ' : Store) m, mst = length σ →
            (∀ r, r ≠ mst → σ' !! r = (σ ++ [m]) !! r) →
            σ !! mst = None ∧ mst ≠ graph ∧
            (∀ r h, σ !! r = Some h → σ' !! r = Some h) ∧
            σ' !! graph = Some g) as Hframe.
  { intros mst σ' m -> Hother. split; [by apply lookup_ge_None_2|].
    split; [lia|].
    assert (∀ r h, σ !! r = Some h → σ' !! r = Some h) as Hold.
    { intros r h Hr. pose proof (lookup_lt_Some _ _ _ Hr).
      rewrite Hother by lia. by rewrite lookup_app_l. }
    split; [done|]. by apply Hold. }
  intros mst σ'. unfold kruskalMST. rewrite Hg. simpl.
  case_bool_decide as Hvs.
  - unfold alloc. intros [= <- <-].
    destruct (Hframe (length σ) (σ ++ [__init__ (rows g) (cols g)])
                (__init__ (rows g) (cols g))) as (? & ? & ? & ?); [done|done|].
    do 4 (split; [done|]). exists (__init__ (rows g) (cols g)).
    split; [apply store_snoc_lookup|done].
  - unfold alloc. rewrite lookup_app_l by done. rewrite Hg. simpl.
    unfold store_update at 1. rewrite store_snoc_lookup. simpl.
    rewrite store_snoc_insert. rewrite lookup_app_l by done.
    rewrite Hg. simpl.
    destruct (kruskal_loop _ _ _ _ _) as [σ3|] eqn:Hloop; simpl; [|done].
    intros [= <- <-].
    apply kruskal_loop_frame in Hloop as (Hlen & Hother & Hshape).
    destruct (Hframe (length σ) σ3 _ eq_refl Hother) as (? & ? & ? & ?).
    do 4 (split; [done|]).
    destruct (Hshape _ (store_snoc_lookup σ _)) as (m' & Hm' & Hr & Hc).
    exists m'. split; [done|].
    destruct (addVertices_shape (__init__ (rows g) (cols g)) (getVertices g))
      as [Hr0 Hc0].
    split; [by rewrite Hr, Hr0|by rewrite Hc, Hc0].
Qed.

Lemma kruskalMST_frame_witness :
  [square_graph] !! 0%nat = Some square_graph ∧
  (wf_graph square_graph → (length (vertices square_graph) ≤ 4)%nat →
     is_Some (kruskalMST 4 0 [square_graph])) ∧
  ∀ mst σ', kruskalMST 4 0 [square_graph] = Some (mst, σ') →
    [square_graph] !! mst = None ∧ mst ≠ 0%nat ∧
    (∀ r h, [square_graph] !! r = Some h → σ' !! r = Some h) ∧
    σ' !! 0%nat = Some square_graph ∧
    ∃ m, σ' !! mst = Some m ∧
         rows m = rows square_graph ∧ cols m = cols square_graph.
Proof.
  split; [reflexivity|].
  apply (kruskalMST_frame 4 0 [square_graph] square_graph). reflexivity.
Defined.

Lemma connected_trans g x y z :
  connected g x y → connected g y z → connected g x z.
Proof. unfold connected. intros H1 H2. by etrans. Qed.

Lemma component_reps_length g E K P' reps :
  wf_graph g → edge_list_of g E → uf_inv (vertices g) E K P' →
  component_reps g reps →
  (length reps + length K = length (vertices g))%nat.
Proof.
  intros Hwf HE Hinv Hreps.
  pose proof (uf_inv_reps _ _ _ _ (wf_nodup g Hwf) Hinv) as Hroots.
  rewrite <- (ui_count _ _ _ _ Hinv). f_equal.
  eapply (reps_of_length_eq (connected g) (econn E)); [..|exact Hreps|exact Hroots].
  - intros x y. by apply connected_sym.
  - intros x y z. apply connected_trans.
  - apply econn_symmetric.
  - apply econn_transitive.
  - intros x y _ _. by apply connected_econn.
Qed.

Lemma mst_inv_edge_count vs K m : mst_inv vs K m → edge_count m = length K.
Proof.
  intros Hm. unfold edge_count. rewrite (mi_perm _ _ _ Hm).
  by rewrite length_fmap.
Qed.

(** C1. On a well-formed graph [kruskalMST] returns a well-formed graph on
    the same vertices with exactly [|V| - c] edges, [c] being the number of
    connected components of the input (which exists); for a connected input
    that is [|V| - 1]. *)
Theorem kruskalMST_edge_count (fuel graph : nat) (σ : Store)
    (g : AdjacencyListGraph) :
  σ !! graph = Some g → wf_graph g → (length (vertices g) ≤ fuel)%nat →
  ∃ mst σ' m,
    kruskalMST fuel graph σ = Some (mst, σ') ∧ σ' !! mst = Some m ∧
    wf_graph m ∧ getVertices m = getVertices g ∧
    (∃ c, num_components g c) ∧
    (∀ c, num_components g c →
          edge_count m = (length (vertices g) - c)%nat) ∧
    (vertices g ≠ [] →
     (∀ u v, u ∈ vertices g → v ∈ vertices g → connected g u v) →
     edge_count m = (length (vertices g) - 1)%nat).
Proof.
  intros Hg Hwf Hfuel.
  destruct (kruskalMST_result fuel graph σ g Hg Hwf Hfuel)
    as (E & K & P' & m & HE & _ & _ & Hinv & _ & Hcall & Hm & _).
  exists (length σ), (σ ++ [m]), m.
  split; [done|]. split; [apply store_snoc_lookup|].
  split; [apply Hm|]. split; [apply Hm|].
  rewrite (mst_inv_edge_count _ _ _ Hm).
  assert (∀ c, num_components g c → length K = (length (vertices g) - c)%nat)
    as Hcount.
  { intros c (reps & Hreps & <-).
    pose proof (component_reps_length g E K P' reps Hwf HE Hinv Hreps). lia. }
  split; [|split; [done|]].
  - exists (length (uf_roots P' (vertices g))), (uf_roots P' (vertices g)).
    split; [|done].
    pose proof (uf_inv_reps _ _ _ _ (wf_nodup g Hwf) Hinv) as [H1 H2 H3 H4].
    split; [done|done| |].
    + intros v Hv. destruct (H3 v Hv) as (r & Hr & Hvr). exists r.
      split; [done|]. by apply (connected_econn g Hwf E).
    + intros r1 r2 Hr1 Hr2 Hconn. apply H4; [done|done|].
      by apply (connected_econn g Hwf E).
  - intros Hne Hconn. apply Hcount.
    destruct (vertices g) as [|x vs] eqn:Hvs; [done|].
    exists [x]. split; [|done]. split.
    + apply NoDup_singleton.
    + intros r ->%list_elem_of_singleton. rewrite Hvs. by left.
    + intros v Hv. exists x. split; [by left|].
      rewrite Hvs in Hv. apply Hconn; [done|by left].
    + by intros r1 r2 ->%list_elem_of_singleton ->%list_elem_of_singleton _.
Qed.

Lemma square_graph_wf : wf_graph square_graph.
Proof. apply wf_reachable, square_graph_reachable. Qed.

Lemma kruskalMST_edge_count_witness :
  [square_graph] !! 0%nat = Some square_graph ∧ wf_graph square_graph ∧
  (length (vertices square_graph) ≤ 4)%nat ∧
  ∃ mst σ' m,
    kruskalMST 4 0 [square_graph] = Some (mst, σ') ∧ σ' !! mst = Some m ∧
    wf_graph m ∧ getVertices m = getVertices square_graph ∧
    (∃ c, num_components square_graph c) ∧
    (∀ c, num_components square_graph c →
          edge_count m = (length (vertices square_graph) - c)%nat) ∧
    (vertices square_graph ≠ [] →
     (∀ u v, u ∈ vertices square_graph → v ∈ vertices square_graph →
             connected square_graph u v) →
     edge_count m = (length (vertices square_graph) - 1)%nat).
Proof.
  split; [reflexivity|]. split; [exact square_graph_wf|].
  split; [vm_compute; lia|].
  apply (kruskalMST_edge_count 4 0 [square_graph] square_graph);
    [reflexivity|exact square_graph_wf|vm_compute; lia].
Defined.

(** * Total weight by levels *)

Section weights.
Implicit Types L K : list Edge.

Lemma weight_sum_cons e L : weight_sum (e :: L) = edge_weight e + weight_sum L.
Proof. done. Qed.

Lemma weight_sum_perm L L' : L ≡ₚ L' → weight_sum L = weight_sum L'.
Proof.
  induction 1 as [|e L L' _ IH|e1 e2 L|L1 L2 L3 _ IH1 _ IH2];
    rewrite ?weight_sum_cons; [done|by rewrite IH|lia|congruence].
Qed.

Lemma weight_sum_normalize K : weight_sum (normalize <$> K) = weight_sum K.
Proof.
  induction K as [|[[w u] v] K IH]; [done|].
  rewrite fmap_cons, !weight_sum_cons, IH. f_equal.
  unfold normalize, edge_weight, edge_src, edge_dst. simpl.
  by destruct (coord_ltb _ _).
Qed.

Lemma sum_list_with_pointwise {X} (a b : X → nat) (l : list X) :
  (∀ x, a x = b x) → sum_list_with a l = sum_list_with b l.
Proof. intros Hab. induction l as [|x l IH]; simpl; [done|]. by rewrite Hab, IH. Qed.

Lemma sum_list_with_add {X} (a b : X → nat) (l : list X) :
  sum_list_with (λ x, a x + b x)%nat l =
    (sum_list_with a l + sum_list_with b l)%nat.
Proof. induction l as [|x l IH]; simpl; [done|]. rewrite IH. lia. Qed.

Lemma sum_list_with_le {X} (a b : X → nat) (l : list X) :
  (∀ x, x ∈ l → (a x ≤ b x)%nat) →
  (sum_list_with a l ≤ sum_list_with b l)%nat.
Proof.
  induction l as [|x l IH]; intros Hle; simpl; [done|].
  pose proof (Hle x (list_elem_of_here _ _)).
  assert (sum_list_with a l ≤ sum_list_with b l)%nat
    by (apply IH; intros y Hy; apply Hle; by right).
  lia.
Qed.

Lemma level_indicator (x : Z) (W : nat) :
  0 ≤ x →
  Z.of_nat (sum_list_with (λ k, if Z.of_nat k <=? x then 1%nat else 0%nat)
              (seq 1 W))
    = Z.min x (Z.of_nat W).
Proof.
  intros Hx. induction W as [|W IH]; [simpl; lia|].
  rewrite seq_S, sum_list_with_app. simpl.
  rewrite Nat2Z.inj_add, IH.
  destruct (Z.leb_spec (Z.of_nat (S W)) x); simpl; lia.
Qed.

Lemma weight_sum_levels W L :
  (∀ e, e ∈ L → 0 ≤ edge_weight e ≤ Z.of_nat W) →
  weight_sum L = Z.of_nat (level_sum W L).
Proof.
  unfold level_sum. induction L as [|e L IH]; intros Hbound.
  - simpl. induction (seq 1 W) as [|k l IHl]; [done|]. simpl. by rewrite <- IHl.
  - destruct (Hbound e (list_elem_of_here _ _)) as [H0 HW].
    rewrite (sum_list_with_pointwise _
      (λ k, Nat.add (if Z.of_nat k <=? edge_weight e then 1%nat else 0%nat)
                    (length (at_least (Z.of_nat k) L)))).
    + rewrite sum_list_with_add, Nat2Z.inj_add, level_indicator by done.
      rewrite <- IH by (intros e' He'; apply Hbound; by right).
      rewrite weight_sum_cons. lia.
    + intros k. unfold at_least. simpl.
      by destruct (Z.of_nat k <=? edge_weight e).
Qed.

Lemma weight_bound L : ∃ W : nat, ∀ e, e ∈ L → edge_weight e ≤ Z.of_nat W.
Proof.
  induction L as [|e L [W HW]]; [exists 0%nat; by intros e ?%elem_of_nil|].
  exists (W `max` Z.to_nat (edge_weight e))%nat.
  intros e' [->|He']%elem_of_cons; [lia|]. specialize (HW e' He'). lia.
Qed.

(** Fewer edges at every level means less weight. *)
Lemma weight_sum_dominated K L :
  (∀ e, e ∈ K → 0 ≤ edge_weight e) → (∀ e, e ∈ L → 0 ≤ edge_weight e) →
  (∀ t, (length (at_least t K) ≤ length (at_least t L))%nat) →
  weight_sum K ≤ weight_sum L.
Proof.
  intros HK HL Hdom.
  destruct (weight_bound K) as [W1 HW1]. destruct (weight_bound L) as [W2 HW2].
  rewrite (weight_sum_levels (W1 `max` W2) K), (weight_sum_levels (W1 `max` W2) L).
  - apply Nat2Z.inj_le. apply sum_list_with_le. intros k _. apply Hdom.
  - intros e He. specialize (HL e He). specialize (HW2 e He). lia.
  - intros e He. specialize (HK e He). specialize (HW1 e He). lia.
Qed.

End weights.

(** * Kruskal's run level by level *)

Section levels.
Implicit Types L K E FL : list Edge.
Implicit Types vs : list Coordinate.

Lemma below_elem t L e : e ∈ below t L ↔ e ∈ L ∧ edge_weight e < t.
Proof. unfold below. by rewrite elem_of_List_filter, Z.ltb_lt. Qed.

Lemma at_least_elem t L e : e ∈ at_least t L ↔ e ∈ L ∧ t ≤ edge_weight e.
Proof. unfold at_least. by rewrite elem_of_List_filter, Z.leb_le. Qed.

Lemma at_least_none t L : (∀ e, e ∈ L → edge_weight e < t) → at_least t L = [].
Proof.
  unfold at_least. induction L as [|e L IH]; intros Hall; simpl; [done|].
  pose proof (Hall e (list_elem_of_here _ _)).
  destruct (Z.leb_spec t (edge_weight e)); [lia|].
  apply IH. intros e' He'. apply Hall. by right.
Qed.

Lemma at_least_every t L : (∀ e, e ∈ L → t ≤ edge_weight e) → at_least t L = L.
Proof.
  intros Hall. apply below_at_least_all. by apply Forall_forall.
Qed.

Lemma at_least_app t L1 L2 :
  at_least t (L1 ++ L2) = at_least t L1 ++ at_least t L2.
Proof. apply List.filter_app. Qed.

Lemma split_elem t L e : e ∈ below t L ++ at_least t L ↔ e ∈ L.
Proof.
  rewrite elem_of_app, below_elem, at_least_elem.
  destruct (Z.lt_ge_cases (edge_weight e) t); intuition lia.
Qed.

(** The number of accepted edges depends only on the connectivity. *)
Lemma uf_inv_count_le vs L1 K1 P1 L2 K2 P2 :
  NoDup vs → uf_inv vs L1 K1 P1 → uf_inv vs L2 K2 P2 →
  (∀ x y, econn L1 x y → econn L2 x y) →
  (length K1 ≤ length K2)%nat.
Proof.
  intros Hnd H1 H2 Hsub.
  pose proof (uf_inv_reps _ _ _ _ Hnd H1) as Hr1.
  pose proof (uf_inv_reps _ _ _ _ Hnd H2) as Hr2.
  pose proof (reps_of_length_le (econn L1) (econn L2) vs _ _
                (econn_symmetric L1) (econn_transitive L1)
                (λ x y _ _, Hsub x y) Hr1 Hr2) as Hle.
  pose proof (ui_count _ _ _ _ H1). pose proof (ui_count _ _ _ _ H2). lia.
Qed.

Lemma uf_run_split vs fuel A B :
  NoDup vs → (length vs ≤ fuel)%nat →
  (∀ w u v, (w, u, v) ∈ A ++ B → u ∈ vs ∧ v ∈ vs) →
  ∃ K1 P1 K2 P2,
    uf_run fuel A (init_parent vs) = Some (K1, P1) ∧
    uf_run fuel (A ++ B) (init_parent vs) = Some (K1 ++ K2, P2) ∧
    uf_inv vs A K1 P1 ∧ uf_inv vs (A ++ B) (K1 ++ K2) P2 ∧
    K1 `sublist_of` A ∧ K2 `sublist_of` B.
Proof.
  intros Hnd Hfuel Hends.
  destruct (uf_run_total vs A fuel Hnd Hfuel) as (K1 & P1 & Hrun1 & Hinv1 & Hsub1).
  { intros w u v Hin. apply (Hends w). apply elem_of_app. by left. }
  destruct (uf_run_inv vs B A K1 P1 fuel Hnd Hfuel) as (K2 & P2 & Hrun2 & Hinv2 & Hsub2);
    [|done|].
  { intros w u v Hin. apply (Hends w). apply elem_of_app. by right. }
  exists K1, P1, K2, P2. split; [done|]. split; [|done].
  rewrite uf_run_app, Hrun1. simpl. by rewrite Hrun2.
Qed.

(** At every level the run accepts no more edges than any edge list [FL]
    that is drawn from [E] and keeps its connectivity. *)
Lemma kruskal_levels vs fuel E K P' FL t :
  NoDup vs → (length vs ≤ fuel)%nat →
  (∀ w u v, (w, u, v) ∈ E → u ∈ vs ∧ v ∈ vs) →
  StronglySorted weight_le E →
  uf_run fuel E (init_parent vs) = Some (K, P') →
  (∀ w u v, (w, u, v) ∈ FL → (w, u, v) ∈ E ∨ (w, v, u) ∈ E) →
  (∀ x y, econn E x y → econn FL x y) →
  (length (at_least t K) ≤ length (at_least t FL))%nat.
Proof.
  intros Hnd Hfuel Hends Hsorted Hrun HFL Hspan.
  pose proof (sorted_split t E Hsorted) as HE.
  destruct (uf_run_split vs fuel (below t E) (at_least t E) Hnd Hfuel)
    as (K1 & P1 & K2 & P2 & _ & HrunE & Hinv1 & HinvE & Hsub1 & Hsub2).
  { rewrite <- HE. exact Hends. }
  rewrite <- HE in HrunE, HinvE. rewrite Hrun in HrunE.
  injection HrunE as -> ->.
  assert (∀ w u v, (w, u, v) ∈ FL → u ∈ vs ∧ v ∈ vs) as HendsF.
  { intros w u v [Hin|Hin]%HFL; destruct (Hends _ _ _ Hin); done. }
  destruct (uf_run_split vs fuel (below t FL) (at_least t FL) Hnd Hfuel)
    as (J1 & Q1 & J2 & Q2 & _ & _ & HinvF1 & HinvF & _ & HsubF2).
  { intros w u v Hin%split_elem. by eapply HendsF. }
  assert (length J1 ≤ length K1)%nat as Hlow.
  { eapply (uf_inv_count_le vs _ J1 Q1 _ K1 P1); [done|done|done|].
    intros x y. apply econn_subrel. intros a b [w [Hin Hw]%below_elem].
    apply HFL in Hin as [Hin|Hin].
    - eapply econn_edge. apply below_elem. split; [exact Hin|done].
    - eapply econn_sym, econn_edge. apply below_elem. split; [exact Hin|done]. }
  assert (length (K1 ++ K2) ≤ length (J1 ++ J2))%nat as Hall.
  { eapply (uf_inv_count_le vs _ _ P2 _ _ Q2); [done|done|done|].
    intros x y Hxy%Hspan. eapply econn_mono; [|exact Hxy].
    intros e He. by apply split_elem. }
  rewrite !length_app in Hall.
  rewrite at_least_app, length_app.
  rewrite (at_least_none t K1).
  2:{ intros e He. eapply elem_of_sublist in He; [|exact Hsub1].
      by apply below_elem in He as [_ ?]. }
  pose proof (sublist_length _ _ HsubF2) as HlenF2.
  assert (length (at_least t K2) ≤ length K2)%nat as HlenK2.
  { unfold at_least. apply List.filter_length_le. }
  simpl. lia.
Qed.

End levels.

(** * The result is a spanning forest *)

Section forest.
Implicit Types m g : AdjacencyListGraph.
Implicit Types u v x y : Coordinate.
Implicit Types K E : list Edge.

Lemma entry_remove_both m u v lu lv x y z :
  u ≠ v → adj_list m !! u = Some lu → adj_list m !! v = Some lv →
  entry (set_adj_list m (<[v := without u lv]> (<[u := without v lu]> (adj_list m))))
        x y z ↔
    entry m x y z ∧ ¬ (x = u ∧ y = v) ∧ ¬ (x = v ∧ y = u).
Proof.
  intros Hne Hu Hv. unfold entry. simpl.
  destruct (decide (x = v)) as [->|Hxv]; [|destruct (decide (x = u)) as [->|Hxu]].
  - setoid_rewrite lookup_insert_eq. split.
    + intros (l & [= <-] & [Hin Hy]%elem_of_without).
      split; [by exists lv|]. split; [by intros [? _]|by intros [_ ?]].
    + intros ((l & Hl & Hin) & _ & Hn). exists (without u lv). split; [done|].
      apply elem_of_without. simplify_eq. split; [done|]. intros ->. by apply Hn.
  - setoid_rewrite lookup_insert_ne; [|done]. setoid_rewrite lookup_insert_eq.
    split.
    + intros (l & [= <-] & [Hin Hy]%elem_of_without).
      split; [by exists lu|]. split; [by intros [_ ?]|by intros [? _]].
    + intros ((l & Hl & Hin) & Hn & _). exists (without v lu). split; [done|].
      apply elem_of_without. simplify_eq. split; [done|]. intros ->. by apply Hn.
  - setoid_rewrite lookup_insert_ne; [|done]. setoid_rewrite lookup_insert_ne; [|done].
    split; [|by intros [? _]]. intros H. split; [done|].
    split; by intros [? _].
Qed.

Lemma removeEdge_entries m u v :
  wf_graph m → hasEdge m u v = true →
  wf_graph (removeEdge m u v).2 ∧
  vertices (removeEdge m u v).2 = vertices m ∧
  ∀ x y z, entry (removeEdge m u v).2 x y z ↔
             entry m x y z ∧ ¬ (x = u ∧ y = v) ∧ ¬ (x = v ∧ y = u).
Proof.
  intros Hwf Hedge. split; [apply wf_updateWall, Hwf|].
  destruct (hasEdge_vertices m Hwf u v Hedge) as [Hu Hv].
  apply (wf_dom m Hwf) in Hu as [lu Hlu]. apply (wf_dom m Hwf) in Hv as [lv Hlv].
  apply (hasEdge_entry m Hwf) in Hedge as [w Hw].
  pose proof (entry_adjacent m Hwf _ _ _ Hw) as Hadj.
  pose proof (isAdjacent_ne _ _ Hadj) as Hne.
  unfold removeEdge, updateWall.
  rewrite bool_decide_eq_false_2 by (rewrite Hlu, Hlv; by intros [?|?]).
  rewrite Hadj. simpl. rewrite (remove_both_eq m u v lu lv) by done.
  split; [done|]. intros x y z. by apply entry_remove_both.
Qed.

Lemma filter_length_lt {X} (f : X → bool) (l : list X) (el : X) :
  el ∈ l → f el = false → (length (List.filter f l) < length l)%nat.
Proof.
  induction l as [|a l IH]; [by intros ?%elem_of_nil|].
  intros [->|Hin]%elem_of_cons Hf; simpl.
  - rewrite Hf. pose proof (List.filter_length_le f l). lia.
  - specialize (IH Hin Hf). destruct (f a); simpl; lia.
Qed.

Lemma not_between_swap u v w a b :
  not_between u v (w, a, b) = not_between u v (w, b, a).
Proof.
  unfold not_between, edge_src, edge_dst. simpl. f_equal.
  apply bool_decide_ext. tauto.
Qed.

Lemma not_between_true u v w a b :
  not_between u v (w, a, b) = true ↔ ¬ (a = u ∧ b = v) ∧ ¬ (a = v ∧ b = u).
Proof.
  unfold not_between, edge_src, edge_dst. simpl.
  rewrite negb_true_iff, bool_decide_eq_false. tauto.
Qed.

(** Removing an edge of the result separates its endpoints. *)
Lemma result_acyclic vs E K P' m :
  NoDup vs → (∀ w u v, (w, u, v) ∈ E → u ∈ vs ∧ v ∈ vs) →
  uf_inv vs E K P' → mst_inv vs K m → acyclic m.
Proof.
  intros Hnd Hends Hinv [Hwf Hvs HK _] u v Hedge Hconn.
  destruct (removeEdge_entries m u v Hwf Hedge) as (Hwf' & Hvs' & Hentries).
  set (K' := List.filter (not_between u v) K).
  assert (edge_list_of (removeEdge m u v).2 K') as HK'.
  { intros x y z. rewrite Hentries, (HK x y z). unfold K'.
    rewrite !elem_of_List_filter, <- (not_between_swap u v z x y).
    rewrite not_between_true. tauto. }
  apply (connected_econn _ Hwf' K') in Hconn; [|done].
  assert (∀ x y, econn K x y → econn K' x y) as Hsame.
  { intros x y. apply econn_subrel. intros a b [w Hin].
    destruct (not_between u v (w, a, b)) eqn:Hnb.
    - eapply econn_edge. apply elem_of_List_filter. split; [exact Hin|done].
    - assert (¬ (¬ (a = u ∧ b = v) ∧ ¬ (a = v ∧ b = u))) as Hbetween.
      { rewrite <- not_between_true. by rewrite Hnb. }
      destruct (decide (a = u ∧ b = v)) as [[-> ->]|]; [done|].
      destruct (decide (a = v ∧ b = u)) as [[-> ->]|]; [by apply econn_sym|].
      exfalso. by apply Hbetween. }
  assert (∀ w a b, (w, a, b) ∈ K' → a ∈ vs ∧ b ∈ vs) as Hends'.
  { intros w a b [Hin _]%elem_of_List_filter.
    eapply Hends, (ui_sub _ _ _ _ Hinv), Hin. }
  destruct (uf_run_total vs K' (length vs) Hnd (le_n _) Hends')
    as (J & Q & _ & HinvJ & HsubJ).
  assert (length K ≤ length J)%nat as Hle.
  { eapply (uf_inv_count_le vs E K P' K' J Q); [done|done|done|].
    intros x y Hxy. by apply Hsame, (ui_acc _ _ _ _ Hinv). }
  pose proof (sublist_length _ _ HsubJ) as HlenJ.
  apply (hasEdge_entry m Hwf) in Hedge as [w Hw].
  assert (length K' < length K)%nat as Hlt.
  { apply HK in Hw as [Hin|Hin];
      (eapply filter_length_lt; [exact Hin|]);
      apply not_true_iff_false; rewrite not_between_true; tauto. }
  lia.
Qed.

(** The result of the run is a spanning forest of the input. *)
Lemma result_spanning_forest g E K P' m :
  wf_graph g → edge_list_of g E →
  uf_inv (vertices g) E K P' → mst_inv (vertices g) K m →
  spanning_forest g m.
Proof.
  intros Hwf HE Hinv Hm.
  pose proof Hm as [Hwfm Hvs HK _].
  split.
  - done.
  - intros u. by rewrite Hvs.
  - intros u v [w Hw]%(hasEdge_entry m Hwfm).
    assert (entry g u v w) as Hg.
    { apply HE. apply HK in Hw as [Hin|Hin];
        [left|right]; by apply (ui_sub _ _ _ _ Hinv). }
    split; [apply (hasEdge_entry g Hwf); by exists w|].
    rewrite (getWeight_entry m Hwfm _ _ _ Hw).
    by rewrite (getWeight_entry g Hwf _ _ _ Hg).
  - intros u v Huv. apply (connected_econn m Hwfm K); [done|].
    apply (ui_acc _ _ _ _ Hinv). by apply (connected_econn g Hwf E).
  - eapply (result_acyclic (vertices g) E K P'); [apply Hwf| |done|done].
    intros w u v Hin.
    destruct (edge_list_of_ends g Hwf E w u v HE Hin) as (? & ? & _). done.
Qed.

End forest.

(** * Minimum total weight *)

Lemma result_minimum fuel g E K P' m f :
  wf_graph g → (length (vertices g) ≤ fuel)%nat →
  edge_list_of g E → StronglySorted weight_le E →
  uf_run fuel E (init_parent (vertices g)) = Some (K, P') →
  uf_inv (vertices g) E K P' → mst_inv (vertices g) K m →
  spanning_forest g f → total_weight m ≤ total_weight f.
Proof.
  intros Hwf Hfuel HE Hsorted Hrun Hinv Hm [Hwff _ Hsubg Hspans _].
  unfold total_weight.
  rewrite (weight_sum_perm _ _ (mi_perm _ _ _ Hm)), weight_sum_normalize.
  assert (∀ w u v, (w, u, v) ∈ E → entry g u v w) as HEentry.
  { intros w u v Hin. apply HE. by left. }
  assert (∀ w u v, (w, u, v) ∈ edges f → entry g u v w) as Hfg.
  { intros w u v [Hentry _]%(edges_elem f Hwff).
    assert (hasEdge f u v = true) as Hedge
      by (apply (hasEdge_entry f Hwff); by exists w).
    destruct (Hsubg u v Hedge) as [Hgedge Hweight].
    rewrite (getWeight_entry f Hwff _ _ _ Hentry) in Hweight. subst w.
    by apply hasEdge_getWeight_entry. }
  apply weight_sum_dominated.
  - intros [[w u] v] Hin%(ui_sub _ _ _ _ Hinv)%HEentry.
    pose proof (entry_pos g Hwf _ _ _ Hin). unfold edge_weight. simpl. lia.
  - intros [[w u] v] Hin%Hfg.
    pose proof (entry_pos g Hwf _ _ _ Hin). unfold edge_weight. simpl. lia.
  - intros t. eapply (kruskal_levels (vertices g) fuel E K P');
      [apply Hwf|done| |done|done| |].
    + intros w u v Hin.
      destruct (edge_list_of_ends g Hwf E w u v HE Hin) as (? & ? & _). done.
    + intros w u v Hin%Hfg. by apply HE.
    + intros x y Hxy. apply (connected_econn f Hwff); [by apply edge_list_of_edges|].
      apply Hspans. by apply (connected_econn g Hwf E).
Qed.

Lemma kruskalMST_square :
  kruskalMST 4 0 [square_graph] = Some (1%nat, [square_graph; square_mst]).
Proof. vm_compute. reflexivity. Qed.

Lemma square_mst_weight : total_weight square_mst = 4.
Proof. vm_compute. reflexivity. Qed.

(** C2. On a well-formed graph the graph returned by [kruskalMST] is a
    spanning forest of the input, and no spanning forest of the input has a
    smaller total weight; on the 2x2 graph with edges (0,0)-(0,1)=1,
    (0,0)-(1,0)=4, (0,1)-(1,1)=2, (1,0)-(1,1)=1 the result has total weight
    exactly 4. *)
Theorem kruskalMST_minimum_weight :
  (∀ (fuel graph : nat) (σ : Store) (g : AdjacencyListGraph),
     σ !! graph = Some g → wf_graph g → (length (vertices g) ≤ fuel)%nat →
     ∃ mst σ' m,
       kruskalMST fuel graph σ = Some (mst, σ') ∧ σ' !! mst = Some m ∧
       spanning_forest g m ∧
       ∀ f, spanning_forest g f → total_weight m ≤ total_weight f) ∧
  (∀ fuel : nat, (4 ≤ fuel)%nat →
     ∃ mst σ' m,
       kruskalMST fuel 0 [square_graph] = Some (mst, σ') ∧
       σ' !! mst = Some m ∧ total_weight m = 4).
Proof.
  assert (∀ (fuel graph : nat) (σ : Store) (g : AdjacencyListGraph),
     σ !! graph = Some g → wf_graph g → (length (vertices g) ≤ fuel)%nat →
     ∃ mst σ' m,
       kruskalMST fuel graph σ = Some (mst, σ') ∧ σ' !! mst = Some m ∧
       spanning_forest g m ∧
       ∀ f, spanning_forest g f → total_weight m ≤ total_weight f) as Hgeneral.
  { intros fuel graph σ g Hg Hwf Hfuel.
    destruct (kruskalMST_result fuel graph σ g Hg Hwf Hfuel)
      as (E & K & P' & m & HE & Hsorted & Hrun & Hinv & _ & Hcall & Hm & _).
    exists (length σ), (σ ++ [m]), m.
    split; [done|]. split; [apply store_snoc_lookup|].
    split; [by eapply result_spanning_forest|].
    intros f Hf. by eapply (result_minimum fuel g E K P'). }
  split; [exact Hgeneral|].
  intros fuel Hfuel.
  pose proof square_graph_reachable as Hwf%wf_reachable.
  destruct (Hgeneral 4%nat 0%nat [square_graph] square_graph eq_refl Hwf)
    as (mst4 & σ4 & m4 & Hcall4 & Hm4 & Hsf4 & Hmin4); [vm_compute; lia|].
  rewrite kruskalMST_square in Hcall4. injection Hcall4 as <- <-.
  assert (∀ a b : AdjacencyListGraph, [a; b] !! 1%nat = Some b) as Hsecond
    by reflexivity.
  rewrite Hsecond in Hm4. injection Hm4 as <-.
  destruct (Hgeneral fuel 0%nat [square_graph] square_graph eq_refl Hwf)
    as (mst & σ' & m & Hcall & Hm & Hsf & Hmin).
  { transitivity 4%nat; [vm_compute; lia|done]. }
  exists mst, σ', m. split; [done|]. split; [done|].
  pose proof (Hmin square_mst Hsf4). pose proof (Hmin4 m Hsf).
  rewrite square_mst_weight in *. lia.
Qed.

Lemma kruskalMST_minimum_weight_witness :
  [square_graph] !! 0%nat = Some square_graph ∧ wf_graph square_graph ∧
  (length (vertices square_graph) ≤ 4)%nat ∧
  ∃ mst σ' m,
    kruskalMST 4 0 [square_graph] = Some (mst, σ') ∧ σ' !! mst = Some m ∧
    spanning_forest square_graph m ∧
    ∀ f, spanning_forest square_graph f → total_weight m ≤ total_weight f.
Proof.
  pose proof square_graph_reachable as Hwf%wf_reachable.
  split; [reflexivity|]. split; [exact Hwf|]. split; [vm_compute; lia|].
  apply (proj1 kruskalMST_minimum_weight 4%nat 0%nat [square_graph] square_graph);
    [reflexivity|exact Hwf|vm_compute; lia].
Defined.

(** * Further properties of the graph operations *)

Section more_queries.
Implicit Types g : AdjacencyListGraph.
Implicit Types u v x y c : Coordinate.

Lemma getWeight_no_edge g u v : hasEdge g u v = false → getWeight g u v = 0.
Proof.
  unfold hasEdge, getWeight. destruct (_get_edge g u v) as [e|]; [|done].
  by intros ->.
Qed.

Lemma hasEdge_getWeight g u v : hasEdge g u v = (0 <? getWeight g u v).
Proof.
  unfold hasEdge, getWeight. destruct (_get_edge g u v) as [e|]; [|done].
  destruct (0 <? e.2) eqn:He; [by rewrite He|done].
Qed.

Lemma same_entries_queries g g' x y :
  wf_graph g → wf_graph g' →
  (∀ z, entry g' x y z ↔ entry g x y z) →
  hasEdge g' x y = hasEdge g x y ∧ getWeight g' x y = getWeight g x y.
Proof.
  intros Hwf Hwf' Hsame. destruct (hasEdge g x y) eqn:He.
  - apply (hasEdge_entry g Hwf) in He as [z Hz].
    pose proof (proj2 (Hsame z) Hz) as Hz'. split.
    + apply (hasEdge_entry g' Hwf'). by exists z.
    + by rewrite (getWeight_entry g Hwf _ _ _ Hz), (getWeight_entry g' Hwf' _ _ _ Hz').
  - assert (hasEdge g' x y = false) as He'.
    { apply not_true_iff_false. intros [z Hz]%(hasEdge_entry g' Hwf').
      apply Hsame in Hz. apply not_true_iff_false in He. apply He.
      apply (hasEdge_entry g Hwf). by exists z. }
    split; [done|]. by rewrite !getWeight_no_edge.
Qed.

Lemma hasVertex_vertices g c :
  wf_graph g → c ∈ getVertices g ↔ hasVertex g c = true.
Proof.
  intros Hwf. unfold hasVertex, getVertices.
  by rewrite (wf_dom g Hwf), bool_decide_eq_true.
Qed.

Lemma get_edge_addVertex g c u v :
  _get_edge (addVertex g c) u v = _get_edge g u v.
Proof.
  unfold addVertex, _get_edge.
  destruct (adj_list g !! c) as [l|] eqn:Hc; [done|]. simpl.
  destruct (decide (c = u)) as [->|Hne].
  - by rewrite lookup_insert_eq, Hc.
  - by rewrite lookup_insert_ne.
Qed.

End more_queries.

Lemma addVertex_self g c : hasVertex (addVertex g c) c = true.
Proof.
  unfold hasVertex, addVertex. apply bool_decide_eq_true.
  destruct (adj_list g !! c) as [l|] eqn:Hc; [by rewrite Hc|].
  simpl. rewrite lookup_insert_eq. eauto.
Qed.

Lemma addVertex_present g c : hasVertex g c = true → addVertex g c = g.
Proof. intros [l Hl]%bool_decide_eq_true. unfold addVertex. by rewrite Hl. Qed.

Lemma addVertex_absent g c :
  hasVertex g c = false →
  getVertices (addVertex g c) = getVertices g ++ [c] ∧
  neighbours (addVertex g c) c = [].
Proof.
  intros Hc%bool_decide_eq_false. unfold addVertex, neighbours, getVertices.
  destruct (adj_list g !! c) as [l|] eqn:Hl; [exfalso; apply Hc; eauto|].
  simpl. by rewrite lookup_insert_eq.
Qed.

Lemma addVertex_other g c x :
  x ≠ c → hasVertex (addVertex g c) x = hasVertex g x.
Proof.
  intros Hx. unfold hasVertex, addVertex.
  destruct (adj_list g !! c) as [l|]; [done|]. simpl.
  by rewrite lookup_insert_ne.
Qed.

(** X1. [addVertex c] makes [c] a vertex; on a vertex already there it
    changes nothing, so a repeated call is a no-op; on a new one it appends
    [c] to the vertex list with no neighbours; no other vertex and no edge
    is affected. *)
Theorem addVertex_effect (g : AdjacencyListGraph) (c : Coordinate) :
  hasVertex (addVertex g c) c = true ∧
  (hasVertex g c = true → addVertex g c = g) ∧
  (hasVertex g c = false →
     getVertices (addVertex g c) = getVertices g ++ [c] ∧
     neighbours (addVertex g c) c = []) ∧
  addVertex (addVertex g c) c = addVertex g c ∧
  (∀ x, x ≠ c → hasVertex (addVertex g c) x = hasVertex g x) ∧
  (∀ u v, hasEdge (addVertex g c) u v = hasEdge g u v ∧
          getWeight (addVertex g c) u v = getWeight g u v).
Proof.
  split; [apply addVertex_self|]. split; [apply addVertex_present|].
  split; [apply addVertex_absent|].
  split; [apply addVertex_present, addVertex_self|].
  split; [intros x; apply addVertex_other|].
  intros u v. unfold hasEdge, getWeight. by rewrite get_edge_addVertex.
Qed.


Lemma wf_no_edge_None g u v :
  wf_graph g → hasEdge g u v = false → _get_edge g u v = None.
Proof.
  intros Hwf He. destruct (_get_edge g u v) as [e|] eqn:Hget; [exfalso|done].
  unfold hasEdge in He. rewrite Hget in He. unfold _get_edge in Hget.
  destruct (adj_list g !! u) as [l|] eqn:Hl; [|done].
  apply find_edge_Some in Hget as [Hin _]. destruct e as [y z].
  pose proof (wf_entry g Hwf u l y z Hl Hin) as [Hz _].
  simpl in He. apply Z.ltb_ge in He. lia.
Qed.

Lemma wf_getWallStatus g u v :
  wf_graph g → getWallStatus g u v = negb (hasEdge g u v).
Proof.
  intros Hwf. unfold getWallStatus. destruct (hasEdge g u v) eqn:He; simpl.
  - apply (hasEdge_entry g Hwf) in He as [w Hw].
    rewrite (entry_adjacent g Hwf _ _ _ Hw). simpl.
    pose proof (entry_sym g Hwf _ _ _ Hw) as Hw'.
    destruct Hw as (lu & Hlu & Hin), Hw' as (lv & Hlv & _).
    rewrite bool_decide_eq_false_2 by (rewrite Hlu, Hlv; by intros [?|?]).
    apply bool_decide_eq_false_2.
    rewrite (get_edge_entry g Hwf u v w); [done|]. by exists lu.
  - destruct (negb (isAdjacent u v)); [done|].
    case_bool_decide; [done|]. apply bool_decide_eq_true_2.
    by apply wf_no_edge_None.
Qed.

(** X3. Whatever the state, [getWeight] is never negative and is positive
    exactly when [hasEdge] holds; from a coordinate that is not a vertex
    there is no edge, no weight and no neighbour; and [getWallStatus] reports
    a wall between cells that are not adjacent or not both vertices. *)
Theorem queries_any_state (g : AdjacencyListGraph) (u v : Coordinate) :
  0 ≤ getWeight g u v ∧
  hasEdge g u v = (0 <? getWeight g u v) ∧
  (hasVertex g u = false →
     hasEdge g u v = false ∧ getWeight g u v = 0 ∧ neighbours g u = []) ∧
  (hasVertex g u = false ∨ hasVertex g v = false ∨ isAdjacent u v = false →
     getWallStatus g u v = true).
Proof.
  split.
  { unfold getWeight. destruct (_get_edge g u v) as [e|]; [|done].
    destruct (Z.ltb_spec 0 e.2); lia. }
  split; [apply hasEdge_getWeight|]. split.
  - intros Hu%bool_decide_eq_false.
    assert (adj_list g !! u = None) as Hnone.
    { destruct (adj_list g !! u) eqn:H; [exfalso; apply Hu; eauto|done]. }
    unfold hasEdge, getWeight, neighbours, _get_edge. by rewrite Hnone.
  - unfold getWallStatus, hasVertex.
    intros [Hu%bool_decide_eq_false|[Hv%bool_decide_eq_false|Hadj]];
      [| |by rewrite Hadj].
    + destruct (negb _); [done|]. rewrite bool_decide_eq_true_2; [done|].
      left. destruct (adj_list g !! u); [exfalso; apply Hu; eauto|done].
    + destruct (negb _); [done|]. rewrite bool_decide_eq_true_2; [done|].
      right. destruct (adj_list g !! v); [exfalso; apply Hv; eauto|done].
Qed.

(** X4. In every state reached through the public operations the vertex
    list has no duplicates and lists exactly the vertices; an edge joins two
    distinct adjacent vertices; and every stored pair carries a positive
    weight, which is the one [getWeight] returns. *)
Theorem reachable_invariants (g : AdjacencyListGraph) :
  reachable g →
  NoDup (getVertices g) ∧
  (∀ c, c ∈ getVertices g ↔ hasVertex g c = true) ∧
  (∀ u v, hasEdge g u v = true →
          hasVertex g u = true ∧ hasVertex g v = true ∧
          isAdjacent u v = true ∧ u ≠ v) ∧
  (∀ u l v w, adj_list g !! u = Some l → (v, w) ∈ l →
              0 < w ∧ getWeight g u v = w).
Proof.
  intros Hwf%wf_reachable. split; [apply Hwf|].
  split; [intros c; by apply hasVertex_vertices|]. split.
  - intros u v He. destruct (hasEdge_vertices g Hwf u v He) as [Hu Hv].
    apply (hasVertex_vertices g _ Hwf) in Hu, Hv.
    apply (hasEdge_entry g Hwf) in He as [w Hw].
    pose proof (entry_adjacent g Hwf _ _ _ Hw) as Hadj.
    split; [done|]. split; [done|]. split; [done|]. by apply isAdjacent_ne.
  - intros u l v w Hl Hin. assert (entry g u v w) as Hw by (by exists l).
    split; [by eapply entry_pos|by apply getWeight_entry].
Qed.

Lemma reachable_invariants_witness :
  reachable square_graph ∧
  NoDup (getVertices square_graph) ∧
  (∀ c, c ∈ getVertices square_graph ↔ hasVertex square_graph c = true) ∧
  (∀ u v, hasEdge square_graph u v = true →
          hasVertex square_graph u = true ∧ hasVertex square_graph v = true ∧
          isAdjacent u v = true ∧ u ≠ v) ∧
  (∀ u l v w, adj_list square_graph !! u = Some l → (v, w) ∈ l →
              0 < w ∧ getWeight square_graph u v = w).
Proof.
  split; [exact square_graph_reachable|].
  exact (reachable_invariants square_graph square_graph_reachable).
Defined.

(** X5. In every reachable state the three edge queries agree:
    [getWallStatus] is the negation of [hasEdge] and is symmetric, and
    [neighbours u] lists, without repetition, exactly the [v] with
    [hasEdge u v]. *)
Theorem reachable_queries_agree (g : AdjacencyListGraph) :
  reachable g →
  ∀ u v,
    getWallStatus g u v = negb (hasEdge g u v) ∧
    getWallStatus g u v = getWallStatus g v u ∧
    (v ∈ neighbours g u ↔ hasEdge g u v = true) ∧
    NoDup (neighbours g u).
Proof.
  intros Hwf%wf_reachable u v.
  split; [by apply wf_getWallStatus|]. split.
  { rewrite !wf_getWallStatus by done. by rewrite (hasEdge_sym g Hwf). }
  split; [by apply neighbours_hasEdge|].
  unfold neighbours. destruct (adj_list g !! u) as [l|] eqn:Hl; [|constructor].
  apply NoDup_filter_keys. by eapply wf_keys.
Qed.

Lemma reachable_queries_agree_witness :
  reachable square_graph ∧
  ∀ u v,
    getWallStatus square_graph u v = negb (hasEdge square_graph u v) ∧
    getWallStatus square_graph u v = getWallStatus square_graph v u ∧
    (v ∈ neighbours square_graph u ↔ hasEdge square_graph u v = true) ∧
    NoDup (neighbours square_graph u).
Proof.
  split; [exact square_graph_reachable|].
  exact (reachable_queries_agree square_graph square_graph_reachable).
Defined.

(** ** Adding, removing and re-weighting edges *)

Section edge_updates.
Implicit Types g : AdjacencyListGraph.
Implicit Types u v x y : Coordinate.

Lemma addEdge_true_inv g u v w g' :
  addEdge g u v w = (true, g') →
  g' = add_undirected g u v w ∧
  is_Some (adj_list g !! u) ∧ is_Some (adj_list g !! v) ∧
  isAdjacent u v = true ∧ 0 < w ∧ _get_edge g u v = None.
Proof.
  rewrite addEdge_unfold.
  destruct (hasVertex g u) eqn:Hu; [|done].
  destruct (hasVertex g v) eqn:Hv; [|done].
  destruct (isAdjacent u v) eqn:Ha; [|done].
  destruct (0 <? w) eqn:Hw; [|done].
  case_bool_decide as He; [|done]. simpl. intros [= <-].
  apply bool_decide_eq_true in Hu, Hv. apply Z.ltb_lt in Hw. done.
Qed.

Lemma without_absent v (l : list (Coordinate * Z)) :
  v ∉ l.*1 → without v l = l.
Proof.
  unfold without. induction l as [|e l IH]; [done|]. simpl.
  intros [Hne Hl]%not_elem_of_cons. unfold is_edge_to at 1.
  rewrite bool_decide_eq_false_2 by congruence. simpl. by rewrite IH.
Qed.

Lemma without_snoc v w (l : list (Coordinate * Z)) :
  v ∉ l.*1 → without v (l ++ [(v, w)]) = l.
Proof.
  intros Hl. unfold without. rewrite List.filter_app. simpl.
  unfold is_edge_to at 2. simpl. rewrite bool_decide_eq_true_2 by done. simpl.
  rewrite app_nil_r. by apply without_absent.
Qed.

Lemma wf_mirror_absent g u v lu lv :
  wf_graph g → adj_list g !! u = Some lu → adj_list g !! v = Some lv →
  v ∉ lu.*1 → u ∉ lv.*1.
Proof.
  intros Hwf Hu Hv Hvlu ([u' w'] & -> & Hin)%list_elem_of_fmap. simpl in *.
  destruct (wf_entry g Hwf v lv u' w' Hv Hin) as (_ & _ & l' & Hl' & Hin').
  simplify_eq. apply Hvlu. by apply (list_elem_of_fmap_2 fst) in Hin'.
Qed.

(** The state after opening the wall between two adjacent vertices. *)
Lemma updateWall_open_entries g u v w :
  wf_graph g → is_Some (adj_list g !! u) → is_Some (adj_list g !! v) →
  isAdjacent u v = true → 0 < w →
  ∃ g', updateWall g u v false w = (true, g') ∧ wf_graph g' ∧
        vertices g' = vertices g ∧
        ∀ x y z, entry g' x y z ↔
          (entry g x y z ∧ ¬ (x = u ∧ y = v) ∧ ¬ (x = v ∧ y = u)) ∨
          (((x = u ∧ y = v) ∨ (x = v ∧ y = u)) ∧ z = w).
Proof.
  intros Hwf [lu Hu] [lv Hv] Hadj Hw.
  pose proof (isAdjacent_ne _ _ Hadj) as Hne.
  pose proof (wf_updateWall g u v false w Hwf) as Hwf'.
  unfold updateWall in *.
  rewrite bool_decide_eq_false_2 in * by (rewrite Hu, Hv; by intros [?|?]).
  rewrite Hadj in *. simpl in *.
  destruct (Z.leb_spec w 0) as [|_]; [lia|].
  case_bool_decide as He.
  - destruct (_get_edge g u v) as [e|] eqn:Hget; [|done].
    unfold _get_edge in Hget. rewrite Hu in Hget.
    apply find_edge_Some in Hget as [Hin Hev]. destruct e as [v' z0].
    simpl in Hev. subst v'.
    destruct (wf_entry g Hwf u lu v z0 Hu Hin) as (_ & _ & lv0 & Hlv0 & Hin').
    simplify_eq.
    destruct (update_first v w lu) as [lu'|] eqn:Hlu.
    2:{ apply update_first_None in Hlu. exfalso. apply Hlu.
        by apply (list_elem_of_fmap_2 fst) in Hin. }
    destruct (update_first u w lv) as [lv'|] eqn:Hlv.
    2:{ apply update_first_None in Hlv. exfalso. apply Hlv.
        by apply (list_elem_of_fmap_2 fst) in Hin'. }
    rewrite (update_both_eq g u v w lu lv lu' lv') in * by done.
    eexists. split; [done|]. split; [done|]. split; [done|].
    pose proof (wf_keys g Hwf u lu Hu) as Hndu.
    pose proof (wf_keys g Hwf v lv Hv) as Hndv.
    intros x y z. unfold entry. simpl.
    destruct (decide (x = v)) as [->|Hxv]; [|destruct (decide (x = u)) as [->|Hxu]].
    + setoid_rewrite lookup_insert_eq. split.
      * intros (l & [= <-] & Hl). apply (update_first_elem u w lv lv') in Hl; [|done|done].
        destruct Hl as [[Hl Hy]|[-> ->]]; [left|right; split; [by right|done]].
        split; [by exists lv|]. split; [by intros [? _]|by intros [_ ?]].
      * intros [((l & Hl & Hin0) & _ & Hn)|[[[? _]|[_ ->]] ->]]; [|done|].
        -- exists lv'. split; [done|]. apply (update_first_elem u w lv lv'); [done|done|].
           left. simplify_eq. split; [done|]. intros ->. by apply Hn.
        -- exists lv'. split; [done|]. apply (update_first_elem u w lv lv'); [done|done|].
           by right.
    + setoid_rewrite lookup_insert_ne; [|done]. setoid_rewrite lookup_insert_eq.
      split.
      * intros (l & [= <-] & Hl). apply (update_first_elem v w lu lu') in Hl; [|done|done].
        destruct Hl as [[Hl Hy]|[-> ->]]; [left|right; split; [by left|done]].
        split; [by exists lu|]. split; [by intros [_ ?]|by intros [? _]].
      * intros [((l & Hl & Hin0) & Hn & _)|[[[_ ->]|[? _]] ->]]; [| |done].
        -- exists lu'. split; [done|]. apply (update_first_elem v w lu lu'); [done|done|].
           left. simplify_eq. split; [done|]. intros ->. by apply Hn.
        -- exists lu'. split; [done|]. apply (update_first_elem v w lu lu'); [done|done|].
           by right.
    + setoid_rewrite lookup_insert_ne; [|done]. setoid_rewrite lookup_insert_ne; [|done].
      split; [intros H; left; split; [done|]; split; by intros [? _]|].
      intros [[? _]|[[[? _]|[? _]] _]]; done.
  - pose proof He as Hnone.
    eexists. split; [done|]. split; [done|]. split; [done|].
    pose proof (get_edge_None_keys g u v lu Hu Hnone) as Hvlu.
    pose proof (wf_mirror_absent g u v lu lv Hwf Hu Hv Hvlu) as Hulv.
    intros x y z. rewrite (entry_add_undirected g u v w lu lv) by done.
    split.
    + intros [H|[(-> & -> & ->)|(-> & -> & ->)]]; [|right; split; [by left|done]
                                                    |right; split; [by right|done]].
      left. split; [done|]. destruct H as (l & Hl & Hin). split.
      * intros [-> ->]. simplify_eq. apply Hvlu.
        by apply (list_elem_of_fmap_2 fst) in Hin.
      * intros [-> ->]. simplify_eq. apply Hulv.
        by apply (list_elem_of_fmap_2 fst) in Hin.
    + intros [[H _]|[[[-> ->]|[-> ->]] ->]]; [by left|right; by left|right; by right].
Qed.

(** The state after closing the wall between two adjacent vertices. *)
Lemma updateWall_close_entries g u v w :
  wf_graph g → is_Some (adj_list g !! u) → is_Some (adj_list g !! v) →
  isAdjacent u v = true →
  ∃ g', updateWall g u v true w = (true, g') ∧ wf_graph g' ∧
        vertices g' = vertices g ∧
        ∀ x y z, entry g' x y z ↔
          entry g x y z ∧ ¬ (x = u ∧ y = v) ∧ ¬ (x = v ∧ y = u).
Proof.
  intros Hwf [lu Hu] [lv Hv] Hadj.
  pose proof (isAdjacent_ne _ _ Hadj) as Hne.
  pose proof (wf_updateWall g u v true w Hwf) as Hwf'.
  unfold updateWall in *.
  rewrite bool_decide_eq_false_2 in * by (rewrite Hu, Hv; by intros [?|?]).
  rewrite Hadj in *. simpl in *.
  rewrite (remove_both_eq g u v lu lv) in * by done.
  eexists. split; [done|]. split; [done|]. split; [done|].
  intros x y z. by apply entry_remove_both.
Qed.

End edge_updates.

Lemma two_cells_reachable : reachable two_cells.
Proof. exists 1, 2, [OpAddVertices [c00; c01]]. vm_compute. reflexivity. Qed.

Lemma two_cells_addEdge :
  addEdge two_cells c00 c01 3 = (true, two_cells_joined).
Proof. vm_compute. reflexivity. Qed.

(** X6. After a successful [addEdge u v w] on a reachable state, both
    directions report the edge with weight [w], each endpoint is a neighbour
    of the other and there is no wall between them; every other pair and the
    vertex list are as before. *)
Theorem addEdge_then_query (g g' : AdjacencyListGraph) (u v : Coordinate)
    (w : Z) :
  reachable g → addEdge g u v w = (true, g') →
  getWeight g' u v = w ∧ getWeight g' v u = w ∧
  hasEdge g' u v = true ∧ hasEdge g' v u = true ∧
  getWallStatus g' u v = false ∧
  v ∈ neighbours g' u ∧ u ∈ neighbours g' v ∧
  getVertices g' = getVertices g ∧
  ∀ x y, ¬ (x = u ∧ y = v) → ¬ (x = v ∧ y = u) →
         hasEdge g' x y = hasEdge g x y ∧ getWeight g' x y = getWeight g x y.
Proof.
  intros Hwf%wf_reachable Hadd.
  pose proof (wf_addEdge g u v w Hwf) as Hwf'. rewrite Hadd in Hwf'. simpl in Hwf'.
  apply addEdge_true_inv in Hadd as (-> & [lu Hu] & [lv Hv] & Hadj & Hw & Hnone).
  pose proof (isAdjacent_ne _ _ Hadj) as Hne.
  pose proof (λ x y z, entry_add_undirected g u v w lu lv x y z Hne Hu Hv) as Hentry.
  assert (entry (add_undirected g u v w) u v w) as Huv by (apply Hentry; auto).
  assert (entry (add_undirected g u v w) v u w) as Hvu by (apply Hentry; auto).
  assert (hasEdge (add_undirected g u v w) u v = true) as He
    by (apply hasEdge_entry; [done|by exists w]).
  split; [by apply getWeight_entry|]. split; [by apply getWeight_entry|].
  split; [done|]. split; [apply hasEdge_entry; [done|by exists w]|].
  split; [by rewrite wf_getWallStatus, He|].
  split; [apply neighbours_entry; [done|by exists w]|].
  split; [apply neighbours_entry; [done|by exists w]|].
  split; [done|].
  intros x y Hn1 Hn2. apply same_entries_queries; [done|done|].
  intros z. rewrite Hentry. split; [|by left].
  intros [?|[(-> & -> & _)|(-> & -> & _)]]; [done| |]; exfalso; auto.
Qed.

Lemma addEdge_then_query_witness :
  reachable two_cells ∧ addEdge two_cells c00 c01 3 = (true, two_cells_joined) ∧
  getWeight two_cells_joined c00 c01 = 3 ∧ getWeight two_cells_joined c01 c00 = 3 ∧
  hasEdge two_cells_joined c00 c01 = true ∧ hasEdge two_cells_joined c01 c00 = true ∧
  getWallStatus two_cells_joined c00 c01 = false ∧
  c01 ∈ neighbours two_cells_joined c00 ∧ c00 ∈ neighbours two_cells_joined c01 ∧
  getVertices two_cells_joined = getVertices two_cells ∧
  ∀ x y, ¬ (x = c00 ∧ y = c01) → ¬ (x = c01 ∧ y = c00) →
         hasEdge two_cells_joined x y = hasEdge two_cells x y ∧
         getWeight two_cells_joined x y = getWeight two_cells x y.
Proof.
  split; [exact two_cells_reachable|]. split; [exact two_cells_addEdge|].
  exact (addEdge_then_query two_cells two_cells_joined c00 c01 3
           two_cells_reachable two_cells_addEdge).
Defined.

(** X7. An edge cannot be added twice: after a successful [addEdge u v w],
    adding between the same two vertices again, in either direction and with
    any weight, returns false and changes nothing. *)
Theorem addEdge_twice_rejected (g g' : AdjacencyListGraph) (u v : Coordinate)
    (w w' : Z) :
  addEdge g u v w = (true, g') →
  addEdge g' u v w' = (false, g') ∧ addEdge g' v u w' = (false, g').
Proof.
  intros (-> & [lu Hu] & [lv Hv] & Hadj & Hw & Hnone)%addEdge_true_inv.
  pose proof (isAdjacent_ne _ _ Hadj) as Hne.
  pose proof (λ x, add_undirected_lookup g u v w lu lv x Hne Hu Hv) as Hlk.
  assert (_get_edge (add_undirected g u v w) u v ≠ None) as H1.
  { unfold _get_edge. rewrite Hlk, decide_True by done.
    rewrite find_edge_None, fmap_app. intros Hn. apply Hn.
    apply elem_of_app. right. by left. }
  assert (_get_edge (add_undirected g u v w) v u ≠ None) as H2.
  { unfold _get_edge. rewrite Hlk, decide_False by done.
    rewrite decide_True by done.
    rewrite find_edge_None, fmap_app. intros Hn. apply Hn.
    apply elem_of_app. right. by left. }
  rewrite !addEdge_unfold.
  rewrite (bool_decide_eq_false_2 (_get_edge _ u v = None)) by done.
  rewrite (bool_decide_eq_false_2 (_get_edge _ v u = None)) by done.
  by rewrite !andb_false_r.
Qed.

Lemma addEdge_twice_rejected_witness :
  addEdge two_cells c00 c01 3 = (true, two_cells_joined) ∧
  addEdge two_cells_joined c00 c01 5 = (false, two_cells_joined) ∧
  addEdge two_cells_joined c01 c00 5 = (false, two_cells_joined).
Proof.
  split; [exact two_cells_addEdge|].
  exact (addEdge_twice_rejected two_cells two_cells_joined c00 c01 3 5
           two_cells_addEdge).
Defined.

(** X8. On a reachable state, [removeEdge u v] undoes a successful
    [addEdge u v w]: it returns true and gives back the very state the edge
    was added to. *)
Theorem addEdge_removeEdge_roundtrip (g g' : AdjacencyListGraph)
    (u v : Coordinate) (w : Z) :
  reachable g → addEdge g u v w = (true, g') → removeEdge g' u v = (true, g).
Proof.
  intros Hwf%wf_reachable
    (-> & [lu Hu] & [lv Hv] & Hadj & Hw & Hnone)%addEdge_true_inv.
  pose proof (isAdjacent_ne _ _ Hadj) as Hne.
  pose proof (λ x, add_undirected_lookup g u v w lu lv x Hne Hu Hv) as Hlk.
  pose proof (get_edge_None_keys g u v lu Hu Hnone) as Hvlu.
  pose proof (wf_mirror_absent g u v lu lv Hwf Hu Hv Hvlu) as Hulv.
  assert (adj_list (add_undirected g u v w) !! u = Some (lu ++ [(v, w)])) as Hu'
    by (by rewrite Hlk, decide_True).
  assert (adj_list (add_undirected g u v w) !! v = Some (lv ++ [(u, w)])) as Hv'.
  { rewrite Hlk, decide_False by done. by rewrite decide_True. }
  unfold removeEdge, updateWall.
  rewrite bool_decide_eq_false_2 by (rewrite Hu', Hv'; by intros [?|?]).
  rewrite Hadj. simpl.
  rewrite (remove_both_eq _ u v _ _ Hne Hu' Hv').
  rewrite !without_snoc by done. f_equal.
  destruct g as [r c s vs adj]. unfold set_adj_list. simpl in *. f_equal.
  apply map_eq. intros x. rewrite !lookup_insert.
  destruct (decide (v = x)) as [<-|Hxv]; [done|].
  destruct (decide (u = x)) as [<-|Hxu]; [done|].
  unfold append_entry. by rewrite !lookup_alter_ne.
Qed.

Lemma addEdge_removeEdge_roundtrip_witness :
  reachable two_cells ∧ addEdge two_cells c00 c01 3 = (true, two_cells_joined) ∧
  removeEdge two_cells_joined c00 c01 = (true, two_cells).
Proof.
  split; [exact two_cells_reachable|]. split; [exact two_cells_addEdge|].
  exact (addEdge_removeEdge_roundtrip two_cells two_cells_joined c00 c01 3
           two_cells_reachable two_cells_addEdge).
Defined.

(** X9. On a reachable state, [removeEdge] between two adjacent vertices
    returns true and leaves no edge, no weight and a wall between them in
    both directions, whether or not there was an edge; every other pair and
    the vertex list are as before. *)
Theorem removeEdge_effect (g : AdjacencyListGraph) (u v : Coordinate) :
  reachable g →
  hasVertex g u = true → hasVertex g v = true → isAdjacent u v = true →
  ∃ g', removeEdge g u v = (true, g') ∧
    hasEdge g' u v = false ∧ hasEdge g' v u = false ∧
    getWeight g' u v = 0 ∧ getWeight g' v u = 0 ∧
    getWallStatus g' u v = true ∧ (v ∉ neighbours g' u) ∧
    getVertices g' = getVertices g ∧
    ∀ x y, ¬ (x = u ∧ y = v) → ¬ (x = v ∧ y = u) →
           hasEdge g' x y = hasEdge g x y ∧ getWeight g' x y = getWeight g x y.
Proof.
  intros Hwf%wf_reachable Hu%bool_decide_eq_true Hv%bool_decide_eq_true Hadj.
  destruct (updateWall_close_entries g u v 1 Hwf Hu Hv Hadj)
    as (g' & Hcall & Hwf' & Hvs & Hentry).
  exists g'. split; [done|].
  assert (hasEdge g' u v = false) as He.
  { apply not_true_iff_false. intros [z Hz]%(hasEdge_entry g' Hwf').
    apply Hentry in Hz as (_ & Hn & _). by apply Hn. }
  assert (hasEdge g' v u = false) as He' by (by rewrite (hasEdge_sym g' Hwf')).
  split; [done|]. split; [done|].
  split; [by apply getWeight_no_edge|]. split; [by apply getWeight_no_edge|].
  split; [by rewrite wf_getWallStatus, He|].
  split; [rewrite (neighbours_hasEdge g' Hwf'); by rewrite He|].
  split; [done|].
  intros x y Hn1 Hn2. apply same_entries_queries; [done|done|].
  intros z. rewrite Hentry. tauto.
Qed.

Lemma removeEdge_effect_witness :
  reachable square_graph ∧ hasVertex square_graph c10 = true ∧
  hasVertex square_graph c11 = true ∧ isAdjacent c10 c11 = true ∧
  ∃ g', removeEdge square_graph c10 c11 = (true, g') ∧
    hasEdge g' c10 c11 = false ∧ hasEdge g' c11 c10 = false ∧
    getWeight g' c10 c11 = 0 ∧ getWeight g' c11 c10 = 0 ∧
    getWallStatus g' c10 c11 = true ∧ (c11 ∉ neighbours g' c10) ∧
    getVertices g' = getVertices square_graph ∧
    ∀ x y, ¬ (x = c10 ∧ y = c11) → ¬ (x = c11 ∧ y = c10) →
           hasEdge g' x y = hasEdge square_graph x y ∧
           getWeight g' x y = getWeight square_graph x y.
Proof.
  split; [exact square_graph_reachable|].
  split; [vm_compute; reflexivity|]. split; [vm_compute; reflexivity|].
  split; [vm_compute; reflexivity|].
  apply (removeEdge_effect square_graph c10 c11 square_graph_reachable);
    vm_compute; reflexivity.
Defined.

(** X10. On a reachable state, [updateWall u v false w] with [w > 0]
    between two adjacent vertices returns true and leaves an edge of weight
    [w] in both directions, whether it had to insert the edge or re-weight an
    existing one; every other pair and the vertex list are as before. *)
Theorem updateWall_open_effect (g : AdjacencyListGraph) (u v : Coordinate)
    (w : Z) :
  reachable g →
  hasVertex g u = true → hasVertex g v = true → isAdjacent u v = true →
  0 < w →
  ∃ g', updateWall g u v false w = (true, g') ∧
    getWeight g' u v = w ∧ getWeight g' v u = w ∧
    hasEdge g' u v = true ∧ hasEdge g' v u = true ∧
    getWallStatus g' u v = false ∧
    getVertices g' = getVertices g ∧
    ∀ x y, ¬ (x = u ∧ y = v) → ¬ (x = v ∧ y = u) →
           hasEdge g' x y = hasEdge g x y ∧ getWeight g' x y = getWeight g x y.
Proof.
  intros Hwf%wf_reachable Hu%bool_decide_eq_true Hv%bool_decide_eq_true Hadj Hw.
  destruct (updateWall_open_entries g u v w Hwf Hu Hv Hadj Hw)
    as (g' & Hcall & Hwf' & Hvs & Hentry).
  exists g'. split; [done|].
  assert (entry g' u v w) as Huv by (apply Hentry; right; auto).
  assert (entry g' v u w) as Hvu by (apply Hentry; right; auto).
  assert (hasEdge g' u v = true) as He
    by (apply hasEdge_entry; [done|by exists w]).
  split; [by apply getWeight_entry|]. split; [by apply getWeight_entry|].
  split; [done|]. split; [apply hasEdge_entry; [done|by exists w]|].
  split; [by rewrite wf_getWallStatus, He|]. split; [done|].
  intros x y Hn1 Hn2. apply same_entries_queries; [done|done|].
  intros z. rewrite Hentry. tauto.
Qed.

Lemma updateWall_open_effect_witness :
  reachable square_graph ∧ hasVertex square_graph c00 = true ∧
  hasVertex square_graph c10 = true ∧ isAdjacent c00 c10 = true ∧ 0 < 7 ∧
  ∃ g', updateWall square_graph c00 c10 false 7 = (true, g') ∧
    getWeight g' c00 c10 = 7 ∧ getWeight g' c10 c00 = 7 ∧
    hasEdge g' c00 c10 = true ∧ hasEdge g' c10 c00 = true ∧
    getWallStatus g' c00 c10 = false ∧
    getVertices g' = getVertices square_graph ∧
    ∀ x y, ¬ (x = c00 ∧ y = c10) → ¬ (x = c10 ∧ y = c00) →
           hasEdge g' x y = hasEdge square_graph x y ∧
           getWeight g' x y = getWeight square_graph x y.
Proof.
  split; [exact square_graph_reachable|].
  split; [vm_compute; reflexivity|]. split; [vm_compute; reflexivity|].
  split; [vm_compute; reflexivity|]. split; [lia|].
  apply (updateWall_open_effect square_graph c00 c10 7 square_graph_reachable);
    [vm_compute; reflexivity..|lia].
Defined.

(** X11. On a reachable state the result of [updateWall] is decided by its
    arguments alone: it is true exactly when both cells are vertices, they
    are adjacent, and either a wall is asked for or the weight is positive;
    when it is false the state is unchanged. *)
Theorem updateWall_result (g : AdjacencyListGraph) (u v : Coordinate)
    (hasWall : bool) (w : Z) :
  reachable g →
  ((updateWall g u v hasWall w).1 =
     (hasVertex g u && hasVertex g v && isAdjacent u v
      && (hasWall || (0 <? w)))) ∧
  ((updateWall g u v hasWall w).1 = false → (updateWall g u v hasWall w).2 = g).
Proof.
  intros Hwf%wf_reachable.
  destruct (hasVertex g u) eqn:Hu.
  2:{ unfold updateWall. apply bool_decide_eq_false in Hu.
      rewrite bool_decide_eq_true_2; [done|]. left.
      destruct (adj_list g !! u); [exfalso; apply Hu; eauto|done]. }
  destruct (hasVertex g v) eqn:Hv.
  2:{ unfold updateWall. apply bool_decide_eq_false in Hv.
      rewrite bool_decide_eq_true_2; [done|]. right.
      destruct (adj_list g !! v); [exfalso; apply Hv; eauto|done]. }
  destruct (isAdjacent u v) eqn:Hadj.
  2:{ unfold updateWall. rewrite Hadj. simpl. by rewrite orb_true_r. }
  apply bool_decide_eq_true in Hu, Hv. simpl. destruct hasWall; simpl.
  - destruct (updateWall_close_entries g u v w Hwf Hu Hv Hadj) as (g' & -> & _).
    done.
  - destruct (Z.ltb_spec 0 w) as [Hw|Hw].
    + destruct (updateWall_open_entries g u v w Hwf Hu Hv Hadj Hw) as (g' & -> & _).
      done.
    + unfold updateWall. destruct Hu as [lu Hlu], Hv as [lv Hlv].
      rewrite bool_decide_eq_false_2 by (rewrite Hlu, Hlv; by intros [?|?]).
      rewrite Hadj. simpl. destruct (Z.leb_spec w 0); [done|lia].
Qed.

Lemma updateWall_result_witness :
  reachable square_graph ∧
  ((updateWall square_graph c00 c11 false 1).1 =
     (hasVertex square_graph c00 && hasVertex square_graph c11
      && isAdjacent c00 c11 && (false || (0 <? 1)))) ∧
  ((updateWall square_graph c00 c11 false 1).1 = false →
   (updateWall square_graph c00 c11 false 1).2 = square_graph).
Proof.
  split; [exact square_graph_reachable|].
  exact (updateWall_result square_graph c00 c11 false 1 square_graph_reachable).
Defined.

(** * Further properties of the union-find helpers *)

Section more_union_find.
Implicit Types P : gmap Coordinate Coordinate.
Implicit Types x y z r a b : Coordinate.
Implicit Types n m k fuel : nat.

Lemma same_set_sym P x y : same_set P x y → same_set P y x.
Proof. intros (r & n & m & ? & ?). by exists r, m, n. Qed.

Lemma same_set_trans P x y z : same_set P x y → same_set P y z → same_set P x z.
Proof.
  intros (r & n & m & Hx & Hy) (r' & n' & m' & Hy' & Hz).
  destruct (reaches_root_functional P y r m r' n' Hy Hy') as [-> _].
  by exists r', n, m'.
Qed.

Lemma same_set_key P x y : same_set P x y → is_Some (P !! x) ∧ is_Some (P !! y).
Proof.
  intros (r & n & m & Hx & Hy). split; by eapply reaches_root_key.
Qed.

Lemma two_cycle_no_root P x y r n :
  y ≠ x → P !! x = Some y → P !! y = Some x → ¬ reaches_root P x r n.
Proof.
  intros Hne Hx Hy. revert r. induction n as [n IH] using lt_wf_ind.
  intros r H. destruct H as [x Hx'|x p r n Hx' Hp H]; [congruence|].
  simplify_eq. destruct H as [y Hy'|y p r n Hy' Hp' H]; [congruence|].
  simplify_eq. exact (IH n ltac:(lia) r H).
Qed.

End more_union_find.

(** X12. [find x] on a vertex whose chain ends in the root [r] returns [r]
    and leaves [x] pointing straight at [r]; every pointer it changed now
    holds [r], the root of its vertex; and calling [find x] again returns [r]
    without changing the mapping any further. *)
Theorem find_compresses_path (P : gmap Coordinate Coordinate)
    (x r : Coordinate) (n fuel : nat) :
  reaches_root P x r n → (n < fuel)%nat →
  ∃ P', find fuel x P = Some (r, P') ∧
        P' !! x = Some r ∧ P' !! r = Some r ∧
        (∀ y, P' !! y = P !! y ∨
              (P' !! y = Some r ∧ ∃ k, reaches_root P y r k)) ∧
        find fuel x P' = Some (r, P').
Proof.
  intros H. revert fuel. induction H as [x Hx|x p r n Hx Hne H IH];
    intros fuel Hfuel; (destruct fuel as [|fuel]; [lia|]).
  - exists P. simpl. rewrite Hx. simpl.
    rewrite bool_decide_eq_false_2 by (by intros ?). simpl.
    do 3 (split; [done|]). split; [by left|done].
  - destruct (IH fuel) as (P1 & Hf & Hp & Hr & Hptr & _); [lia|].
    pose proof (reaches_root_is_root _ _ _ _ H) as HrP.
    assert (r ≠ x) as Hrx by (intros ->; congruence).
    exists (<[x := r]> P1). split.
    { simpl. rewrite Hx. simpl. rewrite bool_decide_eq_true_2 by done.
      rewrite Hf. simpl. by rewrite lookup_insert_eq. }
    split; [apply lookup_insert_eq|].
    split; [by rewrite lookup_insert_ne|]. split.
    { intros y. destruct (decide (x = y)) as [<-|Hxy].
      - right. rewrite lookup_insert_eq. split; [done|].
        exists (S n). by econstructor.
      - rewrite lookup_insert_ne by done. apply Hptr. }
    simpl. rewrite lookup_insert_eq. simpl.
    rewrite bool_decide_eq_true_2 by done.
    destruct fuel as [|fuel]; [lia|]. simpl.
    rewrite lookup_insert_ne by done. rewrite Hr. simpl.
    rewrite bool_decide_eq_false_2 by (by intros ?). simpl.
    rewrite insert_insert_eq. by rewrite lookup_insert_eq.
Qed.

Lemma find_compresses_path_witness :
  reaches_root chain_parent c00 c11 2 ∧ (2 < 3)%nat ∧
  ∃ P', find 3 c00 chain_parent = Some (c11, P') ∧
        P' !! c00 = Some c11 ∧ P' !! c11 = Some c11 ∧
        (∀ y, P' !! y = chain_parent !! y ∨
              (P' !! y = Some c11 ∧ ∃ k, reaches_root chain_parent y c11 k)) ∧
        find 3 c00 P' = Some (c11, P').
Proof.
  assert (reaches_root chain_parent c00 c11 2) as H2.
  { apply (reaches_step _ c00 c01); [vm_compute; reflexivity|done|].
    apply (reaches_step _ c01 c11); [vm_compute; reflexivity|done|].
    constructor. vm_compute. reflexivity. }
  split; [exact H2|]. split; [lia|].
  apply (find_compresses_path chain_parent c00 c11 2 3 H2). lia.
Defined.

(** X13. [find x] returns exactly when the parent chain of [x] reaches a
    self-parented key within the fuel. It fails on a key that is missing
    and, whatever the fuel, on two keys that point at each other; and when
    [find a] fails so does [union a b]. *)
Theorem find_failure (fuel : nat) (x : Coordinate)
    (P : gmap Coordinate Coordinate) :
  (is_Some (find fuel x P) ↔ ∃ r n, (n < fuel)%nat ∧ reaches_root P x r n) ∧
  (P !! x = None → find fuel x P = None) ∧
  (∀ y, y ≠ x → P !! x = Some y → P !! y = Some x → find fuel x P = None) ∧
  (∀ b, find fuel x P = None → union fuel x b P = None).
Proof.
  assert (is_Some (find fuel x P) ↔ ∃ r n, (n < fuel)%nat ∧ reaches_root P x r n)
    as Hiff.
  { split.
    - intros [[r P'] Hf]. apply find_inv in Hf as [(n & Hn & H) _]. eauto.
    - intros (r & n & Hn & H).
      destruct (find_spec P x r n fuel H Hn) as (P' & -> & _). eauto. }
  split; [done|]. split; [|split].
  - intros Hx. apply eq_None_not_Some. rewrite Hiff.
    intros (r & n & _ & [? ?]%reaches_root_key). congruence.
  - intros y Hne Hx Hy. apply eq_None_not_Some. rewrite Hiff.
    intros (r & n & _ & H). by eapply two_cycle_no_root.
  - intros b Hf. unfold union. by rewrite Hf.
Qed.

(** X14. On a mapping whose chains all end in a root, [union a b] between
    two keys returns, with enough fuel, true exactly when [a] and [b] were in
    different sets; afterwards they are in one set, the keys are the same and
    all chains still end in a root, and two vertices share a set exactly
    when they did before or one was with [a] and the other with [b]. *)
Theorem union_merges_two_sets (P : gmap Coordinate Coordinate)
    (a b : Coordinate) :
  chains_terminate P → is_Some (P !! a) → is_Some (P !! b) →
  ∃ N, ∀ fuel, (N ≤ fuel)%nat →
    ∃ ok P', union fuel a b P = Some (ok, P') ∧
      (ok = true ↔ ¬ same_set P a b) ∧ same_set P' a b ∧
      chains_terminate P' ∧ (∀ z, is_Some (P' !! z) ↔ is_Some (P !! z)) ∧
      ∀ x y, same_set P' x y ↔
        same_set P x y ∨ (same_set P x a ∧ same_set P b y)
                       ∨ (same_set P x b ∧ same_set P a y).
Proof.
  intros [B HB]%chains_terminate_bounded Ha Hb.
  exists (S B). intros fuel Hfuel.
  destruct (union_spec P a b B fuel HB) as (ra & rb & P2 & [n Hra] & [m Hrb] & HP2 & ->);
    [lia|done|done|].
  eexists _, _. split; [done|].
  pose proof (reaches_root_is_root _ _ _ _ Hra) as HraP.
  pose proof (reaches_root_is_root _ _ _ _ Hrb) as HrbP.
  pose proof (compresses_root _ _ _ HP2 HraP) as Hra2.
  pose proof (compresses_root _ _ _ HP2 HrbP) as Hrb2.
  pose proof (compresses_depth_bounded _ _ _ HP2 HB) as HB2.
  pose proof (same_set_roots P a b ra rb n m Hra Hrb) as Hab.
  assert (same_set P a a) as Haa by (by exists ra, n, n).
  assert (same_set P b b) as Hbb by (by exists rb, m, m).
  case_bool_decide as Hne.
  - destruct (compresses_reaches _ _ _ _ _ HP2 Hra) as (n2 & _ & Hra').
    destruct (compresses_reaches _ _ _ _ _ HP2 Hrb) as (m2 & _ & Hrb').
    assert (∀ z, is_Some (<[rb := ra]> P2 !! z) ↔ is_Some (P !! z)) as Hkeys.
    { intros z. rewrite lookup_insert_is_Some, (proj1 HP2 z).
      destruct (decide (rb = z)) as [<-|]; [|tauto].
      assert (is_Some (P !! rb)) by eauto. tauto. }
    assert (∀ x y, is_Some (P !! x) → is_Some (P !! y) →
              same_set (<[rb := ra]> P2) x y ↔
                same_set P x y ∨ (same_set P x a ∧ same_set P b y)
                               ∨ (same_set P x b ∧ same_set P a y)) as Hsets.
    { intros x y Hx Hy.
      destruct (HB2 x) as (rx & kx & Hrx & _); [by apply (proj1 HP2)|].
      destruct (HB2 y) as (ry & ky & Hry & _); [by apply (proj1 HP2)|].
      rewrite (attach_same_set P2 ra rb a b n2 m2 x y) by eauto.
      by rewrite !(compresses_same_set P P2). }
    split; [by rewrite Hab|]. split.
    { apply Hsets; [done|done|]. right. left. done. }
    split; [eapply depth_bounded_terminate, attach_depth_bounded; eauto|].
    split; [done|]. intros x y. split.
    + intros H. destruct (same_set_key _ _ _ H) as [Hx Hy].
      apply Hsets; [by apply Hkeys|by apply Hkeys|done].
    + intros H. apply Hsets; [| |done];
        destruct H as [H|[[H1 H2]|[H1 H2]]];
        repeat match goal with
               | H : same_set P _ _ |- _ => apply same_set_key in H as [? ?]
               end; done.
  - assert (ra = rb) as Heq by (by destruct (decide (ra = rb)); [|exfalso; auto]).
    assert (same_set P a b) as Hsame by (by apply Hab).
    split; [split; [done|by intros ?]|].
    split; [by apply (compresses_same_set P P2)|].
    split; [by eapply depth_bounded_terminate|].
    split; [apply HP2|]. intros x y.
    rewrite (compresses_same_set P P2) by done. split; [by left|].
    intros [H|[[H1 H2]|[H1 H2]]]; [done| |].
    + eapply same_set_trans; [exact H1|]. by eapply same_set_trans.
    + eapply same_set_trans; [exact H1|].
      eapply same_set_trans; [apply same_set_sym, Hsame|done].
Qed.

Lemma union_merges_two_sets_witness :
  chains_terminate chain_parent ∧
  is_Some (chain_parent !! c00) ∧ is_Some (chain_parent !! c11) ∧
  ∃ N, ∀ fuel, (N ≤ fuel)%nat →
    ∃ ok P', union fuel c00 c11 chain_parent = Some (ok, P') ∧
      (ok = true ↔ ¬ same_set chain_parent c00 c11) ∧ same_set P' c00 c11 ∧
      chains_terminate P' ∧
      (∀ z, is_Some (P' !! z) ↔ is_Some (chain_parent !! z)) ∧
      ∀ x y, same_set P' x y ↔
        same_set chain_parent x y
        ∨ (same_set chain_parent x c00 ∧ same_set chain_parent c11 y)
        ∨ (same_set chain_parent x c11 ∧ same_set chain_parent c00 y).
Proof.
  assert (chains_terminate chain_parent) as Hct.
  { intros x [p Hp]. exists 3%nat, c11.
    unfold chain_parent in Hp.
    apply lookup_insert_Some in Hp as [[<- <-]|[_ Hp]]; [vm_compute; reflexivity|].
    apply lookup_insert_Some in Hp as [[<- <-]|[_ Hp]]; [vm_compute; reflexivity|].
    apply lookup_insert_Some in Hp as [[<- <-]|[_ Hp]]; [vm_compute; reflexivity|].
    by rewrite lookup_empty in Hp. }
  assert (is_Some (chain_parent !! c00)) as H0
    by (exists c01; vm_compute; reflexivity).
  assert (is_Some (chain_parent !! c11)) as H1
    by (exists c11; vm_compute; reflexivity).
  split; [exact Hct|]. split; [exact H0|]. split; [exact H1|].
  exact (union_merges_two_sets chain_parent c00 c11 Hct H0 H1).
Defined.

(** * Further properties of [kruskalMST] *)

Section collection_once.
Context (g : AdjacencyListGraph) (Hwf : wf_graph g).
Implicit Types st : list Edge * gset (gset Coordinate).
Implicit Types u v : Coordinate.

Lemma collect_step_once u st v :
  collect_once st → collect_once (collect_step g u st v).
Proof.
  intros [Hnd Hrec]. unfold collect_step.
  case_bool_decide as Hkey; [by split|].
  destruct (0 <? getWeight g u v); [|by split].
  split; simpl.
  - rewrite fmap_app. apply NoDup_app. split; [done|].
    split; [|apply NoDup_singleton].
    intros key (e & -> & He)%list_elem_of_fmap Heq%list_elem_of_singleton.
    apply Hkey. apply Hrec in He. by rewrite Heq in He.
  - intros e [He|He]%elem_of_app; apply elem_of_union.
    + right. by apply Hrec.
    + left. apply list_elem_of_singleton in He. rewrite He.
      by apply elem_of_singleton.
Qed.

Lemma collect_edges_keys_nodup (vs : list Coordinate) :
  NoDup (edge_key <$> collect_edges g vs).
Proof.
  unfold collect_edges.
  assert (collect_once ([], ∅)) as Hinit.
  { split; [constructor|]. by intros e ?%elem_of_nil. }
  revert Hinit. generalize (([], ∅) : list Edge * gset (gset Coordinate)).
  induction vs as [|u vs IH]; intros st Hst; simpl; [apply Hst|].
  apply IH. clear IH. revert st Hst.
  induction (neighbours g u) as [|v l IHl]; intros st Hst; simpl; [done|].
  by apply IHl, collect_step_once.
Qed.

Lemma edge_key_normalize (e : Edge) : edge_key (normalize e) = edge_key e.
Proof.
  unfold normalize, edge_key. destruct (coord_ltb _ _); [done|].
  unfold edge_src, edge_dst. simpl. apply (comm_L (∪)).
Qed.

Lemma edges_from_nodup u : NoDup (edges_from g u).
Proof.
  unfold edges_from. apply NoDup_fmap_2_strong.
  - intros x y _ _ Heq. by injection Heq.
  - apply NoDup_ListNoDup, List.NoDup_filter, NoDup_ListNoDup.
    unfold neighbours.
    destruct (adj_list g !! u) as [l|] eqn:Hl; [|constructor].
    apply NoDup_filter_keys. by eapply wf_keys.
Qed.

Lemma edges_nodup : NoDup (edges g).
Proof.
  unfold edges. apply NoDup_bind; [|intros; apply edges_from_nodup|apply Hwf].
  intros x1 x2 [[w u] v] _ _ H1 H2.
  apply (edges_from_elem g Hwf) in H1 as [-> _].
  by apply (edges_from_elem g Hwf) in H2 as [-> _].
Qed.

Lemma normalize_elem (E : list Edge) w u v :
  edge_list_of g E →
  (w, u, v) ∈ normalize <$> E ↔ (w, u, v) ∈ edges g.
Proof.
  intros HE. rewrite (edges_elem g Hwf), list_elem_of_fmap. split.
  - intros ([[w' a] b] & Heq & Hin).
    assert (entry g a b w') as Hentry by (apply HE; by left).
    pose proof (isAdjacent_ne _ _ (entry_adjacent g Hwf _ _ _ Hentry)) as Hne.
    unfold normalize, edge_src, edge_dst, edge_weight in Heq. simpl in Heq.
    destruct (coord_ltb a b) eqn:Hlt; injection Heq as -> -> ->; [done|].
    split; [by apply entry_sym|].
    rewrite (coord_ltb_total b a) by done. by rewrite Hlt.
  - intros [Hentry Hlt].
    pose proof (isAdjacent_ne _ _ (entry_adjacent g Hwf _ _ _ Hentry)) as Hne.
    apply HE in Hentry as [Hin|Hin].
    + exists (w, u, v). split; [|done].
      unfold normalize, edge_src, edge_dst. simpl. by rewrite Hlt.
    + exists (w, v, u). split; [|done].
      unfold normalize, edge_src, edge_dst, edge_weight. simpl.
      rewrite (coord_ltb_total v u) by done. by rewrite Hlt.
Qed.

End collection_once.

(** X15. On a well-formed graph the collection loop of [kruskalMST] lists
    every undirected traversable edge exactly once: no unordered pair occurs
    twice, every collected triple is an edge with its weight, and up to the
    orientation of each pair the collected list is the edge list of the
    graph, so it has as many elements as the graph has edges. *)
Theorem collect_edges_once (g : AdjacencyListGraph) :
  wf_graph g →
  NoDup (edge_key <$> collect_edges g (getVertices g)) ∧
  (∀ w u v, (w, u, v) ∈ collect_edges g (getVertices g) →
            hasEdge g u v = true ∧ getWeight g u v = w ∧ 0 < w) ∧
  normalize <$> collect_edges g (getVertices g) ≡ₚ edges g ∧
  length (collect_edges g (getVertices g)) = edge_count g.
Proof.
  intros Hwf. unfold getVertices.
  pose proof (collect_edges_spec g Hwf) as HE.
  pose proof (collect_edges_keys_nodup g (vertices g)) as Hkeys.
  assert (normalize <$> collect_edges g (vertices g) ≡ₚ edges g) as Hperm.
  { apply NoDup_Permutation.
    - apply (NoDup_fmap_1 edge_key). rewrite <- list_fmap_compose.
      rewrite (list_fmap_ext (edge_key ∘ normalize) edge_key); [done|].
      intros i e _. apply edge_key_normalize.
    - by apply edges_nodup.
    - intros [[w u] v]. by apply normalize_elem. }
  split; [done|]. split; [|split; [done|]].
  - intros w u v Hin. assert (entry g u v w) as Hentry by (apply HE; by left).
    split; [apply hasEdge_entry; [done|by exists w]|].
    split; [by apply getWeight_entry|by eapply entry_pos].
  - unfold edge_count. by rewrite <- Hperm, length_fmap.
Qed.

Lemma collect_edges_once_witness :
  wf_graph square_graph ∧
  NoDup (edge_key <$> collect_edges square_graph (getVertices square_graph)) ∧
  (∀ w u v, (w, u, v) ∈ collect_edges square_graph (getVertices square_graph) →
            hasEdge square_graph u v = true ∧ getWeight square_graph u v = w ∧
            0 < w) ∧
  normalize <$> collect_edges square_graph (getVertices square_graph)
    ≡ₚ edges square_graph ∧
  length (collect_edges square_graph (getVertices square_graph))
    = edge_count square_graph.
Proof.
  pose proof square_graph_reachable as Hwf%wf_reachable.
  split; [exact Hwf|]. exact (collect_edges_once square_graph Hwf).
Defined.

Lemma entries_of_edges (g g' : AdjacencyListGraph) :
  wf_graph g → wf_graph g' → (∀ e, e ∈ edges g → e ∈ edges g') →
  ∀ u v w, entry g u v w → entry g' u v w.
Proof.
  intros Hwf Hwf' Hsub u v w Hentry.
  pose proof (isAdjacent_ne _ _ (entry_adjacent g Hwf _ _ _ Hentry)) as Hne.
  destruct (coord_ltb u v) eqn:Hlt.
  - assert ((w, u, v) ∈ edges g) as Hin by by apply edges_elem.
    by apply Hsub, (edges_elem g' Hwf') in Hin as [? _].
  - assert ((w, v, u) ∈ edges g) as Hin.
    { apply edges_elem; [done|]. split; [by apply entry_sym|].
      rewrite (coord_ltb_total v u) by done. by rewrite Hlt. }
    apply Hsub, (edges_elem g' Hwf') in Hin as [? _]. by apply entry_sym.
Qed.

(** X16. Running [kruskalMST] on its own result changes nothing: the second
    call returns a new object with the same vertices, the same edges and
    weights, hence the same edge count and total weight, and the first result
    is still in the store as it was. *)
Theorem kruskalMST_idempotent (fuel graph : nat) (σ : Store)
    (g : AdjacencyListGraph) :
  σ !! graph = Some g → wf_graph g → (length (vertices g) ≤ fuel)%nat →
  ∃ mst σ' m mst2 σ'' m2,
    kruskalMST fuel graph σ = Some (mst, σ') ∧ σ' !! mst = Some m ∧
    kruskalMST fuel mst σ' = Some (mst2, σ'') ∧ σ'' !! mst2 = Some m2 ∧
    mst2 ≠ mst ∧ σ'' !! mst = Some m ∧
    getVertices m2 = getVertices m ∧
    edges m2 ≡ₚ edges m ∧
    edge_count m2 = edge_count m ∧ total_weight m2 = total_weight m ∧
    (∀ u v, hasEdge m2 u v = hasEdge m u v ∧
            getWeight m2 u v = getWeight m u v).
Proof.
  intros Hg Hwf Hfuel.
  destruct (kruskalMST_result fuel graph σ g Hg Hwf Hfuel)
    as (E & K & P' & m & HE & _ & _ & Hinv & _ & Hcall & Hm & _ & _).
  pose proof Hm as [Hwfm Hvs HK Hperm].
  assert ((σ ++ [m]) !! length σ = Some m) as Hlook by apply store_snoc_lookup.
  assert (length (vertices m) ≤ fuel)%nat as Hfuel' by by rewrite Hvs.
  destruct (kruskalMST_result fuel (length σ) (σ ++ [m]) m Hlook Hwfm Hfuel')
    as (E2 & K2 & P2 & m2 & HE2 & _ & _ & Hinv2 & _ & Hcall2 & Hm2 & _ & _).
  pose proof Hm2 as [Hwfm2 Hvs2 HK2 Hperm2]. rewrite Hvs in Hinv2.
  assert (∀ x y, econn E x y ↔ econn E2 x y) as Hconn.
  { intros x y. rewrite <- (connected_econn m Hwfm E2 x y HE2).
    rewrite (connected_econn m Hwfm K x y HK). split.
    - apply (ui_acc _ _ _ _ Hinv).
    - apply econn_mono, (ui_sub _ _ _ _ Hinv). }
  assert (length K = length K2) as Hlen.
  { pose proof (wf_nodup g Hwf) as Hnd. apply Nat.le_antisymm.
    - apply (uf_inv_count_le _ _ _ _ _ _ _ Hnd Hinv Hinv2).
      intros x y. apply Hconn.
    - apply (uf_inv_count_le _ _ _ _ _ _ _ Hnd Hinv2 Hinv).
      intros x y. apply Hconn. }
  assert (∀ e, e ∈ edges m2 → e ∈ edges m) as Hsub.
  { intros [[w u] v] [Hentry Hlt]%(edges_elem m2 Hwfm2).
    apply edges_elem; [done|]. split; [|done]. apply HE2.
    apply HK2 in Hentry as [Hin|Hin]; [left|right];
      by apply (ui_sub _ _ _ _ Hinv2). }
  assert (edges m2 ≡ₚ edges m) as Hedges.
  { apply submseteq_length_Permutation.
    - apply NoDup_submseteq; [by apply edges_nodup|done].
    - rewrite Hperm, Hperm2, !length_fmap. lia. }
  exists (length σ), (σ ++ [m]), m, (length (σ ++ [m])), ((σ ++ [m]) ++ [m2]), m2.
  split; [done|]. split; [done|]. split; [done|].
  split; [apply store_snoc_lookup|].
  split; [rewrite length_app; simpl; lia|].
  split; [rewrite lookup_app_l; [done|rewrite length_app; simpl; lia]|].
  split; [unfold getVertices; by rewrite Hvs2|]. split; [done|].
  split; [unfold edge_count; by rewrite Hedges|].
  split; [unfold total_weight; by apply weight_sum_perm|].
  intros u v. apply same_entries_queries; [done|done|]. intros z. split.
  - by apply entries_of_edges.
  - apply entries_of_edges; [done|done|]. intros e. by rewrite Hedges.
Qed.

Lemma kruskalMST_idempotent_witness :
  [square_graph] !! 0%nat = Some square_graph ∧ wf_graph square_graph ∧
  (length (vertices square_graph) ≤ 4)%nat ∧
  ∃ mst σ' m mst2 σ'' m2,
    kruskalMST 4 0 [square_graph] = Some (mst, σ') ∧ σ' !! mst = Some m ∧
    kruskalMST 4 mst σ' = Some (mst2, σ'') ∧ σ'' !! mst2 = Some m2 ∧
    mst2 ≠ mst ∧ σ'' !! mst = Some m ∧
    getVertices m2 = getVertices m ∧
    edges m2 ≡ₚ edges m ∧
    edge_count m2 = edge_count m ∧ total_weight m2 = total_weight m ∧
    (∀ u v, hasEdge m2 u v = hasEdge m u v ∧
            getWeight m2 u v = getWeight m u v).
Proof.
  pose proof square_graph_reachable as Hwf%wf_reachable.
  assert ([square_graph] !! 0%nat = Some square_graph) as Hg by reflexivity.
  assert (length (vertices square_graph) ≤ 4)%nat as Hfuel
    by (vm_compute; lia).
  split; [exact Hg|]. split; [exact Hwf|]. split; [exact Hfuel|].
  exact (kruskalMST_idempotent 4 0 [square_graph] square_graph Hg Hwf Hfuel).
Defined.
